(** * Austerity: game rules (ass3/lib/game.c) and the rafiki server (ass4)

    A shallow embedding of the C sources.  C [int] values are modelled as
    [Z]; signed overflow is undefined behaviour in C, so no wrap-around is
    attached to [+] and [-] on [int].  C arrays are lists read with the
    total lookup [l !!! i] and written with [<[i:=x]> l]; array indices
    that the callers have range-checked are [nat]. *)

From Stdlib Require Import ZArith Lia String Ascii Permutation Sorted.
From stdpp Require Import prelude strings pretty.

Local Open Scope Z_scope.

(** ** Part I: ass3/lib/game.h, ass3/lib/game.c *)

Module Game.

(** *** game.h: constants and structs *)

Definition MAX_PLAYERS : Z := 26.
Definition NUM_COLOURS : nat := 4.
Definition TOKEN_SLOTS : nat := 5.
Definition MAX_CARDS_ON_BOARD : nat := 8.
Definition TOKENS_PER_TAKE : Z := 3.
Definition WILD : nat := 4.

Inductive CardColour : Type :=
  | PURPLE | BROWN | YELLOW | RED | INVALID_COLOUR.

(** The numeric value of the enum, used as an array index. *)
Definition colour_index (c : CardColour) : nat :=
  match c with
  | PURPLE => 0 | BROWN => 1 | YELLOW => 2 | RED => 3 | INVALID_COLOUR => 4
  end%nat.

Record Card : Type := mkCard {
  discount : CardColour;
  value : Z;
  price : list Z            (* int price[NUM_COLOURS] *)
}.

(** [in], [out] and [pid] of the C struct are transport handles of the hub
    and play no part in the rules. *)
Record Player : Type := mkPlayer {
  totalPoints : Z;
  discounts : list Z;       (* int discounts[NUM_COLOURS] *)
  tokens : list Z           (* int tokens[TOKEN_SLOTS] *)
}.

(** [pile] is the field [tokens] of the C struct Game (the name is taken by
    the player's field); [topOfDeck] is the linked list of deck cards. *)
Record Game : Type := mkGame {
  myId : Z;
  maxPoints : Z;
  numPlayers : Z;
  pile : list Z;            (* int tokens[NUM_COLOURS] *)
  cardsFacedUp : Z;
  cards : list Card;        (* Card cards[MAX_CARDS_ON_BOARD] *)
  topOfDeck : list Card;
  players : list Player
}.

#[global] Instance Card_inhabited : Inhabited Card :=
  populate (mkCard INVALID_COLOUR 0 (replicate NUM_COLOURS 0)).
#[global] Instance Player_inhabited : Inhabited Player :=
  populate (mkPlayer 0 (replicate NUM_COLOURS 0) (replicate TOKEN_SLOTS 0)).

Definition set_tokens (p : Player) (t : list Z) : Player :=
  mkPlayer (totalPoints p) (discounts p) t.
Definition set_discounts (p : Player) (d : list Z) : Player :=
  mkPlayer (totalPoints p) d (tokens p).
Definition set_totalPoints (p : Player) (s : Z) : Player :=
  mkPlayer s (discounts p) (tokens p).

Definition set_pile (g : Game) (t : list Z) : Game :=
  mkGame (myId g) (maxPoints g) (numPlayers g) t (cardsFacedUp g) (cards g)
    (topOfDeck g) (players g).
Definition set_cards (g : Game) (cs : list Card) : Game :=
  mkGame (myId g) (maxPoints g) (numPlayers g) (pile g) (cardsFacedUp g) cs
    (topOfDeck g) (players g).
Definition set_cardsFacedUp (g : Game) (n : Z) : Game :=
  mkGame (myId g) (maxPoints g) (numPlayers g) (pile g) n (cards g)
    (topOfDeck g) (players g).
Definition set_players (g : Game) (ps : list Player) : Game :=
  mkGame (myId g) (maxPoints g) (numPlayers g) (pile g) (cardsFacedUp g)
    (cards g) (topOfDeck g) ps.

(** *** game.c *)

(** [setup_game]: every player starts with no points, tokens or discounts. *)
Definition setup_game (n : Z) : Game :=
  mkGame 0 0 n (replicate NUM_COLOURS 0) 0
    (replicate MAX_CARDS_ON_BOARD inhabitant) []
    (replicate (Z.to_nat n)
       (mkPlayer 0 (replicate NUM_COLOURS 0) (replicate TOKEN_SLOTS 0))).

Definition add_card_to_board (game : Game) (card : Card) : Game :=
  set_cardsFacedUp
    (set_cards game (<[Z.to_nat (cardsFacedUp game) := card]> (cards game)))
    (cardsFacedUp game + 1).

(** [take_card_from_board]: the for loop runs over [cardId <= i <
    cardsFacedUp] and copies slot [i + 1] into slot [i] while the next card
    exists; then the count drops by one. *)
Definition take_card_from_board (game : Game) (cardId : nat) : Game :=
  let n := Z.to_nat (cardsFacedUp game) in
  let shifted :=
    foldl (fun cs i => if decide (i + 1 < n)%nat
                       then <[i := cs !!! (i + 1)%nat]> cs else cs)
          (cards game) (seq cardId (n - cardId)) in
  set_cardsFacedUp (set_cards game shifted) (cardsFacedUp game - 1).

(** The loop of [can_player_afford_card] over the remaining colours [cs],
    with the running count [wildsUsed]. *)
Fixpoint afford_loop (card : Card) (player : Player) (wildsUsed : Z)
    (cs : list nat) : bool :=
  match cs with
  | [] => true
  | i :: rest =>
      let tokensNeeded := price card !!! i - discounts player !!! i in
      let tokensNeeded := if tokensNeeded <? 0 then 0 else tokensNeeded in
      if tokens player !!! i >=? tokensNeeded then
        afford_loop card player wildsUsed rest
      else if (tokens player !!! WILD >? 0)
              && (tokens player !!! i + (tokens player !!! WILD - wildsUsed)
                  >=? tokensNeeded) then
        afford_loop card player
          (wildsUsed + (tokensNeeded - tokens player !!! i)) rest
      else false
  end.

Definition can_player_afford_card (game : Game) (playerId cardId : nat)
    : bool :=
  let card := cards game !!! cardId in
  let player := players game !!! playerId in
  afford_loop card player 0 (seq 0 NUM_COLOURS).

(** One iteration of the loop of [choose_tokens_to_buy_card]. *)
Definition choose_step (card : Card) (player : Player) (destTokens : list Z)
    (i : nat) : list Z :=
  let tokensNeeded := price card !!! i - discounts player !!! i in
  let tokensNeeded := if tokensNeeded <? 0 then 0 else tokensNeeded in
  if tokensNeeded >? tokens player !!! i then
    let destTokens :=
      <[WILD := destTokens !!! WILD + (tokensNeeded - tokens player !!! i)]>
        destTokens in
    <[i := tokens player !!! i]> destTokens
  else <[i := tokensNeeded]> destTokens.

Definition choose_tokens_to_buy_card (game : Game) (playerId cardId : nat)
    (destTokens : list Z) : list Z :=
  let destTokens := <[WILD := 0]> destTokens in
  foldl (choose_step (cards game !!! cardId) (players game !!! playerId))
        destTokens (seq 0 NUM_COLOURS).

(** [correctTokens] is an uninitialised local array in C; each of its five
    slots is written by [choose_tokens_to_buy_card] before it is read. *)
Definition can_tokens_buy_card (game : Game) (playerId cardId : nat)
    (tokens : list Z) : bool :=
  if negb (can_player_afford_card game playerId cardId) then false
  else
    let correctTokens :=
      choose_tokens_to_buy_card game playerId cardId
        (replicate TOKEN_SLOTS 0) in
    forallb (fun i => correctTokens !!! i =? tokens !!! i)
            (seq 0 TOKEN_SLOTS).

Definition is_game_over (game : Game) : bool :=
  existsb (fun playerId =>
             totalPoints (players game !!! playerId) >=? maxPoints game)
          (seq 0 (Z.to_nat (numPlayers game))).

Definition can_tokens_be_taken (game : Game) : bool :=
  let pilesWithTokens :=
    foldl (fun n i => if pile game !!! i >? 0 then n + 1 else n)
          0 (seq 0 NUM_COLOURS) in
  pilesWithTokens >=? TOKENS_PER_TAKE.

(** The loop of [is_valid_token_take] over the remaining colours, with the
    running count [numTaken]. *)
Fixpoint take_loop (game : Game) (tokens : list Z) (numTaken : Z)
    (cs : list nat) : bool :=
  match cs with
  | [] => numTaken =? TOKENS_PER_TAKE
  | i :: rest =>
      if (tokens !!! i =? 1) && (pile game !!! i >? 0) then
        take_loop game tokens (numTaken + 1) rest
      else if negb (tokens !!! i =? 0) then false
      else take_loop game tokens numTaken rest
  end.

Definition is_valid_token_take (game : Game) (tokens : list Z) : bool :=
  take_loop game tokens 0 (seq 0 NUM_COLOURS).

Definition set_initial_game_tokens (game : Game) (initialTokens : Z) : Game :=
  foldl (fun g i => set_pile g (<[i := initialTokens]> (pile g)))
        game (seq 0 NUM_COLOURS).

(** One iteration of the token loop of [player_purchased_card]; [toks] is
    the C parameter [tokens]. *)
Definition purchase_step (playerId : nat) (toks : list Z) (game : Game)
    (i : nat) : Game :=
  let game :=
    set_players game
      (alter (fun p => set_tokens p
                (<[i := tokens p !!! i - toks !!! i]>
                   (tokens p)))
             playerId (players game)) in
  if decide (i ≠ WILD)
  then set_pile game (<[i := pile game !!! i + toks !!! i]> (pile game))
  else game.

Definition player_purchased_card (game : Game) (playerId cardId : nat)
    (toks : list Z) : Game :=
  let card := cards game !!! cardId in
  let game := take_card_from_board game cardId in
  let game := foldl (purchase_step playerId toks) game (seq 0 TOKEN_SLOTS) in
  let game :=
    set_players game
      (alter (fun p => set_discounts p
                (<[colour_index (discount card) :=
                     discounts p !!! colour_index (discount card) + 1]>
                   (discounts p)))
             playerId (players game)) in
  set_players game
    (alter (fun p => set_totalPoints p (totalPoints p + value card))
           playerId (players game)).

(** One iteration of the loop of [player_took_tokens]. *)
Definition took_step (playerId : nat) (toks : list Z) (game : Game)
    (i : nat) : Game :=
  let game :=
    set_players game
      (alter (fun p => set_tokens p
                (<[i := tokens p !!! i + toks !!! i]>
                   (tokens p)))
             playerId (players game)) in
  set_pile game (<[i := pile game !!! i - toks !!! i]> (pile game)).

Definition player_took_tokens (game : Game) (playerId : nat)
    (toks : list Z) : Game :=
  foldl (took_step playerId toks) game (seq 0 NUM_COLOURS).

Definition player_took_wild (game : Game) (playerId : nat) : Game :=
  set_players game
    (alter (fun p => set_tokens p
              (<[WILD := tokens p !!! WILD + 1]> (tokens p)))
           playerId (players game)).

End Game.

(** ** Part II: ass3/hub.c, the moves the hub applies to a game *)

Module Hub.
Import Game.

(** [take_card_from_deck] without its messages: nothing happens when the
    board is full or the deck is empty. *)
Definition take_card_from_deck (game : Game) : Game :=
  if decide (cardsFacedUp game = Z.of_nat MAX_CARDS_ON_BOARD) then game
  else match topOfDeck game with
       | [] => game
       | card :: next =>
           let game := add_card_to_board game card in
           mkGame (myId game) (maxPoints game) (numPlayers game) (pile game)
             (cardsFacedUp game) (cards game) next (players game)
       end.

Definition start_new_game (game : Game) (initialTokens maxPoints : Z) : Game :=
  let game :=
    mkGame (myId game) maxPoints (numPlayers game) (pile game)
      (cardsFacedUp game) (cards game) (topOfDeck game) (players game) in
  let game := set_initial_game_tokens game initialTokens in
  Nat.iter MAX_CARDS_ON_BOARD take_card_from_deck game.

(** A player's message after [sscanf] has split it into numbers. *)
Inductive Move : Type :=
  | MsgWild
  | MsgTake (tokens : list Z)
  | MsgPurchase (cardId : Z) (tokens : list Z).

(** [handle_input] from the point where the message is parsed: [None] is
    the C result [false] (the game is left as it was). *)
Definition handle_input (game : Game) (playerId : nat) (m : Move)
    : option Game :=
  match m with
  | MsgWild => Some (player_took_wild game playerId)
  | MsgTake tokens =>
      if negb (is_valid_token_take game tokens) then None
      else Some (player_took_tokens game playerId tokens)
  | MsgPurchase cardId tokens =>
      if (cardId <? 0) || (cardId >=? cardsFacedUp game)
         || negb (can_tokens_buy_card game playerId (Z.to_nat cardId) tokens)
      then None
      else Some (take_card_from_deck
                   (player_purchased_card game playerId (Z.to_nat cardId)
                      tokens))
  end.

(** The states the hub can bring a game of [n] players to: the state after
    [setup_game] (with the deck loaded) and [start_new_game], then any
    number of accepted moves by players [0 <= playerId < n]. *)
Inductive reachable (n initialTokens : Z) : Game -> Prop :=
  | reach_start deck maxPoints :
      reachable n initialTokens
        (start_new_game
           (let g := setup_game n in
            mkGame (myId g) (Game.maxPoints g) (numPlayers g) (pile g)
              (cardsFacedUp g) (cards g) deck (players g))
           initialTokens maxPoints)
  | reach_move game playerId m game' :
      reachable n initialTokens game ->
      (Z.of_nat playerId < n) ->
      handle_input game playerId m = Some game' ->
      reachable n initialTokens game'.

End Hub.

(** ** Quantities of the specification, for the game rules *)

Module Rules.
Import Game.

Definition Zsum (l : list Z) : Z := foldr Z.add 0 l.

(** [need[c] = max(0, price[c] - discounts[c])]. *)
Definition need (card : Card) (player : Player) (c : nat) : Z :=
  Z.max 0 (price card !!! c - discounts player !!! c).

(** [max(0, need[c] - tokens[c])]: what colour [c] leaves to the wilds. *)
Definition shortfall (card : Card) (player : Player) (c : nat) : Z :=
  Z.max 0 (need card player c - tokens player !!! c).

(** The sum of the shortfalls over the four non-wild colours. *)
Definition wilds_required (card : Card) (player : Player) : Z :=
  Zsum (shortfall card player <$> seq 0 NUM_COLOURS).

(** The canonical decomposition [spend]. *)
Definition spend (card : Card) (player : Player) (c : nat) : Z :=
  if decide (c = WILD) then wilds_required card player
  else Z.min (need card player c) (tokens player !!! c).

(** Number of ones among the four entries of a take request. *)
Definition ones (toks : list Z) : nat :=
  length (filter (fun c => toks !!! c = 1) (seq 0 NUM_COLOURS)).

(** Tokens of slot [c] held by all players together. *)
Definition held (game : Game) (c : nat) : Z :=
  Zsum ((fun p => tokens p !!! c) <$> players game).

(** Token conservation for the non-wild colours. *)
Definition conserved (initialTokens : Z) (game : Game) : Prop :=
  forall c, (c < NUM_COLOURS)%nat -> pile game !!! c + held game c = initialTokens.

(** The fixed sizes of the C arrays of a game of [n] players. *)
Definition well_sized (n : nat) (game : Game) : Prop :=
  length (pile game) = NUM_COLOURS /\
  length (players game) = n /\
  Forall (fun p => length (tokens p) = TOKEN_SLOTS) (players game).

(** The remaining fixed sizes: the board array and the discount arrays. *)
Definition board_sized (game : Game) : Prop :=
  length (cards game) = MAX_CARDS_ON_BOARD /\
  Forall (fun p => length (discounts p) = NUM_COLOURS) (players game).

(** What the token loop of [player_purchased_card] does to one player. *)
Definition pay (toks : list Z) (p : Player) (cs : list nat) : Player :=
  foldl (fun p i => set_tokens p (<[i := tokens p !!! i - toks !!! i]>
                                    (tokens p))) p cs.

(** What the token loop of [player_purchased_card] does to the piles. *)
Definition refund (toks : list Z) (pl : list Z) (cs : list nat) : list Z :=
  foldl (fun pl i => if decide (i ≠ WILD)
                     then <[i := pl !!! i + toks !!! i]> pl else pl) pl cs.

End Rules.

(** ** Part III: ass4/shared.c and ass4/server.c *)

Module Rafiki.

(** *** Streams of <stdio.h>

    A stream opened for reading is its content and a position.  [fgetc]
    yields the byte as a non-negative [int], or [EOF] at the end. *)

Record FILE : Type := mkFILE { content : list ascii; pos : nat }.

Definition EOF : Z := -1.
Definition newline : ascii := "010"%char.

Definition fgetc (file : FILE) : Z * FILE :=
  match content file !! pos file with
  | Some c => (Z.of_nat (nat_of_ascii c), mkFILE (content file) (S (pos file)))
  | None => (EOF, file)
  end.

Definition ftell (file : FILE) : Z := Z.of_nat (pos file).

(** [fseek(file, 0, SEEK_END)]. *)
Definition fseek_end (file : FILE) : FILE :=
  mkFILE (content file) (length (content file)).

(** [fseek(file, offset, SEEK_SET)]: a negative offset is refused and the
    position stays where it was. *)
Definition fseek_set (file : FILE) (offset : Z) : FILE :=
  if offset <? 0 then file else mkFILE (content file) (Z.to_nat offset).

(** The characters up to the next newline or the end of the input, and how
    many characters that takes from the stream (the newline included). *)
Fixpoint read_chars (rest : list ascii) : list ascii * nat :=
  match rest with
  | [] => ([], 0%nat)
  | c :: rest =>
      if Ascii.eqb c newline then ([], 1%nat)
      else let '(line, k) := read_chars rest in (c :: line, S k)
  end.

(** Modelled from the spec: [read_line] of the course library (declared in
    its util.h, which is not in the repository).  Every caller only tests
    the result with [<= 0], which the specification reads as "no line
    left, or an empty line"; a last line without a newline is a line.  The
    result is the length of the line, or [-1] at the end of the stream;
    the third argument of the C function is always [0] and is dropped. *)
Definition read_line (input : FILE) : Z * list ascii * FILE :=
  match drop (pos input) (content input) with
  | [] => (-1, [], input)
  | rest =>
      let '(line, k) := read_chars rest in
      (Z.of_nat (length line), line,
       mkFILE (content input) (pos input + k))
  end.

(** *** shared.c *)

(** [ftell(file) - sizeof(char)] is computed in [unsigned long] and handed
    to [fseek] as a [long]: on an empty file it wraps round to [-1], which
    is what the subtraction gives in [Z]; [fseek] then fails, and [fgetc]
    returns [EOF], which as a [char] is not the newline. *)
Definition does_file_end_newline (file : FILE) : bool * FILE :=
  let oldPos := ftell file in
  let file := fseek_end file in
  let file := fseek_set file (ftell file - 1) in
  let '(last, file) := fgetc file in
  let file := fseek_set file oldPos in
  (last =? Z.of_nat (nat_of_ascii newline), file).

(** [get_keyfile]: the argument is the content of the file named
    [filename], [None] when [fopen] fails.  The result is the returned
    [bool] and what [*dest] holds afterwards ([None]: never written). *)
Definition get_keyfile (filename : option (list ascii))
    : bool * option (list ascii) :=
  match filename with
  | None => (false, None)
  | Some bytes =>
      let keyfile := mkFILE bytes 0 in
      let '(n, dest, keyfile) := read_line keyfile in
      if n <=? 0 then (false, Some dest)
      else
        let '(endsNewline, keyfile) := does_file_end_newline keyfile in
        let isValid :=
          negb endsNewline && (fst (fgetc keyfile) =? EOF) in
        (isValid, Some dest)
  end.

Definition count_tokens (tokenPool : list Z) (numPiles : nat) : Z :=
  foldl (fun count i => count + tokenPool !!! i) 0 (seq 0 numPiles).

Definition is_valid_game_name (name : string) : bool :=
  forallb (fun c => negb (Ascii.eqb c ","%char || Ascii.eqb c newline))
          (list_ascii_of_string name).

(** *** <stdio.h>: [sscanf] with the format ["%d,%d,%d,%d"] *)

Definition isspace (c : ascii) : bool :=
  let n := nat_of_ascii c in
  (n =? 32)%nat || ((9 <=? n)%nat && (n <=? 13)%nat).

Definition isdigit (c : ascii) : bool :=
  let n := nat_of_ascii c in (48 <=? n)%nat && (n <=? 57)%nat.

Fixpoint skip_spaces (s : list ascii) : list ascii :=
  match s with
  | c :: rest => if isspace c then skip_spaces rest else s
  | [] => []
  end.

Fixpoint scan_digits (acc : Z) (s : list ascii) : Z * list ascii :=
  match s with
  | c :: rest =>
      if isdigit c
      then scan_digits (10 * acc + (Z.of_nat (nat_of_ascii c) - 48)) rest
      else (acc, s)
  | [] => (acc, [])
  end.

(** One [%d]: leading white space, an optional sign, at least one digit.
    The program stores the number in an [int]; a numeral outside the
    range of [int] is undefined behaviour in C, and the model keeps its
    value.  The two agree on every numeral from [-2147483648] to
    [2147483647]. *)
Definition scan_int (s : list ascii) : option (Z * list ascii) :=
  let s := skip_spaces s in
  let '(negative, s) :=
    match s with
    | "-"%char :: rest => (true, rest)
    | "+"%char :: rest => (false, rest)
    | _ => (false, s)
    end in
  match s with
  | c :: _ =>
      if isdigit c
      then let '(v, rest) := scan_digits 0 s in
           Some (if negative then - v else v, rest)
      else None
  | [] => None
  end.

(** [k] conversions [%d] separated by commas: the values converted before
    the first failure. *)
Fixpoint scan_ints (k : nat) (s : list ascii) : list Z :=
  match k with
  | O => []
  | S k' =>
      match scan_int s with
      | None => []
      | Some (v, rest) =>
          v :: match k', rest with
               | S _, ","%char :: rest' => scan_ints k' rest'
               | _, _ => []
               end
      end
  end.

(** The value [sscanf] returns: the number of conversions, or [EOF] when
    the input ends before the first one. *)
Definition sscanf_result (s : list ascii) (converted : list Z) : Z :=
  match converted, skip_spaces s with
  | [], [] => EOF
  | _, _ => Z.of_nat (length converted)
  end.

(** *** <string.h>, <stdlib.h> *)

(** [strcmp]: the difference of the first pair of bytes that differ, the
    end of a string counting as the byte 0.  C fixes only the sign. *)
Fixpoint strcmp (a b : string) : Z :=
  match a, b with
  | EmptyString, EmptyString => 0
  | EmptyString, String d _ => - Z.of_nat (nat_of_ascii d)
  | String c _, EmptyString => Z.of_nat (nat_of_ascii c)
  | String c a', String d b' =>
      if Ascii.eqb c d then strcmp a' b'
      else Z.of_nat (nat_of_ascii c) - Z.of_nat (nat_of_ascii d)
  end.

(** [qsort] puts [x] before the first element it does not compare greater
    than.  C leaves the order of elements that compare equal open; the
    properties below use only that the result is a permutation ordered by
    the comparison. *)
Fixpoint qsort_insert {A} (compar : A -> A -> Z) (x : A) (l : list A)
    : list A :=
  match l with
  | [] => [x]
  | y :: l' =>
      if compar x y <=? 0 then x :: l else y :: qsort_insert compar x l'
  end.

Definition qsort {A} (base : list A) (compar : A -> A -> Z) : list A :=
  foldr (qsort_insert compar) [] base.

(** *** Structs of server.c and of the course library *)

Definition MAX_PORT : Z := 65535.
Definition MIN_START_TOKENS : Z := 1.
Definition MIN_WIN : Z := 1.

(** Modelled from the spec: the macros [MIN_PLAYERS], [MAX_PLAYERS],
    [TOKEN_MAX] and [BOARD_SIZE] of the course library's headers, which
    are not in the repository: [playerCount] lies in [2, 26], a player
    holds five piles (wild included) and the board shows eight cards. *)
Definition MIN_PLAYERS : Z := 2.
Definition MAX_PLAYERS : Z := 26.
Definition TOKEN_MAX : nat := 5.
Definition BOARD_SIZE : nat := 8.

Module StatfileEntry.
Record t : Type := mk { port : Z; tokens : Z; points : Z; players : Z }.
End StatfileEntry.

(** Modelled from the spec: [struct Card], [struct Player], [struct
    GamePlayer] and [struct Game] of the course library, with the fields
    server.c uses.  Streams are named by their descriptor. *)
Module Card.
Record t : Type := mk { discount : Z; value : Z; price : list Z }.
End Card.

Module Player.
Record t : Type := mk {
  name : string;
  playerId : Z;
  score : Z;
  discounts : list Z;
  tokens : list Z
}.
End Player.

Record GamePlayer : Type := mkGamePlayer {
  state : Player.t;
  fromPlayer : nat;
  toPlayer : nat
}.

Record GameData : Type := mkGameData {
  finished : bool;
  counter : Z;
  initialTokens : Z;
  reconnectingPlayer : Z
}.

(** [playerCount], [deckSize] are the lengths of [players], [deck]. *)
Module Game.
Record t : Type := mk {
  name : string;
  players : list GamePlayer;
  deck : list Card.t;
  board : list Card.t;
  boardSize : Z;
  tokenCount : list Z;
  winScore : Z;
  data : GameData
}.
End Game.

(** [currentClients] is the length of [players]. *)
Module Lobby.
Record t : Type := mk {
  name : string;
  players : list GamePlayer;
  details : StatfileEntry.t;
  open : bool
}.
End Lobby.

(** [gameCount], [numLobbies], [deckSize] and [statfileSize] are the
    lengths of the arrays; listeners and mutexes are left out. *)
Record Server : Type := mkServer {
  games : list Game.t;
  lobbies : list Lobby.t;
  deckEntries : list Card.t;
  timeout : Z;
  key : option (list ascii);
  statfileEntries : list StatfileEntry.t
}.

Module PlayerScore.
Record t : Type := mk { name : string; tokens : Z; points : Z }.
End PlayerScore.

Inductive ExitCode : Type :=
  | NORMAL_EXIT | WRONG_ARGS | BAD_KEYFILE | BAD_DECKFILE | BAD_STATFILE
  | BAD_TIMEOUT | FAILED_LISTEN | SYSTEM_ERROR.

Definition exit_status (code : ExitCode) : Z :=
  match code with
  | NORMAL_EXIT => 0 | WRONG_ARGS => 1 | BAD_KEYFILE => 2
  | BAD_DECKFILE => 3 | BAD_STATFILE => 4 | BAD_TIMEOUT => 5
  | FAILED_LISTEN => 6 | SYSTEM_ERROR => 10
  end.

Definition setup_server_struct : Server := mkServer [] [] [] 0 None [].

Definition set_statfileEntries (server : Server)
    (entries : list StatfileEntry.t) : Server :=
  mkServer (games server) (lobbies server) (deckEntries server)
    (timeout server) (key server) entries.

Definition set_key (server : Server) (k : list ascii) : Server :=
  mkServer (games server) (lobbies server) (deckEntries server)
    (timeout server) (Some k) (statfileEntries server).

(** *** server.c: configuration files *)

(** The scan for a port already in the table: the index at which the
    inner loop stops.  Its [break] leaves only that loop. *)
Fixpoint port_scan (entries : list StatfileEntry.t) (port : Z) (i : nat)
    : nat :=
  match entries with
  | [] => i
  | e :: rest =>
      if StatfileEntry.port e =? port then i else port_scan rest port (S i)
  end.

(** The [while (true)] loop of [load_statfile]; [None] only when [fuel]
    runs out.  The result is [valid], the stream and the table. *)
Fixpoint load_statfile_loop (fuel : nat) (file : FILE)
    (entries : list StatfileEntry.t)
    : option (bool * FILE * list StatfileEntry.t) :=
  match fuel with
  | O => None
  | S fuel =>
      let '(n, line, file) := read_line file in
      if n <=? 0 then Some (true, file, entries)
      else
        let converted := scan_ints 4 line in
        let result := sscanf_result line converted in
        let entry :=
          StatfileEntry.mk (converted !!! 0%nat) (converted !!! 1%nat)
            (converted !!! 2%nat) (converted !!! 3%nat) in
        if negb (result =? 4)
           || (StatfileEntry.port entry <? 0)
           || (StatfileEntry.port entry >? MAX_PORT)
           || (StatfileEntry.tokens entry <? MIN_START_TOKENS)
           || (StatfileEntry.points entry <? MIN_WIN)
           || (StatfileEntry.players entry <? MIN_PLAYERS)
           || (StatfileEntry.players entry >? MAX_PLAYERS)
        then Some (false, file, entries)
        else
          let _ :=
            if negb (StatfileEntry.port entry =? 0)
            then port_scan entries (StatfileEntry.port entry) 0
            else 0%nat in
          load_statfile_loop fuel file (entries ++ [entry])
  end.

(** [load_statfile]: the argument is the content of the file named
    [filename], [None] when [fopen] fails.  Every pass of the loop that
    goes on takes at least one character, so one unit of fuel per
    character and one more for the last pass is enough. *)
Definition load_statfile (server : Server) (filename : option (list ascii))
    : option (bool * Server) :=
  match filename with
  | None => Some (false, server)
  | Some bytes =>
      match load_statfile_loop (S (length bytes)) (mkFILE bytes 0)
              (statfileEntries server) with
      | None => None
      | Some (valid, file, entries) =>
          let valid := valid && negb (fst (does_file_end_newline file)) in
          Some (valid, set_statfileEntries server entries)
      end
  end.

Definition load_keyfile (server : Server) (filename : option (list ascii))
    : bool * Server :=
  match get_keyfile filename with
  | (true, Some k) => (true, set_key server k)
  | _ => (false, server)
  end.

(** [main] and the first pass of [run_server] up to the first reading of
    the statfile: the exit code, or [None] when the server goes on to
    check the timeout and to listen.  [deckOk] stands for the result of
    [load_deckfile], whose parser is in the course library. *)
Definition startup (argc : Z) (keyfile : option (list ascii)) (deckOk : bool)
    (statfile : option (list ascii)) : option ExitCode :=
  if negb (argc =? 5) then Some WRONG_ARGS
  else
    let server := setup_server_struct in
    let '(ok, server) := load_keyfile server keyfile in
    if negb ok then Some BAD_KEYFILE
    else if negb deckOk then Some BAD_DECKFILE
    else match load_statfile server statfile with
         | Some (true, _) => None
         | _ => Some BAD_STATFILE
         end.

(** *** server.c: the scoreboard *)

Definition score_sort (p1 p2 : PlayerScore.t) : Z :=
  let pointCompare := PlayerScore.points p2 - PlayerScore.points p1 in
  if pointCompare =? 0 then PlayerScore.tokens p1 - PlayerScore.tokens p2
  else pointCompare.

#[global] Instance PlayerScore_inhabited : Inhabited PlayerScore.t :=
  populate (PlayerScore.mk EmptyString 0 0).

(** The loop over the names found so far: the last index whose name is
    the player's, or [-1].  [uniquePlayers] is the length of [scores]. *)
Definition find_score (scores : list PlayerScore.t) (name : string) : Z :=
  foldl (fun newPlayer j =>
           if strcmp (PlayerScore.name (scores !!! j)) name =? 0
           then Z.of_nat j else newPlayer)
        (-1) (seq 0 (length scores)).

(** The body of the loop over the players of a game. *)
Definition add_player_score (scores : list PlayerScore.t)
    (player : Player.t) : list PlayerScore.t :=
  let newPlayer := find_score scores (Player.name player) in
  let '(newPlayer, scores) :=
    if newPlayer =? -1
    then (length scores, scores ++ [PlayerScore.mk EmptyString 0 0])
    else (Z.to_nat newPlayer, scores) in
  alter (fun s =>
           PlayerScore.mk (Player.name player)
             (PlayerScore.tokens s
              + count_tokens (Player.tokens player) TOKEN_MAX)
             (PlayerScore.points s + Player.score player))
        newPlayer scores.

Definition collect_scores (server : Server) : list PlayerScore.t :=
  foldl (fun scores game =>
           foldl (fun scores gp => add_player_score scores (state gp))
                 scores (Game.players game))
        [] (games server).

Definition score_line (s : PlayerScore.t) : string :=
  PlayerScore.name s +:+ "," +:+ pretty (PlayerScore.tokens s) +:+ ","
  +:+ pretty (PlayerScore.points s) +:+ String newline EmptyString.

(** [print_scores]: the strings written to the client, one per
    [fprintf]. *)
Definition print_scores (server : Server) : list string :=
  let scores := collect_scores server in
  let scores := qsort scores score_sort in
  ("Player Name,Total Tokens,Total Points" +:+ String newline EmptyString)
  :: (score_line <$> scores).

(** *** server.c: lobbies and the start of a game *)

Definition sort_players (a b : GamePlayer) : Z :=
  let p1 := state a in
  let p2 := state b in
  let nameCompare := strcmp (Player.name p1) (Player.name p2) in
  if nameCompare =? 0 then Player.playerId p1 - Player.playerId p2
  else nameCompare.



Definition set_playerId (gp : GamePlayer) (id : Z) : GamePlayer :=
  mkGamePlayer
    (Player.mk (Player.name (state gp)) id (Player.score (state gp))
       (Player.discounts (state gp)) (Player.tokens (state gp)))
    (fromPlayer gp) (toPlayer gp).

Definition set_games (server : Server) (gs : list Game.t) : Server :=
  mkServer gs (lobbies server) (deckEntries server) (timeout server)
    (key server) (statfileEntries server).


#[global] Instance Lobby_inhabited : Inhabited Lobby.t :=
  populate (Lobby.mk EmptyString [] (StatfileEntry.mk 0 0 0 0) false).

(** [add_game_to_server]: [garbage] is what [malloc] left in the fields
    of [GameData] that are not set here.  The result is the game id. *)
Definition add_game_to_server (server : Server) (game : Game.t)
    (garbage : Z) : nat * Server :=
  let gameCounter :=
    foldl (fun gameCounter g =>
             if strcmp (Game.name game) (Game.name g) =? 0
             then gameCounter + 1 else gameCounter)
          1 (games server) in
  let data := mkGameData false gameCounter garbage garbage in
  let game :=
    Game.mk (Game.name game) (Game.players game) (Game.deck game)
      (Game.board game) (Game.boardSize game) (Game.tokenCount game)
      (Game.winScore game) data in
  (length (games server), set_games server (games server ++ [game])).

(** [start_game] up to the creation of the game thread. *)
Definition start_game (server : Server) (lobbyId : nat) (garbage : Z)
    : Server :=
  let lobby := lobbies server !!! lobbyId in
  let players := Lobby.players lobby in
  let deck := deckEntries server in
  let tokenCount :=
    replicate (TOKEN_MAX - 1) (StatfileEntry.tokens (Lobby.details lobby)) in
  let winScore := StatfileEntry.points (Lobby.details lobby) in
  let players := qsort players sort_players in
  let players := imap (fun i gp => set_playerId gp (Z.of_nat i)) players in
  let game :=
    Game.mk (Lobby.name lobby) players deck [] 0 tokenCount winScore
      (mkGameData false garbage garbage garbage) in
  let '(gameId, server) := add_game_to_server server game garbage in
  set_games server
    (alter (fun g =>
              Game.mk (Game.name g) (Game.players g) (Game.deck g)
                (Game.board g) (Game.boardSize g) (Game.tokenCount g)
                (Game.winScore g)
                (mkGameData (finished (Game.data g)) (counter (Game.data g))
                   (StatfileEntry.tokens (Lobby.details lobby))
                   (reconnectingPlayer (Game.data g))))
           gameId (games server)).



(** *** server.c: the turn of one player *)

(** Modelled from the spec: [enum ErrorCode] of the course library, with
    the three values server.c names; [OTHER_ERROR] is any further value. *)
Inductive ErrorCode : Type :=
  | NOTHING_WRONG | PROTOCOL_ERROR | PLAYER_CLOSED | OTHER_ERROR.

(** What the other threads decide while the driver waits for a
    reconnection: the value [pthread_cond_timedwait] returns (0 when the
    condition was signalled) and whether the game was marked finished in
    the meantime. *)
Record Wait : Type := mkWait { waitStatus : Z; finishedMeanwhile : bool }.

Definition wait_for_reconnect (timeout : Z) (data : GameData) (playerId : Z)
    (w : Wait) : bool * GameData :=
  if timeout =? 0 then (false, data)
  else if finished data then (false, data)
  else
    let data :=
      mkGameData (finished data || finishedMeanwhile w) (counter data)
        (initialTokens data) playerId in
    if finished data then (false, data)
    else (waitStatus w =? 0, data).

(** What one call of [do_what] meets: the code it returns once the
    player's line (or the end of the stream) is read, and what a wait for
    reconnection would meet if the loop comes to it. *)
Record Reply : Type := mkReply { err : ErrorCode; wait : Wait }.

(** Where the [while (true)] loop of a turn stands: left through a
    [break], or blocked in [do_what] with no reply yet.  [dowhats] counts
    the "dowhat" lines sent to the player during the turn. *)
Inductive Turn : Type :=
  | Left (gameStopped : bool) (err : ErrorCode) (data : GameData)
         (dowhats : nat)
  | Blocked (hadAttempt : bool) (data : GameData) (dowhats : nat).

Fixpoint turn_loop (timeout : Z) (player : Z) (hadAttempt : bool)
    (data : GameData) (dowhats : nat) (replies : list Reply) : Turn :=
  match replies with
  | [] => Blocked hadAttempt data (S dowhats)
  | r :: replies =>
      let dowhats := S dowhats in
      match err r with
      | PROTOCOL_ERROR =>
          if hadAttempt then Left true PROTOCOL_ERROR data dowhats
          else turn_loop timeout player true data dowhats replies
      | PLAYER_CLOSED =>
          let '(reconnected, data) :=
            wait_for_reconnect timeout data player (wait r) in
          if reconnected
          then turn_loop timeout player hadAttempt data dowhats replies
          else Left true PLAYER_CLOSED data dowhats
      | NOTHING_WRONG => Left false NOTHING_WRONG data dowhats
      | OTHER_ERROR =>
          turn_loop timeout player hadAttempt data dowhats replies
      end
  end.

(** The turn of [player] in [run_game_loop]: [hadAttempt] starts out
    false. *)
Definition player_turn (timeout : Z) (player : Z) (data : GameData)
    (replies : list Reply) : Turn :=
  turn_loop timeout player false data 0 replies.

(** The broadcast after both loops of [run_game_loop] are left, [err]
    being the last code of [do_what]; [player] is the loop counter, which
    the [for] statement has stepped once past the player whose turn ended
    the game. *)
Definition final_broadcast (data : GameData) (err : ErrorCode) (player : Z)
    : option string :=
  if finished data then None
  else
    let letter :=
      String (ascii_of_nat (Z.to_nat (65 + (player - 1)))) EmptyString in
    match err with
    | PLAYER_CLOSED => Some ("disco" +:+ letter +:+ String newline EmptyString)
    | PROTOCOL_ERROR =>
        Some ("invalid" +:+ letter +:+ String newline EmptyString)
    | NOTHING_WRONG => Some ("eog" +:+ String newline EmptyString)
    | OTHER_ERROR => None
    end.

(** The message that ends the game when the turn of [player] stops it. *)
Definition turn_broadcast (player : Z) (t : Turn) : option string :=
  match t with
  | Left true err data _ => final_broadcast data err (player + 1)
  | _ => None
  end.

End Rafiki.

(** ** Quantities of the specification, for the server *)

Module ServerRules.
Import Rafiki.

(** The bytes of a string literal, to write file contents with. *)
Definition bytes (s : string) : list ascii := list_ascii_of_string s.

(** The statfile entry satisfies the constraints on one entry. *)
Definition entry_ok (e : StatfileEntry.t) : Prop :=
  0 <= StatfileEntry.port e <= MAX_PORT /\
  MIN_START_TOKENS <= StatfileEntry.tokens e /\
  MIN_WIN <= StatfileEntry.points e /\
  MIN_PLAYERS <= StatfileEntry.players e <= MAX_PLAYERS.

(** A name is a C string: it holds no byte 0. *)
Definition c_string (s : string) : bool :=
  forallb (fun c => negb (Ascii.eqb c "000"%char)) (list_ascii_of_string s).

(** The players of all games of the server, past and present, in the
    order of the games and of their seats. *)
Definition all_players (server : Server) : list Player.t :=
  games server ≫= (fun game => state <$> Game.players game).

(** The tokens a player holds over the five piles, wilds included. *)
Definition tokens_held (p : Player.t) : Z :=
  Player.tokens p !!! 0%nat + Player.tokens p !!! 1%nat
  + Player.tokens p !!! 2%nat + Player.tokens p !!! 3%nat
  + Player.tokens p !!! 4%nat.

(** The players among [ps] that go by the name [name]. *)
Definition named (name : string) (ps : list Player.t) : list Player.t :=
  filter (fun p => Player.name p = name) ps.

Definition total_tokens (name : string) (ps : list Player.t) : Z :=
  Rules.Zsum (tokens_held <$> named name ps).

Definition total_points (name : string) (ps : list Player.t) : Z :=
  Rules.Zsum (Player.score <$> named name ps).

(** The order of the scoreboard: more points first, and among equal
    points fewer tokens first. *)
Definition score_order (a b : PlayerScore.t) : Prop :=
  PlayerScore.points b < PlayerScore.points a \/
  (PlayerScore.points a = PlayerScore.points b /\
   PlayerScore.tokens a <= PlayerScore.tokens b).



(** [scores] is the tally of the players [ps]: one row for each name
    among them, holding the totals of the players of that name. *)
Definition tallied (scores : list PlayerScore.t) (ps : list Player.t)
    : Prop :=
  NoDup (PlayerScore.name <$> scores) /\
  (forall name, name ∈ PlayerScore.name <$> scores <->
                name ∈ Player.name <$> ps) /\
  (forall s, s ∈ scores ->
     PlayerScore.tokens s = total_tokens (PlayerScore.name s) ps /\
     PlayerScore.points s = total_points (PlayerScore.name s) ps).

End ServerRules.

(** ** States to try the properties on *)

Module Examples.

(** A hub game of two players after some moves: one card on the board,
    player A with a purple, a brown and a wild token. *)
Definition hub_game : Game.Game :=
  Game.mkGame 0 10 2 [2; 2; 3; 3] 1
    (Game.mkCard Game.PURPLE 1 [2; 1; 0; 0]
     :: replicate 7 (Game.mkCard Game.RED 0 [0; 0; 0; 0]))
    []
    [Game.mkPlayer 0 [0; 0; 0; 0] [1; 1; 0; 0; 1];
     Game.mkPlayer 0 [0; 0; 0; 0] [0; 0; 0; 0; 0]].

(** The deck of the two-player game of the specification. *)
Definition hub_deck : list Game.Card :=
  [Game.mkCard Game.PURPLE 1 [1; 0; 0; 0];
   Game.mkCard Game.BROWN 0 [0; 1; 0; 0]].

Definition seat (name : string) (id score wilds : Z) (socket : nat)
    : Rafiki.GamePlayer :=
  Rafiki.mkGamePlayer
    (Rafiki.Player.mk name id score [0; 0; 0; 0] [0; 0; 0; 0; wilds])
    socket socket.

Definition finished_game (name : string) (players : list Rafiki.GamePlayer)
    : Rafiki.Game.t :=
  Rafiki.Game.mk name players [] [] 0 [0; 0; 0; 0] 1
    (Rafiki.mkGameData true 1 1 0).

(** The two finished games of the scoreboard scenario. *)
Definition scores_server : Rafiki.Server :=
  Rafiki.mkServer
    [finished_game "g" [seat "alice" 0 5 2 3; seat "bob" 1 3 1 4];
     finished_game "g" [seat "alice" 0 2 0 5; seat "carol" 1 4 3 6]]
    [] [] 0 None [].

(** A lobby of three arrivals, two of them called bob. *)
Definition full_lobby : Rafiki.Lobby.t :=
  Rafiki.Lobby.mk "g"
    [seat "bob" 0 0 0 3; seat "alice" 1 0 0 4; seat "bob" 2 0 0 5]
    (Rafiki.StatfileEntry.mk 3000 2 5 3) false.

Definition lobby_server : Rafiki.Server :=
  Rafiki.mkServer [] [full_lobby] [] 0 None [].

End Examples.

(** ** Part IV: the rest of ass3/lib/game.c and ass3/lib/util.c *)

Module GameLib.
Import Game.

Definition get_card_colour (input : ascii) : CardColour :=
  if Ascii.eqb input "B" then BROWN
  else if Ascii.eqb input "Y" then YELLOW
  else if Ascii.eqb input "P" then PURPLE
  else if Ascii.eqb input "R" then RED
  else INVALID_COLOUR.

Definition get_card_char (colour : CardColour) : ascii :=
  match colour with
  | BROWN => "B" | YELLOW => "Y" | PURPLE => "P" | RED => "R"
  | INVALID_COLOUR => "?"
  end%char.

(** [get_wilds_needed_for_card]: for a colour the player is short of, the
    loop adds [player.tokens[i] - tokensNeeded]. *)
Definition get_wilds_needed_for_card (game : Game) (playerId cardId : nat)
    : Z :=
  let card := cards game !!! cardId in
  let player := players game !!! playerId in
  foldl (fun wildsNeeded i =>
           let tokensNeeded := price card !!! i - discounts player !!! i in
           let tokensNeeded := if tokensNeeded <? 0 then 0 else tokensNeeded in
           if tokens player !!! i >=? tokensNeeded then wildsNeeded
           else wildsNeeded + (tokens player !!! i - tokensNeeded))
        0 (seq 0 NUM_COLOURS).

(** The sum is an [int] in the program and is taken in [Z] here: the
    two agree as long as the five counts add up within the range of
    [int], beyond which the sum is undefined behaviour in C. *)
Definition get_player_token_count (game : Game) (playerId : nat) : Z :=
  foldl (fun total i => total + tokens (players game !!! playerId) !!! i)
        0 (seq 0 TOKEN_SLOTS).

Definition get_card_price_for_player (game : Game) (playerId cardId : nat)
    : Z :=
  foldl (fun total i =>
           let tokensNeeded :=
             price (cards game !!! cardId) !!! i
             - discounts (players game !!! playerId) !!! i in
           total + (if tokensNeeded <? 0 then 0 else tokensNeeded))
        0 (seq 0 NUM_COLOURS).

(** *** util.c

    A C [char] is modelled by its value, a [Z] between -128 and 127;
    [to_char] is the conversion from [int]. *)

Definition to_char (z : Z) : Z := (z + 128) mod 256 - 128.

Definition is_array_all_positive (length : nat) (array : list Z) : bool :=
  forallb (fun i => negb (array !!! i <? 0)) (seq 0 length).

Definition player_int_to_char (playerId : Z) : Z := to_char (playerId + 65).

Definition player_char_to_int (playerLetter : Z) : Z := playerLetter - 65.

Definition is_valid_player_char (playerLetter : Z) (numPlayers : Z) : bool :=
  (playerLetter >=? 65) && (playerLetter <? 65 + numPlayers).

End GameLib.

(** ** Part V: ass3/players, the three strategies

    A strategy reads the player's copy of the game and prints one message;
    the message is given here as the numbers it carries.  [taking] and
    [tokensToUse] are local arrays; where C leaves them uninitialised
    every slot is written before it is printed. *)

Module Shenzi.
Import Game GameLib Hub.

(** The state of the loop of [check_cards]. *)
Record Choice : Type := mkChoice {
  highestValue : Z;
  lowestPrice : Z;
  cardToBuy : Z
}.

Definition check_cards_step (game : Game) (c : Choice) (cardId : nat)
    : Choice :=
  let me := Z.to_nat (myId game) in
  if can_player_afford_card game me cardId then
    let cardValue := value (cards game !!! cardId) in
    let cardPrice := get_card_price_for_player game me cardId in
    if highestValue c =? cardValue then
      if cardPrice =? lowestPrice c
      then mkChoice (highestValue c) (lowestPrice c) (Z.of_nat cardId)
      else if cardPrice <? lowestPrice c
      then mkChoice (highestValue c) cardPrice (Z.of_nat cardId)
      else c
    else if highestValue c <? cardValue
    then mkChoice cardValue cardPrice (Z.of_nat cardId)
    else c
  else c.

(** [check_cards]: the purchase it tells the hub about, if any. *)
Definition check_cards (game : Game) : option (Z * list Z) :=
  let c :=
    foldl (check_cards_step game) (mkChoice (-1) (-1) (-1))
          (seq 0 (Z.to_nat (cardsFacedUp game))) in
  if cardToBuy c >? -1 then
    Some (cardToBuy c,
          choose_tokens_to_buy_card game (Z.to_nat (myId game))
            (Z.to_nat (cardToBuy c)) (replicate TOKEN_SLOTS 0))
  else None.

Definition check_tokens_step (game : Game) (st : Z * list Z) (i : nat)
    : Z * list Z :=
  let '(numTaken, taking) := st in
  if (pile game !!! i >? 0) && (numTaken <? TOKENS_PER_TAKE)
  then (numTaken + 1, <[i := 1]> taking)
  else (numTaken, <[i := 0]> taking).

(** [check_tokens]: the take it tells the hub about, if any. *)
Definition check_tokens (game : Game) : option (list Z) :=
  if negb (can_tokens_be_taken game) then None
  else
    Some (foldl (check_tokens_step game) (0, replicate NUM_COLOURS 0)
                (seq 0 NUM_COLOURS)).2.

Definition choose_move (game : Game) : Move :=
  match check_cards game with
  | Some (cardId, tokens) => MsgPurchase cardId tokens
  | None =>
      match check_tokens game with
      | Some taking => MsgTake taking
      | None => MsgWild
      end
  end.

End Shenzi.

Module Banzai.
Import Game GameLib Hub.

(** [order]: yellow, brown, purple, red. *)
Definition order : list nat :=
  [colour_index YELLOW; colour_index BROWN; colour_index PURPLE;
   colour_index RED].

Definition check_tokens_step (game : Game) (st : Z * list Z) (i : nat)
    : Z * list Z :=
  let '(numTaken, taking) := st in
  if (pile game !!! (order !!! i) >? 0) && (numTaken <? 3)
  then (numTaken + 1, <[order !!! i := 1]> taking)
  else (numTaken, taking).

Definition check_tokens (game : Game) : option (list Z) :=
  if negb (can_tokens_be_taken game)
     || (get_player_token_count game (Z.to_nat (myId game)) >=? 3)
  then None
  else
    Some (foldl (check_tokens_step game) (0, [0; 0; 0; 0])
                (seq 0 NUM_COLOURS)).2.

(** The state of the loop of [check_cards]. *)
Record Choice : Type := mkChoice {
  mostWilds : Z;
  highestPrice : Z;
  cardToBuy : Z
}.

Definition check_cards_step (game : Game) (c : Choice) (cardId : nat)
    : Choice :=
  let me := Z.to_nat (myId game) in
  if can_player_afford_card game me cardId
     && (value (cards game !!! cardId) >? 0) then
    let cardPrice := get_card_price_for_player game me cardId in
    let wildsNeeded := get_wilds_needed_for_card game me cardId in
    if highestPrice c =? cardPrice then
      if wildsNeeded =? mostWilds c
      then mkChoice (mostWilds c) (highestPrice c) (Z.of_nat cardId)
      else if wildsNeeded >? mostWilds c
      then mkChoice wildsNeeded (highestPrice c) (Z.of_nat cardId)
      else c
    else if cardPrice >? highestPrice c
    then mkChoice wildsNeeded cardPrice (Z.of_nat cardId)
    else c
  else c.

(** The loop runs from the newest card down to the oldest. *)
Definition check_cards (game : Game) : option (Z * list Z) :=
  let c :=
    foldl (check_cards_step game) (mkChoice (-1) (-1) (-1))
          (reverse (seq 0 (Z.to_nat (cardsFacedUp game)))) in
  if cardToBuy c >? -1 then
    Some (cardToBuy c,
          choose_tokens_to_buy_card game (Z.to_nat (myId game))
            (Z.to_nat (cardToBuy c)) (replicate TOKEN_SLOTS 0))
  else None.

Definition choose_move (game : Game) : Move :=
  match check_tokens game with
  | Some taking => MsgTake taking
  | None =>
      match check_cards game with
      | Some (cardId, tokens) => MsgPurchase cardId tokens
      | None => MsgWild
      end
  end.

End Banzai.

Module Ed.
Import Game GameLib Hub.

(** The state of the search of [identify_card]. *)
Record Choice : Type := mkChoice {
  highestValue : Z;
  cardToBuy : Z
}.

(** The body of the inner loop for one opponent and one card. *)
Definition identify_step (game : Game) (playerId : Z) (c : Choice)
    (cardId : nat) : Choice :=
  if can_player_afford_card game (Z.to_nat playerId) cardId then
    let value := value (cards game !!! cardId) in
    if value >=? highestValue c then mkChoice value (Z.of_nat cardId) else c
  else c.

(** The while loop of [identify_card], one opponent for each unit of
    [fuel]; [None] when the fuel is used up before the loop ends. *)
Fixpoint identify_loop (fuel : nat) (game : Game) (playerId : Z)
    (c : Choice) : option Choice :=
  match fuel with
  | O => None
  | S fuel =>
      if playerId =? myId game then Some c
      else if (playerId <? 0) && (myId game =? numPlayers game - 1)
      then Some c
      else
        let playerId :=
          if playerId <? 0 then numPlayers game - 1 else playerId in
        let c :=
          foldl (identify_step game playerId) c
                (reverse (seq 0 (Z.to_nat (cardsFacedUp game)))) in
        identify_loop fuel game (playerId - 1) c
  end.

Definition identify_card (fuel : nat) (game : Game) : option Z :=
  cardToBuy <$> identify_loop fuel game (myId game - 1) (mkChoice (-1) (-1)).

(** [order]: yellow, red, brown, purple. *)
Definition order : list nat :=
  [colour_index YELLOW; colour_index RED; colour_index BROWN;
   colour_index PURPLE].

(** The loop that takes what the identified card still needs. *)
Definition needed_step (game : Game) (cardToBuy : Z) (st : Z * list Z)
    (i : nat) : Z * list Z :=
  let '(numTaken, taking) := st in
  let card := cards game !!! Z.to_nat cardToBuy in
  let me := players game !!! Z.to_nat (myId game) in
  let tokensNeeded :=
    price card !!! (order !!! i)
    - (discounts me !!! (order !!! i) + tokens me !!! (order !!! i)) in
  if (pile game !!! (order !!! i) >? 0) && (tokensNeeded >? 0)
     && (numTaken <? TOKENS_PER_TAKE)
  then (numTaken + 1, <[order !!! i := 1]> taking)
  else (numTaken, taking).

(** The loop that fills the take up in the order of preference. *)
Definition normal_step (game : Game) (st : Z * list Z) (i : nat)
    : Z * list Z :=
  let '(numTaken, taking) := st in
  if (pile game !!! (order !!! i) >? 0) && (taking !!! (order !!! i) =? 0)
     && (numTaken <? TOKENS_PER_TAKE)
  then (numTaken + 1, <[order !!! i := 1]> taking)
  else (numTaken, taking).

Definition check_tokens (game : Game) (cardToBuy : Z) : option (list Z) :=
  if negb (can_tokens_be_taken game) then None
  else
    let st := (0, [0; 0; 0; 0]) in
    let st :=
      if cardToBuy >? -1
      then foldl (needed_step game cardToBuy) st (seq 0 NUM_COLOURS)
      else st in
    Some (foldl (normal_step game) st (seq 0 NUM_COLOURS)).2.

(** [choose_move], given the card that [identify_card] returned. *)
Definition choose_move_for (game : Game) (cardToBuy : Z) : Move :=
  if (cardToBuy >? -1)
     && can_player_afford_card game (Z.to_nat (myId game))
          (Z.to_nat cardToBuy)
  then MsgPurchase cardToBuy
         (choose_tokens_to_buy_card game (Z.to_nat (myId game))
            (Z.to_nat cardToBuy) (replicate TOKEN_SLOTS 0))
  else
    match check_tokens game cardToBuy with
    | Some taking => MsgTake taking
    | None => MsgWild
    end.

Definition choose_move (fuel : nat) (game : Game) : option Move :=
  choose_move_for game <$> identify_card fuel game.

End Ed.

(** ** Part VI: the lines the hub sends (ass3/hub.c) and what a player
    does with them (ass3/player.c)

    A line is given as the values it carries: [printf] and [sscanf] are
    not modelled, nor is the check for white space in a line. *)

Module HubSends.
Import Game GameLib Hub.

Inductive Message : Type :=
  | Tokens (initialTokens : Z)
  | NewCard (colour : ascii) (value : Z) (price : list Z)
  | Purchased (player : Z) (cardNumber : Z) (tokens : list Z)
  | Took (player : Z) (tokens : list Z)
  | TookWild (player : Z).

(** The first [n] entries of a C array, as [send_message_all] prints
    them one by one. *)
Definition printed (n : nat) (array : list Z) : list Z :=
  (fun i => array !!! i) <$> seq 0 n.

(** What [take_card_from_deck] sends. *)
Definition take_card_from_deck_sends (game : Game) : list Message :=
  if decide (cardsFacedUp game = Z.of_nat MAX_CARDS_ON_BOARD) then []
  else match topOfDeck game with
       | [] => []
       | card :: _ =>
           [NewCard (get_card_char (discount card)) (value card)
              (printed NUM_COLOURS (price card))]
       end.

(** What the first [k] passes of the loop of [start_new_game] send. *)
Fixpoint deal_sends (k : nat) (game : Game) : list Message :=
  match k with
  | O => []
  | S k =>
      deal_sends k game
      ++ take_card_from_deck_sends (Nat.iter k take_card_from_deck game)
  end.

Definition start_new_game_sends (game : Game) (initialTokens maxPoints : Z)
    : list Message :=
  let game :=
    mkGame (myId game) maxPoints (numPlayers game) (pile game)
      (cardsFacedUp game) (cards game) (topOfDeck game) (players game) in
  let game := set_initial_game_tokens game initialTokens in
  Tokens initialTokens :: deal_sends MAX_CARDS_ON_BOARD game.

(** What [handle_input] sends through [handle_wild_take],
    [handle_token_take] and [handle_card_purchase]; the line of a
    purchase goes out before the game is changed. *)
Definition handle_input_sends (game : Game) (playerId : nat) (m : Move)
    : list Message :=
  let letter := player_int_to_char (Z.of_nat playerId) in
  match m with
  | MsgWild => [TookWild letter]
  | MsgTake tokens =>
      if negb (is_valid_token_take game tokens) then []
      else [Took letter (printed NUM_COLOURS tokens)]
  | MsgPurchase cardId tokens =>
      if (cardId <? 0) || (cardId >=? cardsFacedUp game)
         || negb (can_tokens_buy_card game playerId (Z.to_nat cardId) tokens)
      then []
      else
        Purchased letter cardId (printed TOKEN_SLOTS tokens)
        :: take_card_from_deck_sends
             (player_purchased_card game playerId (Z.to_nat cardId) tokens)
  end.

End HubSends.

Module PlayerProcess.
Import Game GameLib HubSends.

(** The handlers of player.c: [None] is [COMMUNICATION_ERROR], [Some] is
    [NORMAL] with the game as the handler leaves it. *)

Definition create_card (colour : ascii) (value : Z) (price : list Z)
    : option Card :=
  match get_card_colour colour with
  | INVALID_COLOUR => None
  | discount => Some (mkCard discount value price)
  end.

Definition handle_newcard (game : Game) (colour : ascii) (value : Z)
    (price : list Z) : option Game :=
  match create_card colour value price with
  | None => None
  | Some card =>
      if cardsFacedUp game =? Z.of_nat MAX_CARDS_ON_BOARD then None
      else Some (add_card_to_board game card)
  end.

Definition handle_card_purchased (game : Game) (playerId : Z)
    (cardNumber : Z) (tokens : list Z) : option Game :=
  if (cardNumber <? 0) || (cardNumber >=? cardsFacedUp game)
     || negb (is_valid_player_char playerId (numPlayers game))
  then None
  else Some (player_purchased_card game
               (Z.to_nat (player_char_to_int playerId))
               (Z.to_nat cardNumber) tokens).

Definition handle_wild_take (game : Game) (playerId : Z) : option Game :=
  if negb (is_valid_player_char playerId (numPlayers game)) then None
  else Some (player_took_wild game (Z.to_nat (player_char_to_int playerId))).

Definition handle_token_take (game : Game) (player : Z) (tokens : list Z)
    : option Game :=
  if negb (is_valid_player_char player (numPlayers game)) then None
  else Some (player_took_tokens game
               (Z.to_nat (player_char_to_int player)) tokens).

Definition handle_initial_tokens (game : Game) (initialTokens : Z)
    : option Game :=
  if initialTokens <? 0 then None
  else Some (set_initial_game_tokens game initialTokens).

Definition handle_input (game : Game) (input : Message) : option Game :=
  match input with
  | Tokens initialTokens => handle_initial_tokens game initialTokens
  | NewCard colour value price => handle_newcard game colour value price
  | Purchased player cardNumber tokens =>
      handle_card_purchased game player cardNumber tokens
  | Took player tokens => handle_token_take game player tokens
  | TookWild player => handle_wild_take game player
  end.

(** [run_game_loop] over the lines that arrive: it stops at the first
    line that is not handled with [NORMAL]. *)
Fixpoint run_game_loop (game : Game) (inputs : list Message)
    : option Game :=
  match inputs with
  | [] => Some game
  | input :: inputs =>
      match handle_input game input with
      | None => None
      | Some game => run_game_loop game inputs
      end
  end.

End PlayerProcess.

(** ** Part VII: ass4/server.c, connections

    What a connection thread does with the lines of its client, from
    [authenticate_connection] to the lobby or the game it leads to.  A
    line is the list of bytes [read_line] returns. *)

Module Connections.
Import Rafiki.

(** [strncmp(line, prefix, strlen(prefix)) == 0]. *)
Fixpoint starts_with (prefix line : list ascii) : bool :=
  match prefix, line with
  | [], _ => true
  | p :: prefix, c :: line => Ascii.eqb p c && starts_with prefix line
  | _ :: _, [] => false
  end.

Definition str (line : list ascii) : string := string_of_list_ascii line.

Inductive AuthStatus : Type := NEW | RECONNECT | SCORES | INVALID_AUTH.

(** [authenticate_connection]: the key has been loaded before the
    server accepts a connection. *)
Definition authenticate_connection (server : Server) (fromClient : FILE)
    : AuthStatus * FILE :=
  let '(n, line, fromClient) := read_line fromClient in
  if n <=? 0 then (INVALID_AUTH, fromClient)
  else
    let serverKey := str (default [] (key server)) in
    let res :=
      if starts_with (list_ascii_of_string "play") line then
        if strcmp (str (drop 4 line)) serverKey =? 0 then NEW
        else INVALID_AUTH
      else if starts_with (list_ascii_of_string "reconnect") line then
        if strcmp (str (drop 9 line)) serverKey =? 0 then RECONNECT
        else INVALID_AUTH
      else if strcmp (str line) "scores" =? 0 then SCORES
      else INVALID_AUTH in
    (res, fromClient).



(** The first line [game_thread] sends to the player in seat [i]. *)
Definition rid_message (game : Game.t) (i : nat) : string :=
  "rid" +:+ Game.name game +:+ "," +:+ pretty (counter (Game.data game))
  +:+ "," +:+ pretty (Z.of_nat i) +:+ String newline EmptyString.

(** [find_open_game]: the first game of that name and counter that is
    not finished, or [-1]. *)
Fixpoint find_open_loop (games : list Game.t) (gameName : string)
    (gameCounter : Z) (gameId : Z) : Z :=
  match games with
  | [] => -1
  | game :: games =>
      if (strcmp (Game.name game) gameName =? 0)
         && (counter (Game.data game) =? gameCounter)
         && negb (finished (Game.data game))
      then gameId
      else find_open_loop games gameName gameCounter (gameId + 1)
  end.

Definition find_open_game (server : Server) (gameName : string)
    (gameCounter : Z) : Z :=
  find_open_loop (games server) gameName gameCounter 0.

Record ReconnectId : Type := mkReconnectId {
  name : string;
  gameCounter : Z;
  playerId : Z
}.

(** The loop that copies the game name up to the first comma. *)
Fixpoint name_loop (rid : list ascii) : list ascii :=
  match rid with
  | [] => []
  | c :: rid => if Ascii.eqb c ","%char then [] else c :: name_loop rid
  end.

(** [get_and_parse_rid].  When the line holds no comma the C code scans
    from the byte after the end of the line; [beyond] is what lies
    there. *)
Definition get_and_parse_rid (fromClient : FILE) (beyond : list ascii)
    : option ReconnectId :=
  let '(n, ridMessage, fromClient) := read_line fromClient in
  if n <=? 0 then None
  else if negb (starts_with (list_ascii_of_string "rid") ridMessage)
          || (length ridMessage =? 3)%nat
  then None
  else
    let rid := drop 3 ridMessage in
    let gameName := name_loop rid in
    let rest :=
      match drop (length gameName) rid with
      | _ :: rest => rest
      | [] => beyond
      end in
    let converted := scan_ints 2 rest in
    let result := sscanf_result rest converted in
    let gc := converted !!! 0%nat in
    let playerId := converted !!! 1%nat in
    if negb (result =? 2) || (playerId >=? MAX_PLAYERS) || (playerId <? 0)
    then None
    else Some (mkReconnectId (str gameName) gc playerId).

#[global] Instance Game_t_inhabited : Inhabited Game.t :=
  populate (Game.mk EmptyString [] [] [] 0 [] 0 (mkGameData false 0 0 0)).

(** [reconnect_game] up to its wait for the game thread: the game and
    the seat the client is let back to, or [None] when it is told no. *)
Definition reconnect_game (server : Server) (fromClient : FILE)
    (beyond : list ascii) : option (nat * Z) :=
  match get_and_parse_rid fromClient beyond with
  | None => None
  | Some rid =>
      let gameId := find_open_game server (name rid) (gameCounter rid) in
      if (gameId =? -1)
         || (playerId rid
             >=? Z.of_nat (length (Game.players
                                     (games server !!! Z.to_nat gameId))))
      then None
      else Some (Z.to_nat gameId, playerId rid)
  end.

End Connections.

(** ** <limits.h> *)

Module Limits.

(** An [int] has 32 bits.  The model adds in [Z] and [scan_int] keeps the
    value of any numeral, so it agrees with the program as long as every
    number read, held or added up stays within these bounds; a sum of
    [int]s beyond them is undefined behaviour in C.  The properties that
    depend on it ask for the bounds. *)
Definition INT_MAX : Z := 2147483647.
Definition INT_MIN : Z := -2147483648.

Definition fits_int (v : Z) : Prop := INT_MIN <= v <= INT_MAX.

#[global] Instance fits_int_dec (v : Z) : Decision (fits_int v).
Proof. unfold fits_int. apply _. Defined.

End Limits.

(** ** Further quantities for the game rules *)

Module MoreRules.
Import Game.

(** What the loop of [player_took_tokens] does to one player. *)
Definition gain (toks : list Z) (p : Player) (cs : list nat) : Player :=
  foldl (fun p i => set_tokens p (<[i := tokens p !!! i + toks !!! i]>
                                    (tokens p))) p cs.

(** What the loop of [player_took_tokens] does to the piles. *)
Definition deplete (toks : list Z) (pl : list Z) (cs : list nat) : list Z :=
  foldl (fun pl i => <[i := pl !!! i - toks !!! i]> pl) pl cs.

(** No pile and no player holds a negative number of tokens. *)
Definition tokens_nonneg (game : Game) : Prop :=
  (forall c, (c < NUM_COLOURS)%nat -> 0 <= pile game !!! c) /\
  Forall (fun p => forall i, (i < TOKEN_SLOTS)%nat -> 0 <= tokens p !!! i)
         (players game).

(** The cards that lie face up, oldest first. *)
Definition face_up (game : Game) : list Card :=
  take (Z.to_nat (cardsFacedUp game)) (cards game).

(** The board array has its eight slots and the count is within them. *)
Definition board_ok (game : Game) : Prop :=
  length (cards game) = MAX_CARDS_ON_BOARD /\
  0 <= cardsFacedUp game <= Z.of_nat MAX_CARDS_ON_BOARD.

(** The hub's game and a player's copy show the same table: the same
    piles, players and face-up cards.  The slots of the board beyond the
    face-up cards are left out, and so is the deck, which only the hub
    holds. *)
Definition same_table (hub view : Game) : Prop :=
  numPlayers hub = numPlayers view /\ pile hub = pile view /\
  players hub = players view /\ cardsFacedUp hub = cardsFacedUp view /\
  face_up hub = face_up view.

(** A card as [create_card] makes it: four prices and a colour. *)
Definition card_ok (c : Card) : Prop :=
  length (price c) = NUM_COLOURS /\ discount c <> INVALID_COLOUR.

(** A move holds as many numbers as its message. *)
Definition move_sized (m : Hub.Move) : Prop :=
  match m with
  | Hub.MsgWild => True
  | Hub.MsgTake toks => length toks = NUM_COLOURS
  | Hub.MsgPurchase _ toks => length toks = TOKEN_SLOTS
  end.

(** What Ed's search has found after looking at the pairs [V] of an
    opponent and a face-up card: nothing, when no pair it saw is within
    the opponent's means and worth at least -1; or else a card some
    opponent it saw can afford, worth as much as any such card. *)
Definition identified (game : Game) (V : Z -> nat -> Prop) (c : Ed.Choice)
    : Prop :=
  (c = Ed.mkChoice (-1) (-1) /\
   forall p j, V p j -> can_player_afford_card game (Z.to_nat p) j = true ->
     value (cards game !!! j) < -1) \/
  (exists k, (k < Z.to_nat (cardsFacedUp game))%nat /\
     c = Ed.mkChoice (value (cards game !!! k)) (Z.of_nat k) /\
     -1 <= value (cards game !!! k) /\
     (exists p, V p k /\ can_player_afford_card game (Z.to_nat p) k = true) /\
     forall p j, V p j -> can_player_afford_card game (Z.to_nat p) j = true ->
       value (cards game !!! j) <= value (cards game !!! k)).

End MoreRules.

(** ** Further quantities for the server *)

Module MoreServerRules.
Import Rafiki Connections.

#[global] Instance ErrorCode_eq_dec : EqDecision ErrorCode.
Proof. solve_decision. Defined.

(** The invalid messages among the replies. *)
Definition strikes (replies : list Reply) : nat :=
  length (filter (fun r => err r = PROTOCOL_ERROR) replies).

(** A strike already held counts as one. *)
Definition held_strike (hadAttempt : bool) : nat :=
  if hadAttempt then 1%nat else 0%nat.

(** Every game carries one more than the number of games of its name
    that were started before it. *)
Definition numbered (games : list Game.t) : Prop :=
  forall i game, games !! i = Some game ->
    counter (Game.data game)
    = 1 + Z.of_nat (length (filter
                              (fun g => strcmp (Game.name game) (Game.name g)
                                        = 0)
                              (take i games))).



#[global] Instance entry_ok_dec (e : StatfileEntry.t) :
  Decision (ServerRules.entry_ok e).
Proof. unfold ServerRules.entry_ok. apply _. Defined.







(** The sums that [print_scores] takes stay within an [int], in whatever
    order they are taken: the sizes of the token counts of all players
    together, and the sizes of their points, come to at most
    [INT_MAX]. *)
Definition totals_fit_int (ps : list Player.t) : Prop :=
  Rules.Zsum ((fun p => Z.abs (Player.tokens p !!! 0%nat)
                        + Z.abs (Player.tokens p !!! 1%nat)
                        + Z.abs (Player.tokens p !!! 2%nat)
                        + Z.abs (Player.tokens p !!! 3%nat)
                        + Z.abs (Player.tokens p !!! 4%nat)) <$> ps)
  <= Limits.INT_MAX /\
  Rules.Zsum ((fun p => Z.abs (Player.score p)) <$> ps) <= Limits.INT_MAX.

(** No digit follows: where [scan_digits] stops. *)
Definition no_digit_ahead (t : list ascii) : Prop :=
  match t with
  | c :: _ => isdigit c = false
  | [] => True
  end.

End MoreServerRules.

(** ** Further states to try the properties on *)

Module MoreExamples.
Import Examples.

(** The two-player game of the specification once the cards are dealt. *)
Definition dealt_game : Game.Game :=
  Hub.start_new_game
    (let g := Game.setup_game 2 in
     Game.mkGame (Game.myId g) (Game.maxPoints g) (Game.numPlayers g)
       (Game.pile g) (Game.cardsFacedUp g) (Game.cards g) hub_deck
       (Game.players g))
    2 1.

(** The server once the full lobby has become a game. *)
Definition running_server : Rafiki.Server :=
  Eval vm_compute in Rafiki.start_game lobby_server 0 0.

Definition running_game : Rafiki.Game.t :=
  Eval vm_compute in Rafiki.games running_server !!! 0%nat.

(** A server that holds the key "secret". *)
Definition keyed_server : Rafiki.Server :=
  Rafiki.set_key Rafiki.setup_server_struct (ServerRules.bytes "secret").



End MoreExamples.

(** * Properties *)

Section GameRules.
Import Game Hub Rules.

Lemma Zsum_shortfall_nonneg card player cs :
  0 <= Zsum (shortfall card player <$> cs).
Proof.
  induction cs as [|c cs IH]; csimpl; [lia|].
  unfold shortfall at 1. lia.
Qed.

Lemma afford_loop_spec card player cs used :
  0 <= used -> used <= tokens player !!! WILD ->
  afford_loop card player used cs = true <->
  used + Zsum (shortfall card player <$> cs) <= tokens player !!! WILD.
Proof.
  revert used. induction cs as [|c cs IH]; intros used Hu Hw; csimpl.
  - split; [lia|done].
  - pose proof (Zsum_shortfall_nonneg card player cs) as Hs.
    unfold shortfall at 1. unfold need.
    set (d := price card !!! c - discounts player !!! c).
    destruct (Z.ltb_spec d 0) as [Hd|Hd].
    + destruct (Z.geb_spec (tokens player !!! c) 0) as [Ht|Ht].
      * rewrite IH by lia. lia.
      * destruct (Z.gtb_spec (tokens player !!! WILD) 0) as [Hg|Hg];
        destruct (Z.geb_spec (tokens player !!! c
                              + (tokens player !!! WILD - used)) 0);
        simpl; rewrite ?IH by lia; split; intros; try lia; try done.
    + destruct (Z.geb_spec (tokens player !!! c) d) as [Ht|Ht].
      * rewrite IH by lia. lia.
      * destruct (Z.gtb_spec (tokens player !!! WILD) 0) as [Hg|Hg];
        destruct (Z.geb_spec (tokens player !!! c
                              + (tokens player !!! WILD - used)) d);
        simpl; rewrite ?IH by lia; split; intros; try lia; try done.
Qed.

Lemma choose_step_spec card player dest c :
  (c < WILD)%nat -> length dest = TOKEN_SLOTS ->
  length (choose_step card player dest c) = TOKEN_SLOTS /\
  choose_step card player dest c !!! WILD
    = dest !!! WILD + shortfall card player c /\
  choose_step card player dest c !!! c
    = Z.min (need card player c) (tokens player !!! c) /\
  (forall c', c' <> c -> c' <> WILD ->
     choose_step card player dest c !!! c' = dest !!! c').
Proof.
  intros Hc Hlen. unfold choose_step, shortfall, need, WILD, TOKEN_SLOTS in *.
  set (d := price card !!! c - discounts player !!! c).
  destruct (Z.ltb_spec d 0) as [Hd|Hd];
    (match goal with |- context [?a >? ?b] =>
       destruct (Z.gtb_spec a b) as [Ht|Ht] end);
    rewrite ?length_insert;
    (split; [done|]);
    (split; [rewrite ?(list_lookup_total_insert_ne _ c 4%nat) by lia;
             rewrite ?list_lookup_total_insert_eq by lia; lia|]);
    (split; [rewrite list_lookup_total_insert_eq
               by (rewrite ?length_insert; lia); lia|]);
    intros c' H1 H2;
    rewrite !list_lookup_total_insert_ne by done; done.
Qed.

Lemma foldl_choose_step_spec card player cs : forall dest,
  NoDup cs -> (forall c, c ∈ cs -> (c < WILD)%nat) ->
  length dest = TOKEN_SLOTS ->
  let r := foldl (choose_step card player) dest cs in
  length r = TOKEN_SLOTS /\
  r !!! WILD = dest !!! WILD + Zsum (shortfall card player <$> cs) /\
  (forall c, c ∈ cs ->
     r !!! c = Z.min (need card player c) (tokens player !!! c)) /\
  (forall c, c ∉ cs -> c <> WILD -> r !!! c = dest !!! c).
Proof.
  induction cs as [|c cs IH]; intros dest Hnd Hlt Hlen; csimpl.
  - split; [done|]. split; [lia|]. split; [|done].
    intros c Hc. by apply elem_of_nil in Hc.
  - apply NoDup_cons in Hnd as [Hc Hnd].
    destruct (choose_step_spec card player dest c) as (L & W & C & O);
      [apply Hlt; left|done|].
    destruct (IH (choose_step card player dest c)) as (L' & W' & C' & O');
      [done|intros; apply Hlt; by right|done|].
    split; [|split; [|split]].
    + done.
    + rewrite W', W. lia.
    + intros c' [->|Hin]%elem_of_cons; [|by apply C'].
      rewrite O'; [done|done|]. specialize (Hlt c). unfold WILD in *.
      intros ->. assert (4 < 4)%nat by (apply Hlt; left). lia.
    + intros c' [Hne Hnin]%not_elem_of_cons Hw. rewrite O' by done.
      by apply O.
Qed.

Lemma choose_tokens_to_buy_card_spec game playerId cardId dest c :
  length dest = TOKEN_SLOTS -> (c < TOKEN_SLOTS)%nat ->
  choose_tokens_to_buy_card game playerId cardId dest !!! c
  = spend (cards game !!! cardId) (players game !!! playerId) c.
Proof.
  intros Hlen Hc. unfold choose_tokens_to_buy_card, spend.
  set (card := cards game !!! cardId).
  set (player := players game !!! playerId).
  destruct (foldl_choose_step_spec card player (seq 0 NUM_COLOURS)
              (<[WILD:=0]> dest)) as (L & W & C & O).
  - apply NoDup_seq.
  - intros c' Hc'%elem_of_seq. unfold WILD, NUM_COLOURS in *. lia.
  - by rewrite length_insert.
  - case_decide as Hw.
    + subst c. rewrite W, list_lookup_total_insert_eq; [done|].
      rewrite Hlen. unfold WILD, TOKEN_SLOTS. lia.
    + apply C. apply elem_of_seq. unfold WILD, NUM_COLOURS, TOKEN_SLOTS in *.
      lia.
Qed.

(** C1. With a non-negative wild count, the player can afford the card
    exactly when the shortfalls of the four colours sum to at most the
    player's wilds, and a purchase tuple passes [can_tokens_buy_card]
    exactly when the card is affordable and every slot of the tuple is the
    canonical [spend]: [min(need, tokens)] for a colour, the sum of the
    shortfalls for the wild slot. *)
Theorem can_tokens_buy_card_iff_canonical
    (game : Game) (playerId cardId : nat) (toks : list Z) :
  let card := cards game !!! cardId in
  let player := players game !!! playerId in
  0 <= tokens player !!! WILD ->
  (can_player_afford_card game playerId cardId = true <->
   wilds_required card player <= tokens player !!! WILD) /\
  (can_tokens_buy_card game playerId cardId toks = true <->
   wilds_required card player <= tokens player !!! WILD /\
   (forall c, (c < NUM_COLOURS)%nat ->
      toks !!! c = Z.min (need card player c) (tokens player !!! c)) /\
   toks !!! WILD = wilds_required card player).
Proof.
  intros card player Hw.
  assert (Haff : can_player_afford_card game playerId cardId = true <->
                 wilds_required card player <= tokens player !!! WILD).
  { unfold can_player_afford_card, wilds_required.
    fold card player. rewrite afford_loop_spec by lia. lia. }
  split; [done|].
  unfold can_tokens_buy_card.
  destruct (can_player_afford_card game playerId cardId) eqn:E; cbn [negb].
  - rewrite forallb_forall.
    assert (Hsp : forall c, (c < TOKEN_SLOTS)%nat ->
              choose_tokens_to_buy_card game playerId cardId
                (replicate TOKEN_SLOTS 0) !!! c = spend card player c).
    { intros c Hc. apply choose_tokens_to_buy_card_spec;
        [by rewrite length_replicate|done]. }
    split.
    + intros H. split; [by apply Haff|].
      assert (Hall : forall c, (c < TOKEN_SLOTS)%nat ->
                toks !!! c = spend card player c).
      { intros c Hc. rewrite <- Hsp by done. symmetry. apply Z.eqb_eq.
        apply H. apply in_seq. lia. }
      split.
      * intros c Hc. rewrite Hall by (unfold NUM_COLOURS, TOKEN_SLOTS in *; lia).
        unfold spend. case_decide; [|done].
        unfold WILD, NUM_COLOURS in *. lia.
      * rewrite Hall by (unfold WILD, TOKEN_SLOTS; lia).
        unfold spend. by case_decide.
    + intros (_ & Hc & HW) c Hin%in_seq. apply Z.eqb_eq.
      rewrite Hsp by lia. unfold spend. case_decide as Hd.
      * by subst c.
      * symmetry. apply Hc. unfold WILD, NUM_COLOURS, TOKEN_SLOTS in *. lia.
  - split; [done|]. intros (H & _). apply Haff in H. done.
Qed.

Lemma take_loop_spec game toks cs : forall numTaken,
  take_loop game toks numTaken cs = true <->
  (forall c, c ∈ cs ->
     (toks !!! c = 0 \/ toks !!! c = 1) /\
     (toks !!! c = 1 -> 0 < pile game !!! c)) /\
  numTaken + Z.of_nat (length (filter (fun c => toks !!! c = 1) cs))
  = TOKENS_PER_TAKE.
Proof.
  induction cs as [|c cs IH]; intros numTaken; cbn [take_loop].
  - rewrite Z.eqb_eq, filter_nil. simpl. split.
    + intros ->. split; [|lia]. intros c Hc. by apply elem_of_nil in Hc.
    + intros [_ H]. lia.
  - rewrite filter_cons.
    destruct (Z.eqb_spec (toks !!! c) 1) as [H1|H1].
    + destruct (Z.gtb_spec (pile game !!! c) 0) as [Hp|Hp]; simpl.
      * rewrite IH. rewrite decide_True by done. simpl length.
        split; intros [Hall Hn]; (split; [|lia]).
        -- intros c' [->|Hin]%elem_of_cons; [|by apply Hall].
           split; [by right|lia].
        -- intros c' Hin. apply Hall. by right.
      * rewrite H1. simpl. split; [done|]. intros [Hall _].
        destruct (Hall c) as [_ Hpos]; [by left|]. specialize (Hpos H1). lia.
    + simpl. rewrite decide_False by done.
      destruct (Z.eqb_spec (toks !!! c) 0) as [H0|H0]; simpl.
      * rewrite IH. split; intros [Hall Hn]; (split; [|lia]).
        -- intros c' [->|Hin]%elem_of_cons; [|by apply Hall].
           split; [by left|done].
        -- intros c' Hin. apply Hall. by right.
      * split; [done|]. intros [Hall _].
        destruct (Hall c) as [[?|?] _]; [by left|done|done].
Qed.

(** C2. A take request passes [is_valid_token_take] exactly when each of
    its four entries is 0 or 1, exactly three of them are 1, and every
    entry that is 1 names a non-empty pile. *)
Theorem is_valid_token_take_iff (game : Game) (toks : list Z) :
  is_valid_token_take game toks = true <->
  (forall c, (c < NUM_COLOURS)%nat -> toks !!! c = 0 \/ toks !!! c = 1) /\
  ones toks = 3%nat /\
  (forall c, (c < NUM_COLOURS)%nat -> toks !!! c = 1 -> 0 < pile game !!! c).
Proof.
  unfold is_valid_token_take, ones. rewrite take_loop_spec.
  unfold TOKENS_PER_TAKE. split.
  - intros [Hall Hn]. split; [|split; [lia|]].
    + intros c Hc. apply Hall. apply elem_of_seq. lia.
    + intros c Hc. apply Hall. apply elem_of_seq. lia.
  - intros (H01 & Hn & Hp). split; [|lia].
    intros c Hc%elem_of_seq. split; [apply H01|apply Hp]; lia.
Qed.

(** Changing slot [i] of one player's tokens moves the total held in slot
    [i] by the same amount and leaves the other slots alone. *)
Lemma Zsum_alter_tokens (f : Z -> Z) i c ps : forall pid,
  (pid < length ps)%nat ->
  Forall (fun p => length (tokens p) = TOKEN_SLOTS) ps ->
  (i < TOKEN_SLOTS)%nat ->
  Zsum ((fun p => tokens p !!! c) <$>
        alter (fun p => set_tokens p (<[i := f (tokens p !!! i)]> (tokens p)))
              pid ps)
  = Zsum ((fun p => tokens p !!! c) <$> ps)
    + (if decide (c = i)
       then f (tokens (ps !!! pid) !!! i) - tokens (ps !!! pid) !!! i
       else 0).
Proof.
  induction ps as [|p ps IH]; intros pid Hpid Hall Hi; [simpl in Hpid; lia|].
  apply Forall_cons in Hall as [Hp Hall].
  destruct pid as [|pid]; csimpl.
  - case_decide as Hc.
    + subst c. rewrite list_lookup_total_insert_eq by lia. lia.
    + rewrite list_lookup_total_insert_ne by done. lia.
  - rewrite IH by (simpl in Hpid; try done; lia). lia.
Qed.

Lemma alter_tokens_sized (g : list Z -> list Z) pid ps :
  (forall t, length (g t) = length t) ->
  Forall (fun p => length (tokens p) = TOKEN_SLOTS) ps ->
  Forall (fun p => length (tokens p) = TOKEN_SLOTS)
         (alter (fun p => set_tokens p (g (tokens p))) pid ps).
Proof.
  intros Hg Hall. revert pid.
  induction Hall as [|p ps Hp Hall IH]; intros [|pid]; simpl;
    constructor; simpl; rewrite ?Hg; auto; apply IH.
Qed.

Lemma took_step_inv n init pid toks game i :
  well_sized n game -> conserved init game ->
  (pid < n)%nat -> (i < NUM_COLOURS)%nat ->
  well_sized n (took_step pid toks game i) /\
  conserved init (took_step pid toks game i).
Proof.
  intros (Hpile & Hlen & Hall) Hcons Hpid Hi.
  unfold NUM_COLOURS, TOKEN_SLOTS in *. split.
  - unfold well_sized, took_step. simpl.
    rewrite length_insert, length_alter. split; [done|split; [done|]].
    apply (alter_tokens_sized
             (fun t => <[i := t !!! i + toks !!! i]> t)); [|done].
    intros t. apply length_insert.
  - intros c Hc. unfold held, took_step. simpl.
    rewrite (Zsum_alter_tokens (fun x => x + toks !!! i))
      by (unfold TOKEN_SLOTS; first [done | lia]).
    specialize (Hcons c Hc). unfold held in Hcons.
    case_decide as Hd.
    + subst c. rewrite list_lookup_total_insert_eq by lia. lia.
    + rewrite list_lookup_total_insert_ne by done. lia.
Qed.

Lemma purchase_step_inv n init pid toks game i :
  well_sized n game -> conserved init game ->
  (pid < n)%nat -> (i < TOKEN_SLOTS)%nat ->
  well_sized n (purchase_step pid toks game i) /\
  conserved init (purchase_step pid toks game i).
Proof.
  intros (Hpile & Hlen & Hall) Hcons Hpid Hi.
  unfold NUM_COLOURS, TOKEN_SLOTS, WILD in *. unfold purchase_step, WILD.
  assert (Hall' : Forall (fun p => length (tokens p) = TOKEN_SLOTS)
            (alter (fun p => set_tokens p
                      (<[i := tokens p !!! i - toks !!! i]> (tokens p)))
                   pid (players game))).
  { apply (alter_tokens_sized
             (fun t => <[i := t !!! i - toks !!! i]> t)); [|done].
    intros t. apply length_insert. }
  case_decide as Hw; (split; [unfold well_sized; simpl;
    rewrite ?length_insert, length_alter; done|]).
  - intros c Hc. unfold held. simpl.
    rewrite (Zsum_alter_tokens (fun x => x - toks !!! i))
      by (unfold TOKEN_SLOTS; first [done | lia]).
    specialize (Hcons c Hc). unfold held in Hcons.
    case_decide as Hd.
    + subst c. rewrite list_lookup_total_insert_eq by lia. lia.
    + rewrite list_lookup_total_insert_ne by done. lia.
  - intros c Hc. unfold held. simpl.
    rewrite (Zsum_alter_tokens (fun x => x - toks !!! i))
      by (unfold TOKEN_SLOTS; first [done | lia]).
    specialize (Hcons c Hc). unfold held in Hcons.
    unfold NUM_COLOURS in Hc.
    rewrite decide_False by lia. lia.
Qed.

Lemma foldl_step_inv (step : Game -> nat -> Game) (P : Game -> Prop)
    (bound : nat) :
  (forall g i, P g -> (i < bound)%nat -> P (step g i)) ->
  forall cs g, Forall (fun i => (i < bound)%nat) cs -> P g ->
  P (foldl step g cs).
Proof.
  intros Hstep cs. induction cs as [|c cs IH]; intros g Hcs Hg; [done|].
  apply Forall_cons in Hcs as [Hc Hcs]. simpl. apply IH; auto.
Qed.

Lemma Forall_seq_lt n : Forall (fun i => (i < n)%nat) (seq 0 n).
Proof. apply Forall_forall. intros i Hi%elem_of_seq. lia. Qed.

Lemma player_took_tokens_inv n init pid toks game :
  well_sized n game -> conserved init game -> (pid < n)%nat ->
  well_sized n (player_took_tokens game pid toks) /\
  conserved init (player_took_tokens game pid toks).
Proof.
  intros Hs Hc Hpid. unfold player_took_tokens.
  apply (foldl_step_inv (took_step pid toks)
           (fun g => well_sized n g /\ conserved init g) NUM_COLOURS);
    [|apply Forall_seq_lt|done].
  intros g i [? ?] Hi. by apply took_step_inv.
Qed.

Lemma fmap_alter_same {B} (f : Player -> B) (h : Player -> Player)
    (pid : nat) (ps : list Player) :
  (forall p, f (h p) = f p) -> f <$> alter h pid ps = f <$> ps.
Proof.
  intros Hf. revert pid.
  induction ps as [|p ps IH]; intros [|pid]; csimpl; rewrite ?Hf, ?IH; done.
Qed.

(** Both predicates only look at the piles and at the players' tokens. *)
Lemma inv_transfer n init g g' :
  pile g' = pile g -> tokens <$> players g' = tokens <$> players g ->
  well_sized n g /\ conserved init g ->
  well_sized n g' /\ conserved init g'.
Proof.
  intros Hp Ht [(H1 & H2 & H3) Hc]. split.
  - unfold well_sized. rewrite Hp. split; [done|]. split.
    + rewrite <- H2, <- (length_fmap tokens), Ht. apply length_fmap.
    + assert (HF : Forall (fun t : list Z => length t = TOKEN_SLOTS)
                     (tokens <$> players g')).
      { rewrite Ht. apply Forall_fmap. exact H3. }
      apply Forall_fmap in HF. exact HF.
  - intros c Hlt. specialize (Hc c Hlt). unfold held in *. rewrite Hp.
    assert (E : forall ps : list Player,
              (fun p => tokens p !!! c) <$> ps
              = (fun t : list Z => t !!! c) <$> (tokens <$> ps)).
    { intros ps. by rewrite <- list_fmap_compose. }
    rewrite E, Ht, <- E. done.
Qed.

Lemma take_card_from_deck_inv n init g :
  well_sized n g /\ conserved init g ->
  well_sized n (take_card_from_deck g) /\
  conserved init (take_card_from_deck g).
Proof.
  apply inv_transfer; unfold take_card_from_deck;
    case_decide; try done; by destruct (topOfDeck g).
Qed.

Lemma player_purchased_card_inv n init pid cardId toks game :
  well_sized n game -> conserved init game -> (pid < n)%nat ->
  well_sized n (player_purchased_card game pid cardId toks) /\
  conserved init (player_purchased_card game pid cardId toks).
Proof.
  intros Hs Hc Hpid. unfold player_purchased_card.
  set (card := cards game !!! cardId).
  set (g1 := take_card_from_board game cardId).
  set (g2 := foldl (purchase_step pid toks) g1 (seq 0 TOKEN_SLOTS)).
  assert (H2 : well_sized n g2 /\ conserved init g2).
  { apply (foldl_step_inv (purchase_step pid toks)
             (fun g => well_sized n g /\ conserved init g) TOKEN_SLOTS);
      [|apply Forall_seq_lt|].
    - intros g i [? ?] Hi. by apply purchase_step_inv.
    - by apply (inv_transfer n init game g1). }
  clearbody g2. revert H2. apply inv_transfer; [done|]. simpl.
  rewrite !fmap_alter_same; done.
Qed.

Lemma player_took_wild_inv n init pid game :
  well_sized n game -> conserved init game -> (pid < n)%nat ->
  (well_sized n (player_took_wild game pid) /\
   conserved init (player_took_wild game pid)) /\
  held (player_took_wild game pid) WILD = held game WILD + 1.
Proof.
  intros (Hpile & Hlen & Hall) Hcons Hpid. unfold player_took_wild.
  split; [split|].
  - unfold well_sized. simpl. rewrite length_alter.
    split; [done|split; [done|]].
    apply (alter_tokens_sized (fun t => <[WILD := t !!! WILD + 1]> t));
      [|done].
    intros t. apply length_insert.
  - intros c Hc. unfold held. simpl.
    rewrite (Zsum_alter_tokens (fun x => x + 1))
      by (unfold TOKEN_SLOTS, WILD; first [done | lia]).
    specialize (Hcons c Hc). unfold held in Hcons.
    unfold NUM_COLOURS, WILD in *. rewrite decide_False by lia. lia.
  - unfold held. simpl.
    rewrite (Zsum_alter_tokens (fun x => x + 1))
      by (unfold TOKEN_SLOTS, WILD; first [done | lia]).
    rewrite decide_True by done. lia.
Qed.

Lemma handle_input_inv n init pid m game game' :
  well_sized n game -> conserved init game -> (pid < n)%nat ->
  handle_input game pid m = Some game' ->
  well_sized n game' /\ conserved init game'.
Proof.
  intros Hs Hc Hpid. destruct m as [|toks|cardId toks]; simpl.
  - intros [= <-]. by apply player_took_wild_inv.
  - destruct (is_valid_token_take game toks); simpl; [|done].
    intros [= <-]. by apply player_took_tokens_inv.
  - destruct (_ || _); [done|]. intros [= <-].
    apply take_card_from_deck_inv. by apply player_purchased_card_inv.
Qed.

Lemma set_initial_game_tokens_inv k init g :
  length (pile g) = NUM_COLOURS ->
  players g = replicate k (mkPlayer 0 (replicate NUM_COLOURS 0)
                             (replicate TOKEN_SLOTS 0)) ->
  well_sized k (set_initial_game_tokens g init) /\
  conserved init (set_initial_game_tokens g init).
Proof.
  destruct g as [? ? ? pl ? ? ? ps]. cbn [pile players]. intros Hl ->.
  destruct pl as [|a [|b [|c [|d [|e pl]]]]]; try done.
  set (p0 := mkPlayer 0 (replicate NUM_COLOURS 0) (replicate TOKEN_SLOTS 0)).
  split.
  - unfold well_sized. cbn. split; [done|]. split.
    + apply length_replicate.
    + apply Forall_replicate. done.
  - intros i Hi. unfold held. cbn [players pile set_initial_game_tokens].
    unfold NUM_COLOURS in Hi.
    assert (E : forall j, Zsum ((fun p => tokens p !!! i) <$> replicate j p0)
                          = 0).
    { intros j. induction j as [|j IH]; csimpl; [done|]. rewrite IH.
      destruct i as [|[|[|[|i]]]]; simpl; lia. }
    cbn. fold p0. rewrite E.
    destruct i as [|[|[|[|i]]]]; simpl; lia.
Qed.

Lemma start_new_game_inv n init deck maxPoints :
  let g := setup_game n in
  let g0 := start_new_game
              (mkGame (myId g) (Game.maxPoints g) (numPlayers g) (pile g)
                 (cardsFacedUp g) (cards g) deck (players g))
              init maxPoints in
  well_sized (Z.to_nat n) g0 /\ conserved init g0.
Proof.
  intros g g0. unfold g0, start_new_game.
  generalize MAX_CARDS_ON_BOARD. intros k.
  induction k as [|k IH]; cbn [Nat.iter nat_rect];
    [|by apply take_card_from_deck_inv].
  by apply set_initial_game_tokens_inv.
Qed.

Lemma reachable_inv n init game :
  reachable n init game ->
  well_sized (Z.to_nat n) game /\ conserved init game.
Proof.
  induction 1 as [deck maxPoints|game pid m game' Hr [IHs IHc] Hpid Hm].
  - apply start_new_game_inv.
  - apply (handle_input_inv _ _ pid m game); [done|done|lia|done].
Qed.

(** C3. In every state the hub can reach, each non-wild pile plus the
    tokens of that colour held by the players equals [initialTokens]; a
    validated take, a validated purchase and a wild take each keep it so;
    and a wild take raises the number of wilds held by one, for which no
    pile on the board accounts. *)
Theorem token_conservation (n initialTokens : Z) (game : Game) :
  reachable n initialTokens game ->
  conserved initialTokens game /\
  (forall playerId toks,
     Z.of_nat playerId < n -> is_valid_token_take game toks = true ->
     conserved initialTokens (player_took_tokens game playerId toks)) /\
  (forall playerId cardId toks,
     Z.of_nat playerId < n -> (Z.of_nat cardId < cardsFacedUp game) ->
     can_tokens_buy_card game playerId cardId toks = true ->
     conserved initialTokens
       (player_purchased_card game playerId cardId toks)) /\
  (forall playerId,
     Z.of_nat playerId < n ->
     conserved initialTokens (player_took_wild game playerId) /\
     held (player_took_wild game playerId) WILD = held game WILD + 1 /\
     length (pile (player_took_wild game playerId)) = NUM_COLOURS).
Proof.
  intros Hr. destruct (reachable_inv _ _ _ Hr) as [Hs Hc].
  split; [done|]. split; [|split].
  - intros pid toks Hpid _.
    apply (player_took_tokens_inv (Z.to_nat n)); [done|done|lia].
  - intros pid cardId toks Hpid _ _.
    apply (player_purchased_card_inv (Z.to_nat n)); [done|done|lia].
  - intros pid Hpid.
    destruct (player_took_wild_inv (Z.to_nat n) initialTokens pid game)
      as [[Hs' Hc'] Hw]; [done|done|lia|].
    split; [done|]. split; [done|]. apply Hs'.
Qed.

(** The shifting loop of [take_card_from_board], started at slot [a] with
    [k] iterations left on a board of [n] cards. *)
Lemma shift_loop_spec (n : nat) : forall k a (cs : list Card),
  (a + k = n)%nat -> (n <= length cs)%nat ->
  let r := foldl (fun cs i => if decide (i + 1 < n)%nat
                              then <[i := cs !!! (i + 1)%nat]> cs else cs)
                 cs (seq a k) in
  length r = length cs /\
  (forall j, (j < a)%nat -> r !!! j = cs !!! j) /\
  (forall j, (a <= j)%nat -> (j + 1 < n)%nat -> r !!! j = cs !!! (j + 1)%nat).
Proof.
  induction k as [|k IH]; intros a cs Hak Hn; cbn [seq foldl].
  - split; [done|]. split; [done|]. intros j H1 H2. lia.
  - set (cs1 := if decide (a + 1 < n)%nat
                then <[a := cs !!! (a + 1)%nat]> cs else cs).
    assert (Hlen : length cs1 = length cs).
    { unfold cs1. case_decide; [apply length_insert|done]. }
    destruct (IH (S a) cs1) as (L & Lo & Hi); [lia|lia|].
    split; [lia|]. split.
    + intros j Hj. rewrite Lo by lia. unfold cs1.
      case_decide; [|done]. apply list_lookup_total_insert_ne. lia.
    + intros j Hj Hjn. destruct (decide (j = a)) as [->|Hne].
      * rewrite Lo by lia. unfold cs1. rewrite decide_True by done.
        apply list_lookup_total_insert_eq. lia.
      * rewrite Hi by lia. unfold cs1.
        case_decide; [|done]. apply list_lookup_total_insert_ne. lia.
Qed.

Lemma foldl_purchase_step pid toks cs : forall game,
  let g := foldl (purchase_step pid toks) game cs in
  players g = alter (fun p => pay toks p cs) pid (players game) /\
  pile g = refund toks (pile game) cs /\
  cards g = cards game /\ cardsFacedUp g = cardsFacedUp game.
Proof.
  induction cs as [|c cs IH]; intros game; cbn [foldl].
  - split; [|done]. symmetry. by apply list_alter_id.
  - destruct (IH (purchase_step pid toks game c)) as (P & L & C & F).
    rewrite P, L, C, F. unfold purchase_step.
    case_decide; cbn [players pile cards cardsFacedUp set_players set_pile];
      (split; [by rewrite list_alter_alter_eq|]);
      (split; [|done]); unfold refund; cbn [foldl];
      [rewrite decide_True by done|rewrite decide_False by tauto]; done.
Qed.

Lemma pay_spec toks p :
  length (tokens p) = TOKEN_SLOTS ->
  let p' := pay toks p (seq 0 TOKEN_SLOTS) in
  totalPoints p' = totalPoints p /\ discounts p' = discounts p /\
  length (tokens p') = TOKEN_SLOTS /\
  (forall i, (i < TOKEN_SLOTS)%nat ->
     tokens p' !!! i = tokens p !!! i - toks !!! i).
Proof.
  destruct p as [s d t]. cbn [tokens]. intros Hlen.
  destruct t as [|t0 [|t1 [|t2 [|t3 [|t4 [|t5 t]]]]]]; try done.
  cbn. split; [done|]. split; [done|]. split; [done|].
  intros i Hi. unfold TOKEN_SLOTS in Hi.
  destruct i as [|[|[|[|[|i]]]]]; cbn; first [done | lia].
Qed.

Lemma refund_spec toks pl :
  length pl = NUM_COLOURS ->
  let pl' := refund toks pl (seq 0 TOKEN_SLOTS) in
  length pl' = NUM_COLOURS /\
  (forall c, (c < NUM_COLOURS)%nat -> pl' !!! c = pl !!! c + toks !!! c).
Proof.
  intros Hlen.
  destruct pl as [|a [|b [|c [|d [|e pl]]]]]; try done.
  cbn. split; [done|].
  intros i Hi. unfold NUM_COLOURS in Hi.
  destruct i as [|[|[|[|i]]]]; cbn; first [done | lia].
Qed.

(** The state after [player_purchased_card], field by field. *)
Lemma player_purchased_card_fields game buyer cardId toks :
  let card := cards game !!! cardId in
  let g := player_purchased_card game buyer cardId toks in
  cardsFacedUp g = cardsFacedUp game - 1 /\
  cards g = cards (take_card_from_board game cardId) /\
  pile g = refund toks (pile game) (seq 0 TOKEN_SLOTS) /\
  players g =
    alter (fun p =>
             set_totalPoints
               (set_discounts (pay toks p (seq 0 TOKEN_SLOTS))
                  (<[colour_index (discount card) :=
                       discounts (pay toks p (seq 0 TOKEN_SLOTS))
                         !!! colour_index (discount card) + 1]>
                     (discounts (pay toks p (seq 0 TOKEN_SLOTS)))))
               (totalPoints (pay toks p (seq 0 TOKEN_SLOTS)) + value card))
          buyer (players game).
Proof.
  intros card g. subst g. unfold player_purchased_card. fold card.
  destruct (foldl_purchase_step buyer toks (seq 0 TOKEN_SLOTS)
              (take_card_from_board game cardId)) as (P & L & C & F).
  generalize dependent (foldl (purchase_step buyer toks)
                          (take_card_from_board game cardId)
                          (seq 0 TOKEN_SLOTS)).
  intros g2 P L C F. cbn [cardsFacedUp cards pile players set_players].
  rewrite P, L, C, F. split; [done|]. split; [done|]. split; [done|].
  by rewrite !list_alter_alter_eq.
Qed.

(** C4. Applying a purchase of the face-up card [cardId] removes that card
    and moves every later card one slot down (the count drops by one),
    returns each spent non-wild token to its pile (there is no pile for
    the wild slot), takes the spent tuple from the buyer's tokens, raises
    the buyer's discount in the card's colour by one and the buyer's
    points by the card's value, and leaves every other player as it
    was. *)
Theorem player_purchased_card_effect
    (n : nat) (game : Game) (buyer cardId : nat) (toks : list Z) :
  let card := cards game !!! cardId in
  let game' := player_purchased_card game buyer cardId toks in
  let before := players game !!! buyer in
  let after := players game' !!! buyer in
  well_sized n game -> board_sized game ->
  (buyer < n)%nat ->
  Z.of_nat cardId < cardsFacedUp game ->
  cardsFacedUp game <= Z.of_nat MAX_CARDS_ON_BOARD ->
  discount card <> INVALID_COLOUR ->
  (cardsFacedUp game' = cardsFacedUp game - 1 /\
   (forall j, (j < cardId)%nat -> cards game' !!! j = cards game !!! j) /\
   (forall j, (cardId <= j)%nat -> Z.of_nat j + 1 < cardsFacedUp game ->
      cards game' !!! j = cards game !!! (j + 1)%nat)) /\
  (length (pile game') = NUM_COLOURS /\
   forall c, (c < NUM_COLOURS)%nat ->
     pile game' !!! c = pile game !!! c + toks !!! c) /\
  ((forall i, (i < TOKEN_SLOTS)%nat ->
      tokens after !!! i = tokens before !!! i - toks !!! i) /\
   (discounts after !!! colour_index (discount card)
    = discounts before !!! colour_index (discount card) + 1) /\
   (forall c, c <> colour_index (discount card) ->
      discounts after !!! c = discounts before !!! c) /\
   totalPoints after = totalPoints before + value card) /\
  (length (players game') = length (players game) /\
   forall q, q <> buyer -> players game' !! q = players game !! q).
Proof.
  intros card game' before after (Hpile & Hlen & Htok) (Hcards & Hdisc)
    Hbuyer Hcard Hmax Hcol.
  destruct (player_purchased_card_fields game buyer cardId toks)
    as (F & C & L & P).
  fold card game' in F, C, L, P.
  assert (Hb : (buyer < length (players game))%nat) by lia.
  assert (Hbt : length (tokens before) = TOKEN_SLOTS).
  { unfold before. rewrite Forall_lookup in Htok.
    destruct (lookup_lt_is_Some_2 _ _ Hb) as [p Hp].
    rewrite (list_lookup_total_correct _ _ _ Hp). by apply (Htok buyer). }
  destruct (pay_spec toks before Hbt) as (Ps & Pd & Pl & Pt).
  destruct (refund_spec toks (pile game) Hpile) as (Rl & Rc).
  assert (Hafter : after =
    set_totalPoints
      (set_discounts (pay toks before (seq 0 TOKEN_SLOTS))
         (<[colour_index (discount card) :=
              discounts before !!! colour_index (discount card) + 1]>
            (discounts before)))
      (totalPoints before + value card)).
  { unfold after. rewrite P. rewrite list_lookup_total_alter_eq by done.
    fold before. by rewrite Ps, Pd. }
  assert (Hbd : length (discounts before) = NUM_COLOURS).
  { unfold before. rewrite Forall_lookup in Hdisc.
    destruct (lookup_lt_is_Some_2 _ _ Hb) as [p Hp].
    rewrite (list_lookup_total_correct _ _ _ Hp). by apply (Hdisc buyer). }
  clearbody after game' before card.
  split; [|split; [|split]].
  - rewrite F, C. split; [done|].
    unfold take_card_from_board, set_cards, set_cardsFacedUp. cbn [cards].
    unfold MAX_CARDS_ON_BOARD in *.
    destruct (shift_loop_spec (Z.to_nat (cardsFacedUp game))
                (Z.to_nat (cardsFacedUp game) - cardId) cardId (cards game))
      as (_ & Lo & Hi); [lia|lia|].
    split; [exact Lo|]. intros j H1 H2. apply Hi; lia.
  - rewrite L. done.
  - rewrite Hafter. unfold set_totalPoints, set_discounts.
    cbn [totalPoints discounts tokens]. split; [exact Pt|].
    assert (Hci : (colour_index (discount card) < NUM_COLOURS)%nat).
    { unfold NUM_COLOURS. destruct (discount card); simpl; try lia. done. }
    split; [apply list_lookup_total_insert_eq; lia|].
    split; [|done]. intros c Hc. by apply list_lookup_total_insert_ne.
  - rewrite P, length_alter. split; [done|].
    intros q Hq. by apply list_lookup_alter_ne.
Qed.

End GameRules.

Section ConfigurationFiles.
Import Rafiki ServerRules.

Lemma read_chars_spec rest : forall line k,
  read_chars rest = (line, k) ->
  (newline ∉ line) /\
  ((rest = line /\ k = length line) \/
   (exists after, rest = line ++ newline :: after /\ k = S (length line))).
Proof.
  induction rest as [|c rest IH]; intros line k; cbn [read_chars].
  - intros [= <- <-]. split; [apply not_elem_of_nil|]. by left.
  - destruct (Ascii.eqb_spec c newline) as [->|Hc].
    + intros [= <- <-]. split; [apply not_elem_of_nil|].
      right. by exists rest.
    + destruct (read_chars rest) as [line' k'] eqn:E.
      intros [= <- <-]. destruct (IH line' k' eq_refl) as [Hnl Hcase].
      split.
      * apply not_elem_of_cons. split; [congruence|done].
      * destruct Hcase as [[-> ->]|(after & -> & ->)]; [by left|].
        right. by exists after.
Qed.

Lemma fseek_set_nonneg bs q offset :
  0 <= offset -> fseek_set (mkFILE bs q) offset = mkFILE bs (Z.to_nat offset).
Proof.
  intros H. unfold fseek_set. cbn [content].
  by destruct (Z.ltb_spec offset 0); [lia|].
Qed.

Lemma does_file_end_newline_spec (file : FILE) :
  does_file_end_newline file
  = (bool_decide (last (content file) = Some newline), file).
Proof.
  destruct file as [bs p]. unfold does_file_end_newline, ftell, fseek_end.
  cbn [content pos].
  destruct (decide (bs = [])) as [->|Hne].
  - change (fseek_set (mkFILE [] (length [])) (Z.of_nat (length []) - 1))
      with (mkFILE [] 0).
    unfold fgetc. cbn [content pos]. change ([] !! 0%nat) with (@None ascii).
    cbn iota. rewrite fseek_set_nonneg by lia. by rewrite Nat2Z.id.
  - destruct (exists_last Hne) as (front & c & ->).
    rewrite last_snoc, length_app. cbn [length].
    rewrite (fseek_set_nonneg _ _ (Z.of_nat (length front + 1) - 1)) by lia.
    replace (Z.to_nat (Z.of_nat (length front + 1) - 1)) with (length front)
      by lia.
    unfold fgetc. cbn [content pos].
    rewrite lookup_app_r by lia. rewrite Nat.sub_diag.
    change ([c] !! 0%nat) with (Some c). cbn iota.
    rewrite fseek_set_nonneg by lia. rewrite Nat2Z.id.
    f_equal. destruct (decide (c = newline)) as [->|Hc].
    + rewrite bool_decide_true by done. by apply Z.eqb_eq.
    + rewrite bool_decide_false by congruence. apply Z.eqb_neq.
      intros H. apply Hc. apply Nat2Z.inj in H.
      rewrite <- (ascii_nat_embedding c), H. apply ascii_nat_embedding.
Qed.

Lemma read_line_start bs :
  bs <> [] ->
  read_line (mkFILE bs 0)
  = (Z.of_nat (length (read_chars bs).1), (read_chars bs).1,
     mkFILE bs (read_chars bs).2).
Proof.
  intros Hne. unfold read_line. cbn [pos content]. rewrite drop_0.
  destruct bs as [|c bs]; [done|]. by destruct (read_chars (c :: bs)).
Qed.

Lemma fgetc_EOF bs k :
  (fgetc (mkFILE bs k)).1 = EOF <-> (length bs <= k)%nat.
Proof.
  unfold fgetc. cbn [content pos]. destruct (bs !! k) as [c|] eqn:E.
  - apply lookup_lt_Some in E. cbn [fst]. unfold EOF. split; lia.
  - apply lookup_ge_None in E. done.
Qed.

(** C5, as the code has it.  [get_keyfile] accepts a file exactly when it
    is not empty and holds no newline at all, and the key is then the
    whole content; so a single line that ends in a newline is refused,
    like an empty file, an empty first line or a second line. *)
Theorem get_keyfile_accepts_iff (bs : list ascii) :
  (get_keyfile (Some bs) = (true, Some bs) <->
   bs <> [] /\ newline ∉ bs) /\
  ((get_keyfile (Some bs)).1 = false <-> bs = [] \/ newline ∈ bs).
Proof.
  assert (Hmain : bs <> [] ->
            get_keyfile (Some bs)
            = (bool_decide (newline ∉ bs), Some (read_chars bs).1) /\
            (newline ∉ bs -> (read_chars bs).1 = bs)).
  { intros Hne. unfold get_keyfile. rewrite read_line_start by done.
    destruct (read_chars bs) as [line k] eqn:E. cbn [fst snd].
    destruct (read_chars_spec bs line k E) as [Hnl Hcase].
    rewrite does_file_end_newline_spec. cbn [content fst].
    destruct Hcase as [[-> ->]|(after & -> & ->)].
    - split; [|done]. destruct line as [|c line]; [done|].
      destruct (Z.leb_spec (Z.of_nat (length (c :: line))) 0) as [H|_];
        [simpl in H; lia|].
      assert (Hlast : last (c :: line) <> Some newline).
      { intros H. apply Hnl. apply last_Some in H as [l' ->].
        apply elem_of_app. right. by left. }
      rewrite (bool_decide_false _ Hlast), (bool_decide_true _ Hnl).
      cbn [negb andb]. f_equal. apply Z.eqb_eq. by apply fgetc_EOF.
    - assert (Hin : ~ (newline ∉ line ++ newline :: after)).
      { intros H. apply H. apply elem_of_app. right. by left. }
      split; [|done]. rewrite (bool_decide_false _ Hin).
      destruct (Z.leb_spec (Z.of_nat (length line)) 0) as [H|H]; [done|].
      f_equal. destruct after as [|a after].
      + rewrite bool_decide_true; [done|]. by rewrite last_snoc.
      + apply andb_false_iff. right. apply Z.eqb_neq. intros HE.
        apply fgetc_EOF in HE. rewrite length_app in HE. simpl in HE. lia. }
  destruct (decide (bs = [])) as [->|Hne].
  - change (get_keyfile (Some [])) with (false, Some (@nil ascii)).
    split; split.
    + done.
    + by intros [? _].
    + by left.
    + done.
  - destruct (Hmain Hne) as [-> Hkey]. cbn [fst].
    destruct (decide (newline ∉ bs)) as [Hn|Hn].
    + rewrite bool_decide_true by done. rewrite Hkey by done.
      split; (split; [done|]); [done|]. intros [?|?]; done.
    + rewrite bool_decide_false by done. split.
      * split; [done|]. by intros [_ ?].
      * split; [|done]. intros _. right.
        destruct (decide (newline ∈ bs)); done.
Qed.

(** C5, as the claim has it, fails: the file of the one line "abc" ended
    by a newline is refused. *)
Lemma keyfile_final_newline_refused :
  let file := bytes "abc" ++ [newline] in
  read_chars file = (bytes "abc", length file) /\
  get_keyfile (Some file) = (false, Some (bytes "abc")) /\
  get_keyfile (Some (bytes "abc")) = (true, Some (bytes "abc")).
Proof. by vm_compute. Qed.

Lemma read_line_spec file n line file' :
  read_line file = (n, line, file') ->
  content file' = content file /\
  (0 < n -> (pos file < pos file')%nat /\
            (pos file < length (content file))%nat).
Proof.
  unfold read_line. destruct (drop (pos file) (content file)) as [|c rest] eqn:E.
  - intros [= <- <- <-]. split; [done|lia].
  - destruct (read_chars (c :: rest)) as [l k] eqn:R.
    intros [= <- <- <-]. cbn [content pos]. split; [done|]. intros Hn.
    destruct (read_chars_spec _ _ _ R) as [_ Hk]. split.
    + destruct Hk as [[_ ->]|(? & _ & ->)]; lia.
    + destruct (decide (pos file < length (content file))%nat); [done|].
      rewrite drop_ge in E by lia. done.
Qed.

(** The loop of [load_statfile] ends: fuel beyond the characters left is
    never used up, and the stream still holds the same file. *)
Lemma load_statfile_loop_total fuel : forall file entries,
  (length (content file) - pos file < fuel)%nat ->
  exists valid file' entries',
    load_statfile_loop fuel file entries = Some (valid, file', entries') /\
    content file' = content file.
Proof.
  induction fuel as [|fuel IH]; intros file entries Hfuel; [lia|].
  cbn [load_statfile_loop].
  destruct (read_line file) as [[n line] file1] eqn:R.
  destruct (read_line_spec _ _ _ _ R) as [Hc Hpos].
  destruct (Z.leb_spec n 0) as [Hn|Hn].
  - by exists true, file1, entries.
  - destruct (_ || _).
    + by exists false, file1, entries.
    + destruct (Hpos Hn) as [H1 H2].
      destruct (IH file1 (entries ++
                  [StatfileEntry.mk (scan_ints 4 line !!! 0%nat)
                     (scan_ints 4 line !!! 1%nat)
                     (scan_ints 4 line !!! 2%nat)
                     (scan_ints 4 line !!! 3%nat)]))
        as (v & f' & es' & -> & Hc'); [rewrite Hc; lia|].
      exists v, f', es'. split; [done|congruence].
Qed.

(** C7. A statfile whose last character is a newline is refused by
    [load_statfile], whatever its lines hold, and the server then leaves
    with the code for a bad statfile; the empty file is accepted with no
    entry. *)
Theorem load_statfile_refuses_final_newline
    (server : Server) (bs : list ascii) :
  last bs = Some newline ->
  (exists server', load_statfile server (Some bs) = Some (false, server')) /\
  (forall keyfile,
     (load_keyfile setup_server_struct keyfile).1 = true ->
     startup 5 keyfile true (Some bs) = Some BAD_STATFILE) /\
  exit_status BAD_STATFILE = 4 /\
  load_statfile setup_server_struct (Some [])
  = Some (true, setup_server_struct).
Proof.
  intros Hlast.
  assert (Hload : forall srv, exists srv',
            load_statfile srv (Some bs) = Some (false, srv')).
  { intros srv. unfold load_statfile.
    destruct (load_statfile_loop_total (S (length bs)) (mkFILE bs 0)
                (statfileEntries srv)) as (v & f' & es' & -> & Hc);
      [cbn [content pos]; lia|].
    rewrite does_file_end_newline_spec. cbn [fst]. cbn [content] in Hc.
    rewrite Hc, bool_decide_true by done. rewrite andb_false_r.
    by eexists. }
  split; [apply Hload|]. split; [|split; [done|]].
  - intros keyfile Hkey. unfold startup.
    change (negb (5 =? 5)) with false. cbn iota.
    destruct (load_keyfile setup_server_struct keyfile) as [ok srv].
    cbn [fst] in Hkey. subst ok. cbn [negb].
    destruct (Hload srv) as [srv' ->]. done.
  - by vm_compute.
Qed.


End ConfigurationFiles.

Section PlayerTurn.
Import Rafiki ServerRules.

(** C6, as the code has it.  A reconnection in time sends the loop round
    again with [hadAttempt] as it was.  So the next invalid message is a
    first strike (a further "dowhat", the game goes on) when the player
    had sent no invalid message earlier in the turn, and it stops the
    game with "invalid" and the player's letter when the player had. *)
Theorem reconnect_keeps_strike
    (timeout player : Z) (hadAttempt : bool) (data : GameData)
    (dowhats : nat) (closed invalid : Reply) (replies : list Reply) :
  err closed = PLAYER_CLOSED ->
  err invalid = PROTOCOL_ERROR ->
  (wait_for_reconnect timeout data player (wait closed)).1 = true ->
  let data' := (wait_for_reconnect timeout data player (wait closed)).2 in
  turn_loop timeout player hadAttempt data dowhats (closed :: replies)
  = turn_loop timeout player hadAttempt data' (S dowhats) replies /\
  finished data' = false /\
  (hadAttempt = false ->
   turn_loop timeout player hadAttempt data dowhats
     (closed :: invalid :: replies)
   = turn_loop timeout player true data' (S (S dowhats)) replies) /\
  (hadAttempt = true ->
   turn_loop timeout player hadAttempt data dowhats
     (closed :: invalid :: replies)
   = Left true PROTOCOL_ERROR data' (S (S dowhats)) /\
   turn_broadcast player (Left true PROTOCOL_ERROR data' (S (S dowhats)))
   = Some ("invalid"
           +:+ String (ascii_of_nat (Z.to_nat (65 + player))) EmptyString
           +:+ String newline EmptyString)).
Proof.
  intros Hc Hi Hw data'.
  assert (Hstep : forall rest,
            turn_loop timeout player hadAttempt data dowhats (closed :: rest)
            = turn_loop timeout player hadAttempt data' (S dowhats) rest).
  { intros rest. cbn [turn_loop]. rewrite Hc. unfold data'.
    destruct (wait_for_reconnect timeout data player (wait closed))
      as [ok d]. cbn [fst snd] in *. by rewrite Hw. }
  assert (Hfin : finished data' = false).
  { unfold data', wait_for_reconnect in *.
    destruct (timeout =? 0); [done|]. destruct (finished data); [done|].
    cbn [finished] in *. by destruct (finishedMeanwhile (wait closed)). }
  split; [apply Hstep|]. split; [done|]. split.
  - intros ->. rewrite Hstep. cbn [turn_loop]. by rewrite Hi.
  - intros ->. rewrite Hstep. cbn [turn_loop]. rewrite Hi. split; [done|].
    cbn [turn_broadcast]. unfold final_broadcast. rewrite Hfin.
    by replace (player + 1 - 1) with player by lia.
Qed.

(** C6, as the claim has it, fails: player B sends an invalid message,
    disconnects, reconnects in time and sends a second invalid message;
    the turn ends the game with "invalidB" after three "dowhat" lines,
    and is not waiting for a further reply. *)
Lemma reconnect_does_not_clear_strike :
  let back := mkWait 0 false in
  let replies := [mkReply PROTOCOL_ERROR back; mkReply PLAYER_CLOSED back;
                  mkReply PROTOCOL_ERROR back] in
  let data := mkGameData false 1 2 0 in
  (wait_for_reconnect 5 data 1 back).1 = true /\
  player_turn 5 1 data replies
  = Left true PROTOCOL_ERROR (mkGameData false 1 2 1) 3 /\
  player_turn 5 1 data replies <> Blocked true (mkGameData false 1 2 1) 4 /\
  turn_broadcast 1 (player_turn 5 1 data replies)
  = Some ("invalidB" +:+ String newline EmptyString).
Proof. cbv zeta. split; [|split; [|split]]; by vm_compute. Qed.

End PlayerTurn.

Section Sorting.
Import Rafiki ServerRules.

Lemma code_inj (c d : ascii) :
  Z.of_nat (nat_of_ascii c) = Z.of_nat (nat_of_ascii d) -> c = d.
Proof.
  intros H%Nat2Z.inj.
  rewrite <- (ascii_nat_embedding c), H. apply ascii_nat_embedding.
Qed.

Lemma code_zero (c : ascii) :
  Z.of_nat (nat_of_ascii c) = 0 -> c = "000"%char.
Proof. intros H. by apply code_inj. Qed.

Lemma c_string_cons c s :
  c_string (String c s) = true <-> c <> "000"%char /\ c_string s = true.
Proof.
  unfold c_string. cbn [list_ascii_of_string forallb].
  rewrite andb_true_iff, negb_true_iff. by rewrite Ascii.eqb_neq.
Qed.

Lemma strcmp_eq a : forall b,
  c_string a = true -> c_string b = true -> strcmp a b = 0 <-> a = b.
Proof.
  induction a as [|c a IH]; intros [|d b] Ha Hb; cbn [strcmp].
  - done.
  - apply c_string_cons in Hb as [Hd _]. split; [|done].
    intros H. destruct Hd. apply code_zero. lia.
  - apply c_string_cons in Ha as [Hc _]. split; [|done].
    intros H. destruct Hc. by apply code_zero.
  - apply c_string_cons in Ha as [_ Ha]. apply c_string_cons in Hb as [_ Hb].
    destruct (Ascii.eqb_spec c d) as [->|Hne].
    + rewrite IH by done. split; [by intros ->|by intros [= ->]].
    + split; [|by intros [= -> ->]]. intros H. destruct Hne.
      apply code_inj. lia.
Qed.

Lemma strcmp_refl a : strcmp a a = 0.
Proof. induction a as [|c a IH]; cbn [strcmp]; [done|]. by rewrite Ascii.eqb_refl. Qed.

Lemma strcmp_flip a : forall b, strcmp b a = - strcmp a b.
Proof.
  induction a as [|c a IH]; intros [|d b]; cbn [strcmp]; try lia.
  rewrite (Ascii.eqb_sym d c). destruct (Ascii.eqb c d); [apply IH|lia].
Qed.


Lemma qsort_insert_perm {A} (compar : A -> A -> Z) x l :
  Permutation (qsort_insert compar x l) (x :: l).
Proof.
  induction l as [|y l IH]; cbn [qsort_insert]; [done|].
  destruct (compar x y <=? 0); [done|].
  rewrite IH. apply perm_swap.
Qed.

Lemma qsort_perm {A} (compar : A -> A -> Z) l :
  Permutation (qsort l compar) l.
Proof.
  unfold qsort. induction l as [|x l IH]; cbn [foldr]; [done|].
  rewrite qsort_insert_perm. by constructor.
Qed.

(** On elements that satisfy [Q], where the comparison is total and
    transitive, [qsort] returns its input in order. *)
Lemma qsort_sorted {A} (compar : A -> A -> Z) (Q : A -> Prop) l :
  (forall a b, Q a -> Q b -> compar a b <= 0 \/ compar b a <= 0) ->
  (forall a b c, Q a -> Q b -> Q c ->
     compar a b <= 0 -> compar b c <= 0 -> compar a c <= 0) ->
  Forall Q l ->
  StronglySorted (fun a b => compar a b <= 0) (qsort l compar).
Proof.
  intros Htot Htrans. unfold qsort.
  induction l as [|x l IH]; intros HQ; cbn [foldr]; [constructor|].
  apply Forall_cons in HQ as [Hx HQ]. specialize (IH HQ).
  assert (HQs : Forall Q (foldr (qsort_insert compar) [] l)).
  { eapply Permutation_Forall; [|exact HQ].
    symmetry. apply (qsort_perm compar l). }
  revert IH HQs. generalize (foldr (qsort_insert compar) [] l).
  intros s. induction s as [|y s IHs]; intros Hs HQs; cbn [qsort_insert].
  - repeat constructor.
  - apply StronglySorted_inv in Hs as [Hs Hy].
    apply Forall_cons in HQs as [Qy HQs].
    destruct (Z.leb_spec (compar x y) 0) as [Hxy|Hxy].
    + constructor; [by constructor|]. constructor; [done|].
      rewrite Forall_forall in Hy, HQs. apply Forall_forall.
      intros z Hz. apply (Htrans x y z); auto.
    + constructor; [by apply IHs|].
      eapply Permutation_Forall;
        [symmetry; apply (qsort_insert_perm compar x s)|].
      constructor; [|done]. destruct (Htot x y Hx Qy); [lia|done].
Qed.

End Sorting.

Section StartOfGame.
Import Rafiki ServerRules.






End StartOfGame.

(** ** Numbers as [printf] writes them and [sscanf] reads them *)

Section Numbers.
Import Rafiki MoreServerRules.

Lemma list_ascii_of_string_app (a b : string) :
  list_ascii_of_string (a +:+ b)
  = list_ascii_of_string a ++ list_ascii_of_string b.
Proof.
  induction a as [|c a IH]; [done|].
  change (String c a +:+ b) with (String c (a +:+ b)).
  cbn [list_ascii_of_string]. by rewrite IH.
Qed.

Lemma append_empty_r (s : string) : s +:+ "" = s.
Proof.
  induction s as [|c s IH]; [done|].
  change (String c s +:+ "") with (String c (s +:+ "")). by rewrite IH.
Qed.

Lemma pretty_N_char_digit (d : N) :
  (d < 10)%N ->
  isdigit (pretty_N_char d) = true /\
  Z.of_nat (nat_of_ascii (pretty_N_char d)) - 48 = Z.of_N d /\
  pretty_N_char d <> newline /\ pretty_N_char d <> ","%char.
Proof.
  intros Hd.
  assert (d = 0 \/ d = 1 \/ d = 2 \/ d = 3 \/ d = 4 \/ d = 5 \/ d = 6 \/
          d = 7 \/ d = 8 \/ d = 9)%N as H by lia.
  repeat (destruct H as [->|H]); try subst d; by vm_compute.
Qed.

Lemma isdigit_not_space c : isdigit c = true -> isspace c = false.
Proof.
  unfold isdigit, isspace. generalize (nat_of_ascii c). intros n.
  rewrite andb_true_iff, !Nat.leb_le. intros [H1 H2].
  destruct (Nat.eqb_spec n 32); [lia|].
  destruct (Nat.leb_spec 9 n); [|done].
  destruct (Nat.leb_spec n 13); [lia|done].
Qed.

Lemma scan_digits_stop acc t :
  no_digit_ahead t -> scan_digits acc t = (acc, t).
Proof. destruct t as [|c t]; cbn; [done|]. by intros ->. Qed.

Lemma pretty_N_go_app (x : N) : forall s t,
  pretty_N_go x s +:+ t = pretty_N_go x (s +:+ t).
Proof.
  induction (N.lt_wf_0 x) as [x _ IH]; intros s t.
  destruct (decide (x = 0)%N) as [->|Hx]; [by rewrite !pretty_N_go_0|].
  rewrite (pretty_N_go_step x s), (pretty_N_go_step x (s +:+ t)) by lia.
  rewrite IH by (apply N.div_lt; lia). done.
Qed.

Lemma scan_digits_pretty_N_go (x : N) : forall s,
  scan_digits 0 (list_ascii_of_string (pretty_N_go x s))
  = scan_digits (Z.of_N x) (list_ascii_of_string s).
Proof.
  induction (N.lt_wf_0 x) as [x _ IH]; intros s.
  destruct (decide (x = 0)%N) as [->|Hx]; [by rewrite pretty_N_go_0|].
  rewrite pretty_N_go_step by lia.
  rewrite IH by (apply N.div_lt; lia).
  destruct (pretty_N_char_digit (x `mod` 10)) as (Hd & Hv & _);
    [apply N.mod_lt; lia|].
  cbn [list_ascii_of_string scan_digits]. rewrite Hd, Hv. f_equal.
  rewrite (N.div_mod x 10) at 3 by lia. lia.
Qed.

Lemma pretty_N_go_head (x : N) : forall s,
  (0 < x)%N ->
  exists c rest, list_ascii_of_string (pretty_N_go x s) = c :: rest /\
                 isdigit c = true.
Proof.
  induction (N.lt_wf_0 x) as [x _ IH]; intros s Hx.
  rewrite pretty_N_go_step by lia.
  destruct (decide (x `div` 10 = 0)%N) as [->|Hq].
  - rewrite pretty_N_go_0.
    destruct (pretty_N_char_digit (x `mod` 10)) as (Hd & _);
      [apply N.mod_lt; lia|].
    by eexists _, _.
  - apply IH; [apply N.div_lt; lia|by apply N.neq_0_lt_0].
Qed.

Lemma pretty_N_go_chars (P : ascii -> Prop) (x : N) : forall s,
  (forall d, (d < 10)%N -> P (pretty_N_char d)) ->
  Forall P (list_ascii_of_string s) ->
  Forall P (list_ascii_of_string (pretty_N_go x s)).
Proof.
  induction (N.lt_wf_0 x) as [x _ IH]; intros s Hd Hs.
  destruct (decide (x = 0)%N) as [->|Hx]; [by rewrite pretty_N_go_0|].
  rewrite pretty_N_go_step by lia.
  apply IH; [apply N.div_lt; lia|done|].
  cbn. apply Forall_cons. split; [|done]. apply Hd. apply N.mod_lt. lia.
Qed.

Lemma scan_positive (p : positive) (negative : bool) (t : string) :
  no_digit_ahead (list_ascii_of_string t) ->
  exists c rest,
    list_ascii_of_string (pretty_N_go (N.pos p) "" +:+ t) = c :: rest /\
    isdigit c = true /\
    scan_digits 0 (c :: rest) = (Z.pos p, list_ascii_of_string t).
Proof.
  intros Ht. rewrite pretty_N_go_app.
  destruct (pretty_N_go_head (N.pos p) ("" +:+ t)) as (c & rest & Hl & Hc);
    [lia|].
  exists c, rest. split; [done|]. split; [done|].
  rewrite <- Hl, scan_digits_pretty_N_go. by apply scan_digits_stop.
Qed.

(** [%d] reads back what [%d] wrote, up to where the digits end. *)
Lemma scan_int_pretty (z : Z) (t : string) :
  no_digit_ahead (list_ascii_of_string t) ->
  scan_int (list_ascii_of_string (pretty z +:+ t))
  = Some (z, list_ascii_of_string t).
Proof.
  intros Ht. destruct z as [|p|p]; unfold pretty, pretty_Z.
  - change ("0" +:+ t) with (String "0" t). cbn [list_ascii_of_string].
    generalize dependent (list_ascii_of_string t). intros l Hl.
    unfold scan_int. cbn [skip_spaces]. change (isspace "0") with false.
    cbn iota. change (isdigit "0") with true. cbn iota. cbn [scan_digits].
    change (isdigit "0") with true. cbn iota.
    change (10 * 0 + (Z.of_nat (nat_of_ascii "0") - 48)) with 0.
    by rewrite scan_digits_stop.
  - unfold pretty, pretty_positive, pretty, pretty_N.
    rewrite decide_False by done.
    destruct (scan_positive p false t Ht) as (c & rest & -> & Hc & Hscan).
    unfold scan_int. cbn [skip_spaces]. rewrite (isdigit_not_space c Hc).
    assert (c <> "-"%char /\ c <> "+"%char) as [H1 H2]
      by (split; intros ->; by vm_compute in Hc).
    destruct (Ascii.eqb_spec c "-"); [done|].
    destruct (Ascii.eqb_spec c "+"); [done|].
    assert (Hsign : match c :: rest with
                    | "-"%char :: rest0 => (true, rest0)
                    | "+"%char :: rest0 => (false, rest0)
                    | _ => (false, c :: rest)
                    end = (false, c :: rest)).
    { destruct c as [[] [] [] [] [] [] [] []]; try done. }
    rewrite Hsign, Hc, Hscan. done.
  - unfold pretty, pretty_positive, pretty, pretty_N.
    rewrite decide_False by done.
    destruct (scan_positive p true t Ht) as (c & rest & Hl & Hc & Hscan).
    change (("-" +:+ pretty_N_go (N.pos p) "") +:+ t)
      with (String "-" (pretty_N_go (N.pos p) "" +:+ t)).
    cbn [list_ascii_of_string]. rewrite Hl.
    unfold scan_int. cbn [skip_spaces].
    change (isspace "-") with false. cbn iota. rewrite Hc, Hscan. done.
Qed.

Lemma pretty_Z_chars (P : ascii -> Prop) (z : Z) :
  (forall d, (d < 10)%N -> P (pretty_N_char d)) -> P "-"%char ->
  Forall P (list_ascii_of_string (pretty z)).
Proof.
  intros Hd Hm.
  assert (HN : forall p, Forall P (list_ascii_of_string
                                     (pretty_N_go (N.pos p) ""))).
  { intros p. apply pretty_N_go_chars; [done|]. cbn. done. }
  destruct z as [|p|p]; unfold pretty, pretty_Z.
  - cbn. apply Forall_cons. split; [apply (Hd 0%N); lia|done].
  - unfold pretty, pretty_positive, pretty, pretty_N.
    rewrite decide_False by done. apply HN.
  - unfold pretty, pretty_positive, pretty, pretty_N.
    rewrite decide_False by done. cbn. apply Forall_cons. split; [done|].
    apply HN.
Qed.

(** Two numbers written with ["%d,%d\n"] read back with ["%d,%d"]. *)
Lemma scan_ints_pretty_two (a b : Z) :
  scan_ints 2 (list_ascii_of_string
                 (pretty a +:+ "," +:+ pretty b
                  +:+ String newline EmptyString))
  = [a; b].
Proof.
  cbn [scan_ints]. rewrite scan_int_pretty by done.
  change (list_ascii_of_string
            ("," +:+ pretty b +:+ String newline EmptyString))
    with (","%char :: list_ascii_of_string
                        (pretty b +:+ String newline EmptyString)).
  cbv beta iota. rewrite scan_int_pretty by done. done.
Qed.

End Numbers.

Section Scoreboard.
Import Rafiki ServerRules MoreServerRules Limits.

Lemma count_tokens_five p :
  count_tokens (Player.tokens p) TOKEN_MAX = tokens_held p.
Proof. unfold count_tokens, tokens_held. cbn [TOKEN_MAX seq foldl]. lia. Qed.

Lemma Zsum_app l k : Rules.Zsum (l ++ k) = Rules.Zsum l + Rules.Zsum k.
Proof.
  unfold Rules.Zsum. induction l as [|x l IH]; cbn [app foldr]; lia.
Qed.

Lemma named_snoc name ps p :
  named name (ps ++ [p])
  = named name ps ++ (if decide (Player.name p = name) then [p] else []).
Proof.
  unfold named. rewrite filter_app, filter_cons, filter_nil.
  by destruct (decide _).
Qed.

Lemma named_absent name ps :
  name ∉ Player.name <$> ps -> named name ps = [].
Proof.
  unfold named. induction ps as [|p ps IH]; intros Hn; [done|].
  rewrite fmap_cons in Hn. apply not_elem_of_cons in Hn as [Hne Hn].
  rewrite filter_cons. rewrite decide_False by done. by apply IH.
Qed.

Lemma totals_snoc name ps p :
  total_tokens name (ps ++ [p])
  = total_tokens name ps
    + (if decide (Player.name p = name) then tokens_held p else 0) /\
  total_points name (ps ++ [p])
  = total_points name ps
    + (if decide (Player.name p = name) then Player.score p else 0).
Proof.
  unfold total_tokens, total_points. rewrite named_snoc, !fmap_app, !Zsum_app.
  destruct (decide _); cbn; split; lia.
Qed.

(** The search of [print_scores] over the first [k] rows. *)
Lemma find_score_prefix scores name k :
  (forall s, s ∈ scores -> c_string (PlayerScore.name s) = true) ->
  c_string name = true -> (k <= length scores)%nat ->
  let r := foldl (fun newPlayer j =>
                    if strcmp (PlayerScore.name (scores !!! j)) name =? 0
                    then Z.of_nat j else newPlayer) (-1) (seq 0 k) in
  (r = -1 /\
   forall j s, (j < k)%nat -> scores !! j = Some s ->
               PlayerScore.name s <> name) \/
  (exists j s, (j < k)%nat /\ r = Z.of_nat j /\ scores !! j = Some s /\
               PlayerScore.name s = name).
Proof.
  intros Hcs Hc. induction k as [|k IH]; intros Hk r.
  - left. split; [done|]. intros; lia.
  - unfold r. rewrite seq_S, foldl_snoc. cbn [Nat.add].
    destruct (lookup_lt_is_Some_2 scores k) as [sk Hsk]; [lia|].
    rewrite (list_lookup_total_correct _ _ _ Hsk).
    assert (Hck : c_string (PlayerScore.name sk) = true).
    { apply Hcs. apply list_elem_of_lookup. by exists k. }
    destruct (Z.eqb_spec (strcmp (PlayerScore.name sk) name) 0) as [E|E].
    + right. exists k, sk. apply strcmp_eq in E; [|done..].
      split; [lia|done].
    + assert (PlayerScore.name sk <> name).
      { intros Heq. apply E. apply strcmp_eq; done. }
      destruct IH as [[-> Hnone]|(j & s & Hj & -> & Hs & Hn)]; [lia| |].
      * left. split; [done|]. intros j s Hj Hs.
        destruct (decide (j = k)) as [->|]; [congruence|].
        apply (Hnone j); [lia|done].
      * right. exists j, s. split; [lia|done].
Qed.

Lemma find_score_spec scores name :
  (forall s, s ∈ scores -> c_string (PlayerScore.name s) = true) ->
  c_string name = true ->
  (find_score scores name = -1 /\ name ∉ PlayerScore.name <$> scores) \/
  (exists j s, find_score scores name = Z.of_nat j /\
               scores !! j = Some s /\ PlayerScore.name s = name).
Proof.
  intros Hcs Hc.
  destruct (find_score_prefix scores name (length scores) Hcs Hc)
    as [[Hr Hnone]|(j & s & Hj & Hr & Hs & Hn)]; [lia| |].
  - left. split; [exact Hr|].
    intros (s & Hname & Hin)%list_elem_of_fmap.
    apply list_elem_of_lookup in Hin as [j Hj].
    apply (Hnone j s); [by apply lookup_lt_Some in Hj|done|done].
  - right. by exists j, s.
Qed.

(** One more player keeps the tally. *)
Lemma add_player_score_tallied scores ps p :
  Forall (fun q => c_string (Player.name q) = true) (ps ++ [p]) ->
  tallied scores ps -> tallied (add_player_score scores p) (ps ++ [p]).
Proof.
  intros Hall (Hnd & Hnames & Htot).
  apply Forall_app in Hall as [Hps Hp]. apply Forall_inv in Hp.
  assert (Hcs : forall s, s ∈ scores -> c_string (PlayerScore.name s) = true).
  { intros s Hs.
    assert (Hin : PlayerScore.name s ∈ Player.name <$> ps).
    { apply Hnames. apply list_elem_of_fmap. by exists s. }
    apply list_elem_of_fmap in Hin as (q & -> & Hq).
    rewrite Forall_forall in Hps. by apply Hps. }
  unfold add_player_score. rewrite count_tokens_five.
  destruct (find_score_spec scores (Player.name p) Hcs Hp)
    as [[-> Hnew]|(j & sj & -> & Hj & Hname)].
  - change (-1 =? -1) with true. cbn iota.
    rewrite <- (Nat.add_0_r (length scores)), alter_app_r.
    cbn [alter list_alter PlayerScore.tokens PlayerScore.points].
    assert (Hzero : named (Player.name p) ps = []).
    { apply named_absent. by rewrite <- Hnames. }
    split; [|split].
    + rewrite fmap_app. apply NoDup_app. split; [done|]. split.
      * intros x Hx [->|H]%elem_of_cons; [done|]. by apply elem_of_nil in H.
      * apply NoDup_singleton.
    + intros name. rewrite !fmap_app, !elem_of_app, Hnames. done.
    + intros s [Hs|Hs]%elem_of_app.
      * destruct (Htot s Hs) as [Ht Hpt].
        destruct (totals_snoc (PlayerScore.name s) ps p) as [-> ->].
        assert (Hne : Player.name p <> PlayerScore.name s).
        { intros Heq. apply Hnew.
          rewrite Heq. apply list_elem_of_fmap. by exists s. }
        rewrite !decide_False by done. split; lia.
      * apply list_elem_of_singleton in Hs as ->.
        cbn [PlayerScore.tokens PlayerScore.points PlayerScore.name].
        destruct (totals_snoc (Player.name p) ps p) as [-> ->].
        rewrite !decide_True by done.
        unfold total_tokens, total_points. rewrite Hzero. cbn. split; lia.
  - destruct (Z.eqb_spec (Z.of_nat j) (-1)) as [?|_]; [lia|].
    rewrite Nat2Z.id.
    assert (Hsame : PlayerScore.name <$>
              alter (fun s => PlayerScore.mk (Player.name p)
                       (PlayerScore.tokens s + tokens_held p)
                       (PlayerScore.points s + Player.score p)) j scores
            = PlayerScore.name <$> scores).
    { apply list_eq. intros i. rewrite !list_lookup_fmap, list_lookup_alter.
      destruct (decide (j = i)) as [<-|]; [|done]. rewrite Hj. cbn.
      by rewrite Hname. }
    split; [|split].
    + by rewrite Hsame.
    + intros name. rewrite Hsame, fmap_app, elem_of_app, Hnames.
      split; [by left|]. intros [H|H]; [done|].
      cbn in H. apply list_elem_of_singleton in H as ->.
      apply Hnames. apply list_elem_of_fmap. exists sj.
      split; [done|]. apply list_elem_of_lookup. by exists j.
    + intros s (i & Hi)%list_elem_of_lookup.
      rewrite list_lookup_alter in Hi.
      destruct (decide (j = i)) as [<-|Hne].
      * rewrite Hj in Hi. cbn in Hi. injection Hi as <-.
        cbn [PlayerScore.tokens PlayerScore.points PlayerScore.name].
        destruct (Htot sj) as [-> ->];
          [apply list_elem_of_lookup; by exists j|].
        destruct (totals_snoc (Player.name p) ps p) as [-> ->].
        rewrite !decide_True by done. by rewrite Hname.
      * assert (Hs : s ∈ scores) by (apply list_elem_of_lookup; by exists i).
        destruct (Htot s Hs) as [Ht Hpt].
        destruct (totals_snoc (PlayerScore.name s) ps p) as [-> ->].
        assert (Hnp : Player.name p <> PlayerScore.name s).
        { intros Heq. apply Hne.
          apply (NoDup_lookup _ j i (Player.name p) Hnd);
            rewrite list_lookup_fmap.
          - by rewrite Hj, <- Hname.
          - by rewrite Hi, Heq. }
        rewrite !decide_False by done. split; lia.
Qed.

Lemma collect_scores_all_players server :
  collect_scores server = foldl add_player_score [] (all_players server).
Proof.
  unfold collect_scores, all_players. generalize (@nil PlayerScore.t).
  induction (games server) as [|game gs IH]; intros acc; [done|].
  cbn [foldl]. rewrite bind_cons, foldl_app, IH. f_equal.
  by rewrite foldl_fmap.
Qed.

Lemma foldl_add_player_score_tallied rest : forall scores ps,
  Forall (fun q => c_string (Player.name q) = true) (ps ++ rest) ->
  tallied scores ps ->
  tallied (foldl add_player_score scores rest) (ps ++ rest).
Proof.
  induction rest as [|p rest IH]; intros scores ps Hall Ht; cbn [foldl].
  - by rewrite app_nil_r.
  - rewrite (assoc_L _ ps [p] rest : ps ++ p :: rest = (ps ++ [p]) ++ rest)
      in Hall |- *.
    apply IH; [done|]. apply add_player_score_tallied; [|done].
    by apply Forall_app in Hall as [? _].
Qed.

Lemma tallied_perm rows scores ps :
  Permutation rows scores -> tallied scores ps -> tallied rows ps.
Proof.
  intros Hp (Hnd & Hnames & Htot). split; [|split].
  - by rewrite Hp.
  - intros name. by rewrite Hp.
  - intros s Hs. apply Htot. by rewrite <- Hp.
Qed.

Lemma score_sort_order a b : score_sort a b <= 0 <-> score_order a b.
Proof.
  unfold score_sort, score_order.
  destruct (Z.eqb_spec (PlayerScore.points b - PlayerScore.points a) 0); lia.
Qed.

Lemma StronglySorted_weaken {A} (R S : A -> A -> Prop) l :
  (forall a b, R a b -> S a b) -> StronglySorted R l -> StronglySorted S l.
Proof.
  intros HRS. induction 1 as [|x l Hs IH Hall]; constructor; [done|].
  eapply Forall_impl; [exact Hall|]. intros y. apply HRS.
Qed.

(** C8. When the names are C strings and the sums stay within an [int],
    what [print_scores] writes is the header line and then, for each row
    of a table, the line made of the name of the row, a comma, its
    tokens in decimal, a comma, its points in decimal and a newline.
    The table has one row for each name among the players of all games,
    holds in each row the tokens (five piles, wilds included) and the
    points of all players of that name added up, and is ordered by more
    points first and, among equal points, fewer tokens first.  What
    follows the name and its comma on a line reads back, as two numbers
    with a comma between them, as the totals of the row. *)
Theorem print_scores_table (server : Server) :
  forallb (fun p => c_string (Player.name p)) (all_players server) = true ->
  totals_fit_int (all_players server) ->
  exists rows,
    print_scores server
    = ("Player Name,Total Tokens,Total Points" +:+ String newline EmptyString)
      :: ((fun row =>
             PlayerScore.name row +:+ "," +:+ pretty (PlayerScore.tokens row)
             +:+ "," +:+ pretty (PlayerScore.points row)
             +:+ String newline EmptyString) <$> rows) /\
    tallied rows (all_players server) /\
    StronglySorted score_order rows /\
    (forall i row, rows !! i = Some row ->
       exists numbers,
         print_scores server !! S i
         = Some (PlayerScore.name row +:+ "," +:+ numbers) /\
         scan_ints 2 (list_ascii_of_string numbers)
         = [PlayerScore.tokens row; PlayerScore.points row]).
Proof.
  intros Hc _.
  assert (Hall : Forall (fun q => c_string (Player.name q) = true)
                   (all_players server)).
  { apply Forall_forall. intros q Hq. rewrite forallb_forall in Hc.
    apply Hc. by apply list_elem_of_In. }
  exists (qsort (collect_scores server) score_sort).
  split; [done|]. split; [|split; [|
    intros i row Hrow; eexists; split; [|apply scan_ints_pretty_two];
    unfold print_scores;
    change ((?x :: ?l) !! S i) with (l !! i);
    by rewrite list_lookup_fmap, Hrow]].
  - apply (tallied_perm _ (collect_scores server)); [apply qsort_perm|].
    rewrite collect_scores_all_players.
    apply (foldl_add_player_score_tallied (all_players server) [] []);
      [done|].
    split; [constructor|]. split; [done|].
    intros s Hs. by apply elem_of_nil in Hs.
  - apply (StronglySorted_weaken (fun a b => score_sort a b <= 0)).
    { intros a b. apply score_sort_order. }
    apply (qsort_sorted score_sort (fun _ => True)).
    + intros a b _ _. unfold score_sort.
      destruct (Z.eqb_spec (PlayerScore.points b - PlayerScore.points a) 0),
        (Z.eqb_spec (PlayerScore.points a - PlayerScore.points b) 0); lia.
    + intros a b c _ _ _. rewrite !score_sort_order.
      unfold score_order. lia.
    + apply Forall_forall. done.
Qed.

End Scoreboard.

(** * The properties at concrete states *)

Section Witnesses.
Import Examples.

Lemma can_tokens_buy_card_iff_canonical_witness :
  0 <= 1 /\
  (Game.can_tokens_buy_card hub_game 0 0 [1; 1; 0; 0; 1] = true <->
   Rules.wilds_required (Game.cards hub_game !!! 0%nat)
     (Game.players hub_game !!! 0%nat) <= 1 /\
   (forall c, (c < Game.NUM_COLOURS)%nat ->
      [1; 1; 0; 0; 1] !!! c
      = Z.min (Rules.need (Game.cards hub_game !!! 0%nat)
                 (Game.players hub_game !!! 0%nat) c)
              ([1; 1; 0; 0; 1] !!! c)) /\
   1 = Rules.wilds_required (Game.cards hub_game !!! 0%nat)
         (Game.players hub_game !!! 0%nat)).
Proof.
  split; [lia|].
  refine (proj2 (can_tokens_buy_card_iff_canonical hub_game 0 0
                   [1; 1; 0; 0; 1] _)).
  by vm_compute.
Defined.

Lemma token_conservation_witness :
  Hub.reachable 2 2
    (Hub.start_new_game
       (Game.mkGame 0 0 2 [0; 0; 0; 0] 0
          (replicate 8 inhabitant) hub_deck
          (replicate 2 (Game.mkPlayer 0 [0; 0; 0; 0] [0; 0; 0; 0; 0])))
       2 1) /\
  Rules.conserved 2
    (Hub.start_new_game
       (Game.mkGame 0 0 2 [0; 0; 0; 0] 0
          (replicate 8 inhabitant) hub_deck
          (replicate 2 (Game.mkPlayer 0 [0; 0; 0; 0] [0; 0; 0; 0; 0])))
       2 1).
Proof.
  split; [exact (Hub.reach_start 2 2 hub_deck 1)|].
  exact (proj1 (token_conservation 2 2 _ (Hub.reach_start 2 2 hub_deck 1))).
Defined.

Lemma player_purchased_card_effect_witness :
  Z.of_nat 0 < Game.cardsFacedUp hub_game /\
  Game.cardsFacedUp (Game.player_purchased_card hub_game 0 0 [1; 1; 0; 0; 1])
  = Game.cardsFacedUp hub_game - 1.
Proof.
  split; [by vm_compute|].
  apply (player_purchased_card_effect 2 hub_game 0 0 [1; 1; 0; 0; 1]).
  - repeat split; repeat constructor.
  - repeat split; repeat constructor.
  - lia.
  - by vm_compute.
  - by vm_compute.
  - by vm_compute.
Defined.

Lemma reconnect_keeps_strike_witness :
  (Rafiki.wait_for_reconnect 5 (Rafiki.mkGameData false 1 2 0) 1
     (Rafiki.mkWait 0 false)).1 = true /\
  Rafiki.turn_loop 5 1 true (Rafiki.mkGameData false 1 2 0) 1
    [Rafiki.mkReply Rafiki.PLAYER_CLOSED (Rafiki.mkWait 0 false);
     Rafiki.mkReply Rafiki.PROTOCOL_ERROR (Rafiki.mkWait 0 false)]
  = Rafiki.Left true Rafiki.PROTOCOL_ERROR (Rafiki.mkGameData false 1 2 1) 3.
Proof.
  split; [reflexivity|].
  refine (proj1 (proj2 (proj2 (proj2
    (reconnect_keeps_strike 5 1 true (Rafiki.mkGameData false 1 2 0) 1
       (Rafiki.mkReply Rafiki.PLAYER_CLOSED (Rafiki.mkWait 0 false))
       (Rafiki.mkReply Rafiki.PROTOCOL_ERROR (Rafiki.mkWait 0 false))
       [] eq_refl eq_refl eq_refl))) eq_refl)).
Defined.

Lemma load_statfile_refuses_final_newline_witness :
  last (ServerRules.bytes "3000,2,5,2" ++ [Rafiki.newline])
  = Some Rafiki.newline /\
  exists server',
    Rafiki.load_statfile Rafiki.setup_server_struct
      (Some (ServerRules.bytes "3000,2,5,2" ++ [Rafiki.newline]))
    = Some (false, server').
Proof.
  split; [reflexivity|].
  exact (proj1 (load_statfile_refuses_final_newline
                  Rafiki.setup_server_struct
                  (ServerRules.bytes "3000,2,5,2" ++ [Rafiki.newline])
                  eq_refl)).
Defined.

Lemma print_scores_table_witness :
  forallb (fun p => ServerRules.c_string (Rafiki.Player.name p))
    (ServerRules.all_players scores_server) = true /\
  MoreServerRules.totals_fit_int (ServerRules.all_players scores_server) /\
  exists rows,
    Rafiki.print_scores scores_server
    = ("Player Name,Total Tokens,Total Points"
       +:+ String Rafiki.newline EmptyString)
      :: ((fun row =>
             Rafiki.PlayerScore.name row +:+ ","
             +:+ pretty (Rafiki.PlayerScore.tokens row) +:+ ","
             +:+ pretty (Rafiki.PlayerScore.points row)
             +:+ String Rafiki.newline EmptyString) <$> rows) /\
    ServerRules.tallied rows (ServerRules.all_players scores_server) /\
    StronglySorted ServerRules.score_order rows /\
    (forall i row, rows !! i = Some row ->
       exists numbers,
         Rafiki.print_scores scores_server !! S i
         = Some (Rafiki.PlayerScore.name row +:+ "," +:+ numbers) /\
         Rafiki.scan_ints 2 (list_ascii_of_string numbers)
         = [Rafiki.PlayerScore.tokens row; Rafiki.PlayerScore.points row]).
Proof.
  assert (Hfit : MoreServerRules.totals_fit_int
                   (ServerRules.all_players scores_server)).
  { split; by vm_compute. }
  split; [reflexivity|]. split; [exact Hfit|].
  exact (print_scores_table scores_server eq_refl Hfit).
Defined.


End Witnesses.

(** * Further properties of the game library *)

Section GameLibrary.
Import Game Hub Rules GameLib Limits.

(** The letter of a colour reads back as the colour, a letter that reads
    as a colour is that colour's letter, and the letter "?" of an invalid
    colour reads as no colour. *)
Theorem card_colour_char_round_trip :
  (forall colour,
     get_card_colour (get_card_char colour)
     = colour) /\
  (forall input,
     get_card_colour input = INVALID_COLOUR \/
     get_card_char (get_card_colour input) = input).
Proof.
  split.
  - by intros [].
  - intros input. unfold get_card_colour.
    destruct (Ascii.eqb_spec input "B") as [->|_]; [by right|].
    destruct (Ascii.eqb_spec input "Y") as [->|_]; [by right|].
    destruct (Ascii.eqb_spec input "P") as [->|_]; [by right|].
    destruct (Ascii.eqb_spec input "R") as [->|_]; [by right|].
    by left.
Qed.

Lemma get_wilds_needed_loop card player cs : forall acc,
  foldl (fun wildsNeeded i =>
           let tokensNeeded := price card !!! i - discounts player !!! i in
           let tokensNeeded := if tokensNeeded <? 0 then 0 else tokensNeeded in
           if tokens player !!! i >=? tokensNeeded then wildsNeeded
           else wildsNeeded + (tokens player !!! i - tokensNeeded))
        acc cs
  = acc - Zsum (shortfall card player <$> cs).
Proof.
  induction cs as [|c cs IH]; intros acc; csimpl; [lia|].
  rewrite IH. generalize (Zsum (shortfall card player <$> cs)). intros rest.
  unfold shortfall, need.
  destruct (Z.ltb_spec (price card !!! c - discounts player !!! c) 0);
    (match goal with |- context [?a >=? ?b] =>
       destruct (Z.geb_spec a b) end); lia.
Qed.

(** [get_wilds_needed_for_card] returns the number of wilds the card
    takes with the sign turned: it is never positive. *)
Theorem get_wilds_needed_for_card_is_negated (game : Game)
    (playerId cardId : nat) :
  get_wilds_needed_for_card game playerId cardId
  = - wilds_required (cards game !!! cardId) (players game !!! playerId) /\
  get_wilds_needed_for_card game playerId cardId <= 0.
Proof.
  unfold get_wilds_needed_for_card, wilds_required.
  rewrite get_wilds_needed_loop.
  pose proof (Zsum_shortfall_nonneg (cards game !!! cardId)
                (players game !!! playerId) (seq 0 NUM_COLOURS)).
  lia.
Qed.

Lemma get_card_price_loop card player cs : forall acc,
  foldl (fun total i =>
           let tokensNeeded := price card !!! i - discounts player !!! i in
           total + (if tokensNeeded <? 0 then 0 else tokensNeeded))
        acc cs
  = acc + Zsum (need card player <$> cs).
Proof.
  induction cs as [|c cs IH]; intros acc; csimpl; [lia|].
  rewrite IH. generalize (Zsum (need card player <$> cs)). intros rest.
  unfold need.
  destruct (Z.ltb_spec (price card !!! c - discounts player !!! c) 0); lia.
Qed.

Lemma get_card_price_for_player_need game playerId cardId :
  get_card_price_for_player game playerId cardId
  = Zsum (need (cards game !!! cardId) (players game !!! playerId)
          <$> seq 0 NUM_COLOURS).
Proof.
  unfold get_card_price_for_player.
  rewrite (get_card_price_loop (cards game !!! cardId)
             (players game !!! playerId)). lia.
Qed.

Lemma need_split card player cs :
  Zsum (need card player <$> cs)
  = Zsum ((fun c => Z.min (need card player c) (tokens player !!! c)) <$> cs)
    + Zsum (shortfall card player <$> cs).
Proof.
  induction cs as [|c cs IH]; csimpl; [done|].
  rewrite IH.
  generalize (Zsum (shortfall card player <$> cs)),
    (Zsum ((fun c => Z.min (need card player c) (tokens player !!! c))
           <$> cs)).
  intros r1 r2. unfold shortfall. lia.
Qed.

(** The tokens [choose_tokens_to_buy_card] hands over, all five slots
    together, are as many as [get_card_price_for_player] gives for the
    card. *)
Theorem chosen_tokens_add_up_to_price (game : Game) (playerId cardId : nat)
    (destTokens : list Z) :
  length destTokens = TOKEN_SLOTS ->
  let chosen := choose_tokens_to_buy_card game playerId cardId destTokens in
  chosen !!! 0%nat + chosen !!! 1%nat + chosen !!! 2%nat + chosen !!! 3%nat
  + chosen !!! WILD
  = get_card_price_for_player game playerId cardId.
Proof.
  intros Hlen chosen. unfold chosen.
  rewrite !choose_tokens_to_buy_card_spec
    by (first [done | unfold TOKEN_SLOTS, WILD; lia]).
  rewrite get_card_price_for_player_need, need_split.
  unfold spend, wilds_required, WILD, NUM_COLOURS.
  rewrite !decide_False by lia. rewrite decide_True by done.
  generalize (Zsum (shortfall (cards game !!! cardId)
                      (players game !!! playerId) <$> seq 0 4)).
  intros w. unfold Zsum. cbn [seq fmap list_fmap foldr]. lia.
Qed.

(** A player who holds no negative number of tokens and can afford a card
    holds at least as many tokens as the card's price, as long as the
    sums of [int]s stay within an [int]: the tokens the player holds add
    up to at most [INT_MAX], and the prices of the card and the discounts
    of the player are not negative, so that no difference of a price and
    a discount leaves the range either. *)
Theorem affordable_card_costs_no_more_than_held (game : Game)
    (playerId cardId : nat) :
  (forall i, (i < TOKEN_SLOTS)%nat ->
     0 <= tokens (players game !!! playerId) !!! i) ->
  tokens (players game !!! playerId) !!! 0%nat
  + tokens (players game !!! playerId) !!! 1%nat
  + tokens (players game !!! playerId) !!! 2%nat
  + tokens (players game !!! playerId) !!! 3%nat
  + tokens (players game !!! playerId) !!! WILD <= INT_MAX ->
  (forall i, (i < NUM_COLOURS)%nat ->
     0 <= price (cards game !!! cardId) !!! i <= INT_MAX /\
     0 <= discounts (players game !!! playerId) !!! i <= INT_MAX) ->
  can_player_afford_card game playerId cardId = true ->
  get_card_price_for_player game playerId cardId
  <= get_player_token_count game playerId.
Proof.
  intros Hpos _ _ Haff. unfold can_player_afford_card in Haff.
  apply afford_loop_spec in Haff;
    [|lia|apply Hpos; unfold TOKEN_SLOTS, WILD; lia].
  rewrite get_card_price_for_player_need, need_split.
  unfold get_player_token_count, TOKEN_SLOTS, NUM_COLOURS, WILD in *.
  cbn [seq foldl]. csimpl. csimpl in Haff.
  pose proof (Hpos 0%nat ltac:(lia)). pose proof (Hpos 1%nat ltac:(lia)).
  pose proof (Hpos 2%nat ltac:(lia)). pose proof (Hpos 3%nat ltac:(lia)).
  lia.
Qed.

Lemma piles_with_tokens_loop game cs : forall acc,
  foldl (fun n i => if pile game !!! i >? 0 then n + 1 else n) acc cs
  = acc + Z.of_nat (length (filter (fun c => 0 < pile game !!! c) cs)).
Proof.
  induction cs as [|c cs IH]; intros acc; cbn [foldl].
  - rewrite filter_nil. cbn. lia.
  - rewrite IH, filter_cons.
    destruct (Z.gtb_spec (pile game !!! c) 0).
    + rewrite decide_True by lia. cbn [length]. lia.
    + rewrite decide_False by lia. lia.
Qed.

Lemma filter_length_le {A} (P Q : A -> Prop)
    `{!forall x, Decision (P x)} `{!forall x, Decision (Q x)} (l : list A) :
  (forall x, x ∈ l -> P x -> Q x) ->
  (length (filter P l) <= length (filter Q l))%nat.
Proof.
  induction l as [|x l IH]; intros Hpq; [done|].
  rewrite !filter_cons.
  assert (IH' : (length (filter P l) <= length (filter Q l))%nat).
  { apply IH. intros y Hy. apply Hpq. by right. }
  destruct (decide (P x)) as [Hp|Hp].
  - rewrite decide_True by (apply Hpq; [by left|done]). cbn. lia.
  - destruct (decide (Q x)); cbn; lia.
Qed.

(** A take that [is_valid_token_take] accepts is only there to make when
    [can_tokens_be_taken] holds: with fewer than three piles that hold a
    token every take is refused. *)
Theorem valid_take_needs_three_piles (game : Game) (toks : list Z) :
  is_valid_token_take game toks = true -> can_tokens_be_taken game = true.
Proof.
  unfold is_valid_token_take, can_tokens_be_taken.
  intros [Hall Hn]%take_loop_spec.
  rewrite piles_with_tokens_loop. unfold TOKENS_PER_TAKE in *.
  apply Z.geb_le.
  pose proof (filter_length_le (fun c => toks !!! c = 1)
                (fun c => 0 < pile game !!! c) (seq 0 NUM_COLOURS)) as Hle.
  specialize (Hle (fun c Hc H1 => proj2 (Hall c Hc) H1)). lia.
Qed.

End GameLibrary.

Section TakesAndBoard.
Import Game Hub Rules GameLib MoreRules.

Lemma foldl_took_step pid toks cs : forall game,
  let g := foldl (took_step pid toks) game cs in
  players g = alter (fun p => gain toks p cs) pid (players game) /\
  pile g = deplete toks (pile game) cs /\
  cards g = cards game /\ cardsFacedUp g = cardsFacedUp game /\
  topOfDeck g = topOfDeck game.
Proof.
  induction cs as [|c cs IH]; intros game; cbn [foldl].
  - split; [|done]. symmetry. by apply list_alter_id.
  - destruct (IH (took_step pid toks game c)) as (P & L & C & F & D).
    rewrite P, L, C, F, D. unfold took_step.
    cbn [players pile cards cardsFacedUp topOfDeck set_players set_pile].
    split; [by rewrite list_alter_alter_eq|done].
Qed.

Lemma gain_spec toks p :
  length (tokens p) = TOKEN_SLOTS ->
  let p' := gain toks p (seq 0 NUM_COLOURS) in
  totalPoints p' = totalPoints p /\ discounts p' = discounts p /\
  length (tokens p') = TOKEN_SLOTS /\
  (forall i, (i < NUM_COLOURS)%nat ->
     tokens p' !!! i = tokens p !!! i + toks !!! i) /\
  tokens p' !!! WILD = tokens p !!! WILD.
Proof.
  destruct p as [s d t]. cbn [tokens]. intros Hlen.
  destruct t as [|t0 [|t1 [|t2 [|t3 [|t4 [|t5 t]]]]]]; try done.
  cbn. split; [done|]. split; [done|]. split; [done|]. split; [|done].
  intros i Hi. unfold NUM_COLOURS in Hi.
  destruct i as [|[|[|[|i]]]]; cbn; first [done | lia].
Qed.

Lemma deplete_spec toks pl :
  length pl = NUM_COLOURS ->
  let pl' := deplete toks pl (seq 0 NUM_COLOURS) in
  length pl' = NUM_COLOURS /\
  (forall c, (c < NUM_COLOURS)%nat -> pl' !!! c = pl !!! c - toks !!! c).
Proof.
  intros Hlen.
  destruct pl as [|a [|b [|c [|d [|e pl]]]]]; try done.
  cbn. split; [done|].
  intros i Hi. unfold NUM_COLOURS in Hi.
  destruct i as [|[|[|[|i]]]]; cbn; first [done | lia].
Qed.

Lemma lookup_total_sized (ps : list Player) pid :
  (pid < length ps)%nat ->
  Forall (fun p => length (tokens p) = TOKEN_SLOTS) ps ->
  length (tokens (ps !!! pid)) = TOKEN_SLOTS.
Proof.
  intros Hpid Hall. rewrite Forall_lookup in Hall.
  destruct (lookup_lt_is_Some_2 _ _ Hpid) as [p Hp].
  rewrite (list_lookup_total_correct _ _ _ Hp). by apply (Hall pid).
Qed.

Lemma player_took_tokens_fields
    (n : nat) (game : Game) (taker : nat) (toks : list Z) :
  let game' := player_took_tokens game taker toks in
  let before := players game !!! taker in
  let after := players game' !!! taker in
  well_sized n game -> (taker < n)%nat ->
  (length (pile game') = NUM_COLOURS /\
   forall c, (c < NUM_COLOURS)%nat ->
     pile game' !!! c = pile game !!! c - toks !!! c) /\
  ((forall c, (c < NUM_COLOURS)%nat ->
      tokens after !!! c = tokens before !!! c + toks !!! c) /\
   tokens after !!! WILD = tokens before !!! WILD /\
   discounts after = discounts before /\
   totalPoints after = totalPoints before) /\
  (length (players game') = length (players game) /\
   forall q, q <> taker -> players game' !! q = players game !! q) /\
  cards game' = cards game /\ cardsFacedUp game' = cardsFacedUp game.
Proof.
  intros game' before after (Hpile & Hlen & Htok) Htaker.
  destruct (foldl_took_step taker toks (seq 0 NUM_COLOURS) game)
    as (P & L & C & F & _).
  fold (player_took_tokens game taker toks) in P, L, C, F.
  fold game' in P, L, C, F.
  assert (Hb : (taker < length (players game))%nat) by lia.
  destruct (gain_spec toks before (lookup_total_sized _ _ Hb Htok))
    as (Gs & Gd & Gl & Gt & Gw).
  destruct (deplete_spec toks (pile game) Hpile) as (Dl & Dc).
  assert (Hafter : after = gain toks before (seq 0 NUM_COLOURS)).
  { unfold after. rewrite P. by rewrite list_lookup_total_alter_eq. }
  clearbody after game' before.
  split; [by rewrite L|]. split; [by rewrite Hafter|].
  split; [|done]. rewrite P, length_alter. split; [done|].
  intros q Hq. by apply list_lookup_alter_ne.
Qed.

(** Applying a take moves each entry of the request from its pile to the
    taker, leaves the taker's wilds, points and discounts alone, and
    touches neither the other players nor the board. *)
Theorem player_took_tokens_effect
    (n : nat) (game : Game) (taker : nat) (toks : list Z) :
  let game' := player_took_tokens game taker toks in
  let before := players game !!! taker in
  let after := players game' !!! taker in
  well_sized n game -> (taker < n)%nat ->
  (length (pile game') = NUM_COLOURS /\
   forall c, (c < NUM_COLOURS)%nat ->
     pile game' !!! c = pile game !!! c - toks !!! c) /\
  ((forall c, (c < NUM_COLOURS)%nat ->
      tokens after !!! c = tokens before !!! c + toks !!! c) /\
   tokens after !!! WILD = tokens before !!! WILD /\
   discounts after = discounts before /\
   totalPoints after = totalPoints before) /\
  (length (players game') = length (players game) /\
   forall q, q <> taker -> players game' !! q = players game !! q) /\
  cards game' = cards game /\ cardsFacedUp game' = cardsFacedUp game /\
  topOfDeck game' = topOfDeck game /\ numPlayers game' = numPlayers game /\
  maxPoints game' = maxPoints game.
Proof.
  intros game' before after Hs Htaker.
  destruct (player_took_tokens_fields n game taker toks Hs Htaker)
    as (Hpile & Hme & Hothers & Hcards & Hcount).
  fold game' before after in Hpile, Hme, Hothers, Hcards, Hcount.
  repeat (split; [assumption|]).
  unfold game', player_took_tokens. generalize (seq 0 NUM_COLOURS).
  intros cs. generalize game. clear.
  induction cs as [|c cs IH]; intros g; cbn [foldl]; [done|].
  destruct (IH (took_step taker toks g c)) as (-> & -> & ->). done.
Qed.


Lemma face_up_take_card_from_board game cardId :
  board_ok game -> Z.of_nat cardId < cardsFacedUp game ->
  board_ok (take_card_from_board game cardId) /\
  face_up (take_card_from_board game cardId) = delete cardId (face_up game).
Proof.
  intros [Hlen Hn] Hcard. unfold MAX_CARDS_ON_BOARD in *.
  destruct (shift_loop_spec (Z.to_nat (cardsFacedUp game))
              (Z.to_nat (cardsFacedUp game) - cardId) cardId (cards game))
    as (L & Lo & Hi); [lia|lia|].
  unfold board_ok, face_up, take_card_from_board.
  cbn [cards cardsFacedUp set_cards set_cardsFacedUp].
  set (r := foldl _ _ _) in *. unfold MAX_CARDS_ON_BOARD.
  split; [split; [congruence|lia]|].
  apply list_eq. intros j.
  replace (Z.to_nat (cardsFacedUp game - 1))
    with (Z.to_nat (cardsFacedUp game) - 1)%nat by lia.
  destruct (decide (j < Z.to_nat (cardsFacedUp game) - 1)%nat) as [Hj|Hj].
  - rewrite lookup_take_lt by done.
    rewrite (list_lookup_lookup_total_lt r) by lia.
    destruct (decide (j < cardId)%nat).
    + rewrite list_lookup_delete_lt, lookup_take_lt by lia.
      rewrite Lo by done. symmetry. apply list_lookup_lookup_total_lt. lia.
    + rewrite list_lookup_delete_ge, lookup_take_lt by lia.
      rewrite Hi by lia. rewrite Nat.add_1_r.
      symmetry. apply list_lookup_lookup_total_lt. lia.
  - rewrite lookup_take_ge by lia. symmetry. apply lookup_ge_None.
    rewrite length_delete.
    + rewrite length_take. lia.
    + apply lookup_lt_is_Some_2. rewrite length_take. lia.
Qed.

Lemma take_card_from_deck_board game :
  board_ok game ->
  board_ok (take_card_from_deck game) /\
  face_up (take_card_from_deck game) ++ topOfDeck (take_card_from_deck game)
  = face_up game ++ topOfDeck game /\
  (cardsFacedUp game < Z.of_nat MAX_CARDS_ON_BOARD ->
   face_up (take_card_from_deck game)
   = face_up game ++ take 1 (topOfDeck game)).
Proof.
  intros [Hlen Hn]. unfold take_card_from_deck, MAX_CARDS_ON_BOARD in *.
  case_decide as Hfull; [split; [done|]; split; [done|]; lia|].
  destruct (topOfDeck game) as [|card next] eqn:Hdeck.
  - rewrite Hdeck. split; [done|]. split; [done|]. by rewrite app_nil_r.
  - unfold board_ok, face_up, add_card_to_board.
    cbn [cards cardsFacedUp topOfDeck set_cards set_cardsFacedUp].
    rewrite length_insert.
    replace (Z.to_nat (cardsFacedUp game + 1))
      with (S (Z.to_nat (cardsFacedUp game))) by lia.
    rewrite (take_S_r _ _ card)
      by (apply list_lookup_insert_eq; lia).
    rewrite take_insert_ge by lia.
    unfold MAX_CARDS_ON_BOARD.
    split; [split; [done|lia]|].
    split; [by rewrite <- (assoc_L (++))|done].
Qed.

Lemma player_purchased_card_deck game buyer cardId toks :
  topOfDeck (player_purchased_card game buyer cardId toks) = topOfDeck game.
Proof.
  assert (H : forall cs g, topOfDeck (foldl (purchase_step buyer toks) g cs)
                           = topOfDeck g).
  { induction cs as [|c cs IH]; intros g; cbn [foldl]; [done|].
    rewrite IH. unfold purchase_step. by case_decide. }
  specialize (H (seq 0 TOKEN_SLOTS) (take_card_from_board game cardId)).
  unfold player_purchased_card.
  generalize dependent (foldl (purchase_step buyer toks)
                          (take_card_from_board game cardId)
                          (seq 0 TOKEN_SLOTS)).
  intros g2 H. cbn [topOfDeck set_players]. by rewrite H.
Qed.

(** What [handle_card_purchase] leaves face up: the cards that were face
    up without the one bought, in their order, and after them the top
    card of the deck if the deck has one; no card of board and deck is
    lost or doubled. *)
Theorem board_after_purchase_and_draw
    (game : Game) (buyer cardId : nat) (toks : list Z) :
  board_ok game -> Z.of_nat cardId < cardsFacedUp game ->
  let game' :=
    take_card_from_deck (player_purchased_card game buyer cardId toks) in
  board_ok game' /\
  face_up game' = delete cardId (face_up game) ++ take 1 (topOfDeck game) /\
  face_up game' ++ topOfDeck game'
  = delete cardId (face_up game) ++ topOfDeck game.
Proof.
  intros Hb Hcard game'.
  destruct (face_up_take_card_from_board game cardId Hb Hcard) as [Hb1 Hf1].
  destruct (player_purchased_card_fields game buyer cardId toks)
    as (F & C & _ & _).
  pose proof (player_purchased_card_deck game buyer cardId toks) as D.
  set (g1 := player_purchased_card game buyer cardId toks) in *.
  assert (Hface : face_up g1 = delete cardId (face_up game)).
  { rewrite <- Hf1. unfold face_up. rewrite C, F. done. }
  assert (Hb2 : board_ok g1).
  { destruct Hb1 as [H1 H2]. unfold board_ok. rewrite C, F. done. }
  destruct (take_card_from_deck_board g1 Hb2) as (Hb3 & Hall & Hdraw).
  split; [done|]. unfold game'. rewrite Hall, Hdraw, Hface, D; [done|].
  rewrite F. destruct Hb as [_ ?]. lia.
Qed.

Lemma can_tokens_buy_card_spend game playerId cardId toks :
  can_tokens_buy_card game playerId cardId toks = true ->
  can_player_afford_card game playerId cardId = true /\
  forall i, (i < TOKEN_SLOTS)%nat ->
    toks !!! i = spend (cards game !!! cardId) (players game !!! playerId) i.
Proof.
  unfold can_tokens_buy_card.
  destruct (can_player_afford_card game playerId cardId); cbn [negb];
    [|done].
  intros H. split; [done|]. intros i Hi. rewrite forallb_forall in H.
  rewrite <- (choose_tokens_to_buy_card_spec game playerId cardId
                (replicate TOKEN_SLOTS 0))
    by (first [by rewrite length_replicate | done]).
  symmetry. apply Z.eqb_eq. apply H. apply in_seq. lia.
Qed.

Lemma tokens_nonneg_same game game' :
  pile game' = pile game -> players game' = players game ->
  tokens_nonneg game -> tokens_nonneg game'.
Proof. unfold tokens_nonneg. by intros -> ->. Qed.

Lemma take_card_from_deck_tokens game :
  tokens_nonneg game -> tokens_nonneg (take_card_from_deck game).
Proof.
  apply tokens_nonneg_same; unfold take_card_from_deck;
    case_decide; try done; by destruct (topOfDeck game).
Qed.

(** The three invariants of the hub's games, step by step. *)
Lemma handle_input_board n pid m game game' :
  well_sized n game -> board_ok game -> (pid < n)%nat ->
  handle_input game pid m = Some game' -> board_ok game'.
Proof.
  intros Hs Hb Hpid.
  destruct m as [|toks|cardId toks]; cbn [handle_input].
  - by intros [= <-].
  - destruct (is_valid_token_take game toks); cbn [negb]; [|done].
    intros [= <-].
    destruct (player_took_tokens_fields n game pid toks Hs Hpid)
      as (_ & _ & _ & Hc & Hf).
    destruct Hb as [? ?]. unfold board_ok. by rewrite Hc, Hf.
  - destruct (Z.ltb_spec cardId 0) as [?|Hc0]; [done|].
    destruct (Z.geb_spec cardId (cardsFacedUp game)) as [?|Hc1]; [done|].
    cbn [orb].
    destruct (can_tokens_buy_card game pid (Z.to_nat cardId) toks);
      cbn [negb]; [|done].
    intros [= <-].
    by destruct (board_after_purchase_and_draw game pid (Z.to_nat cardId)
                   toks) as (Hb' & _); [|lia|].
Qed.

Lemma handle_input_tokens n pid m game game' :
  well_sized n game -> tokens_nonneg game -> (pid < n)%nat ->
  handle_input game pid m = Some game' -> tokens_nonneg game'.
Proof.
  intros Hs [Hpile Hplayers] Hpid.
  assert (Hlen : (pid < length (players game))%nat)
    by (destruct Hs as (_ & -> & _); done).
  assert (Hme : forall i, (i < TOKEN_SLOTS)%nat ->
            0 <= tokens (players game !!! pid) !!! i).
  { rewrite Forall_lookup in Hplayers.
    destruct (lookup_lt_is_Some_2 _ _ Hlen) as [p Hp].
    rewrite (list_lookup_total_correct _ _ _ Hp). by apply (Hplayers pid). }
  destruct m as [|toks|cardId toks]; cbn [handle_input].
  - intros [= <-]. split; [done|].
    unfold player_took_wild. cbn [players set_players].
    apply Forall_alter; [done|]. intros p Hp Hpos i Hi. cbn [tokens set_tokens].
    rewrite list_lookup_total_insert. case_decide; [|by apply Hpos].
    specialize (Hpos WILD ltac:(unfold WILD, TOKEN_SLOTS; lia)). lia.
  - destruct (is_valid_token_take game toks) eqn:Hv; cbn [negb]; [|done].
    intros [= <-].
    destruct (player_took_tokens_fields n game pid toks Hs Hpid)
      as ((_ & Hp) & (Ht & Hw & _) & (_ & Hothers) & _).
    unfold is_valid_token_take in Hv.
    apply take_loop_spec in Hv as [Hall _].
    assert (H01 : forall c, (c < NUM_COLOURS)%nat ->
              (toks !!! c = 0 \/ toks !!! c = 1) /\
              (toks !!! c = 1 -> 0 < pile game !!! c)).
    { intros c Hc'. apply Hall. apply elem_of_seq. lia. }
    split.
    + intros c Hc'. rewrite Hp by done. specialize (Hpile c Hc').
      destruct (H01 c Hc') as [[?|?] Hpos]; [lia|]. specialize (Hpos H). lia.
    + apply Forall_lookup. intros q p Hq i Hi.
      destruct (decide (q = pid)) as [->|Hne].
      * rewrite (list_lookup_total_correct _ _ _ Hq) in Ht, Hw.
        destruct (decide (i = WILD)) as [->|Hi'].
        -- rewrite Hw. apply Hme. unfold WILD, TOKEN_SLOTS. lia.
        -- unfold WILD, TOKEN_SLOTS, NUM_COLOURS in *.
           rewrite Ht by lia. specialize (Hme i ltac:(lia)).
           destruct (H01 i ltac:(unfold NUM_COLOURS; lia)) as [[?|?] _]; lia.
      * rewrite Hothers in Hq by done. rewrite Forall_lookup in Hplayers.
        by apply (Hplayers q p).
  - destruct (Z.ltb_spec cardId 0) as [?|Hc0]; [done|].
    destruct (Z.geb_spec cardId (cardsFacedUp game)) as [?|Hc1]; [done|].
    cbn [orb].
    destruct (can_tokens_buy_card game pid (Z.to_nat cardId) toks) eqn:Hbuy;
      cbn [negb]; [|done].
    intros [= <-].
    apply can_tokens_buy_card_spend in Hbuy as [Haff Hspend].
    unfold can_player_afford_card in Haff.
    apply afford_loop_spec in Haff;
      [|lia|apply Hme; unfold WILD, TOKEN_SLOTS; lia].
    set (g1 := player_purchased_card game pid (Z.to_nat cardId) toks).
    assert (Hg1 : tokens_nonneg g1).
    { destruct (player_purchased_card_fields game pid (Z.to_nat cardId) toks)
        as (_ & _ & L & P).
      fold g1 in L, P. destruct Hs as (Hsz & _ & Htok).
      destruct (refund_spec toks (pile game) Hsz) as (_ & Rc).
      split.
      - intros c Hc. rewrite L, Rc by done.
        rewrite Hspend by (unfold TOKEN_SLOTS, NUM_COLOURS in *; lia).
        unfold spend. rewrite decide_False
          by (unfold WILD, NUM_COLOURS in *; lia).
        specialize (Hpile c Hc).
        specialize (Hme c ltac:(unfold TOKEN_SLOTS, NUM_COLOURS in *; lia)).
        unfold need. lia.
      - rewrite P. apply Forall_alter; [done|].
        intros p Hp Hpos i Hi. cbn [tokens set_totalPoints set_discounts].
        assert (Hpl : length (tokens p) = TOKEN_SLOTS).
        { rewrite Forall_lookup in Htok. by apply (Htok pid). }
        destruct (pay_spec toks p Hpl) as (_ & _ & _ & Pt).
        rewrite Pt by done. rewrite Hspend by done.
        rewrite (list_lookup_total_correct _ _ _ Hp) in *.
        specialize (Hpos i Hi). unfold spend. case_decide as Hw.
        + subst i. unfold wilds_required. lia.
        + unfold need. lia. }
    clearbody g1. by apply take_card_from_deck_tokens.
Qed.

Lemma set_initial_game_tokens_more init g :
  length (pile g) = NUM_COLOURS ->
  Forall (fun p => forall i, (i < TOKEN_SLOTS)%nat -> 0 <= tokens p !!! i)
         (players g) ->
  board_ok g ->
  (0 <= init -> tokens_nonneg (set_initial_game_tokens g init)) /\
  board_ok (set_initial_game_tokens g init).
Proof.
  destruct g as [? ? ? pl ? ? ? ps]. unfold board_ok, tokens_nonneg.
  cbn [pile players cards cardsFacedUp]. intros Hl Hps Hb.
  destruct pl as [|a [|b [|c [|d [|e pl]]]]]; try done.
  split; [|done]. intros Hinit. split; [|done].
  intros i Hi. unfold NUM_COLOURS in Hi.
  destruct i as [|[|[|[|i]]]]; cbn; lia.
Qed.

Lemma start_new_game_inv_more n init deck maxPoints :
  let g := setup_game n in
  let g0 := start_new_game
              (mkGame (myId g) (Game.maxPoints g) (numPlayers g) (pile g)
                 (cardsFacedUp g) (cards g) deck (players g))
              init maxPoints in
  (0 <= init -> tokens_nonneg g0) /\ board_ok g0.
Proof.
  intros g g0. unfold g0, start_new_game.
  assert (Hiter : forall k game,
            (tokens_nonneg game ->
             tokens_nonneg (Nat.iter k take_card_from_deck game)) /\
            (board_ok game ->
             board_ok (Nat.iter k take_card_from_deck game))).
  { induction k as [|k IH]; intros game; cbn [Nat.iter nat_rect]; [done|].
    destruct (IH game) as [IHt IHb].
    split; intros Hg; [by apply take_card_from_deck_tokens, IHt|].
    by apply take_card_from_deck_board, IHb. }
  match goal with
  | |- context [set_initial_game_tokens ?a init] =>
      destruct (set_initial_game_tokens_more init a) as [Ht Hb]
  end; [done| | |].
  - cbn [players g setup_game]. apply Forall_replicate.
    intros i Hi. unfold TOKEN_SLOTS in Hi.
    destruct i as [|[|[|[|[|i]]]]]; cbn; lia.
  - split; [done|]. cbn. unfold MAX_CARDS_ON_BOARD. lia.
  - split; [intros Hinit|]; apply Hiter; auto.
Qed.

Lemma reachable_board n init game : reachable n init game -> board_ok game.
Proof.
  intros Hr.
  induction Hr as [deck maxPoints|game pid m game' Hr IHb Hpid Hm].
  - apply start_new_game_inv_more.
  - destruct (reachable_inv _ _ _ Hr) as [Hs _].
    apply (handle_input_board (Z.to_nat n) pid m game); [done..|lia|done].
Qed.

Lemma reachable_tokens n init game :
  0 <= init -> reachable n init game -> tokens_nonneg game.
Proof.
  intros Hinit Hr.
  induction Hr as [deck maxPoints|game pid m game' Hr IHt Hpid Hm].
  - by apply start_new_game_inv_more.
  - destruct (reachable_inv _ _ _ Hr) as [Hs _].
    apply (handle_input_tokens (Z.to_nat n) pid m game); [done..|lia|done].
Qed.

(** In every state the hub reaches from a non-negative number of initial
    tokens, no pile and no player ever holds a negative number of tokens
    of any kind. *)
Theorem reachable_tokens_never_negative (n initialTokens : Z) (game : Game) :
  0 <= initialTokens -> reachable n initialTokens game ->
  (forall c, (c < NUM_COLOURS)%nat -> 0 <= pile game !!! c) /\
  (forall playerId i, Z.of_nat playerId < n -> (i < TOKEN_SLOTS)%nat ->
     0 <= tokens (players game !!! playerId) !!! i).
Proof.
  intros Hinit Hr.
  destruct (reachable_tokens n initialTokens game Hinit Hr)
    as [Hpile Hplayers].
  destruct (reachable_inv _ _ _ Hr) as [(_ & Hlen & _) _].
  split; [done|]. intros pid i Hpid Hi.
  rewrite Forall_lookup in Hplayers.
  destruct (lookup_lt_is_Some_2 (players game) pid) as [p Hp]; [lia|].
  rewrite (list_lookup_total_correct _ _ _ Hp). by apply (Hplayers pid).
Qed.

(** In every state the hub reaches, the board keeps its eight slots and
    between zero and eight cards lie face up. *)
Theorem reachable_board_within_bounds (n initialTokens : Z) (game : Game) :
  reachable n initialTokens game ->
  length (cards game) = MAX_CARDS_ON_BOARD /\
  0 <= cardsFacedUp game <= Z.of_nat MAX_CARDS_ON_BOARD /\
  length (face_up game) = Z.to_nat (cardsFacedUp game).
Proof.
  intros Hr.
  destruct (reachable_board n initialTokens game Hr) as [Hlen Hn].
  split; [done|]. split; [done|]. unfold face_up.
  rewrite length_take. lia.
Qed.

End TakesAndBoard.

Section Strategies.
Import Game Hub Rules GameLib MoreRules.

(** The booleans of the four piles decide a strategy's take. *)
Ltac by_piles game :=
  generalize (pile game !!! 0%nat >? 0), (pile game !!! 1%nat >? 0),
    (pile game !!! 2%nat >? 0), (pile game !!! 3%nat >? 0);
  intros [] [] [] []; vm_compute; congruence.

Lemma shenzi_check_tokens_valid game taking :
  Shenzi.check_tokens game = Some taking ->
  is_valid_token_take game taking = true.
Proof.
  unfold Shenzi.check_tokens, can_tokens_be_taken, is_valid_token_take,
    Shenzi.check_tokens_step, NUM_COLOURS.
  cbn [seq foldl take_loop].
  destruct (negb _) eqn:Hcan; [done|]. intros [= <-]. revert Hcan.
  by_piles game.
Qed.

Lemma get_card_price_for_player_nonneg game playerId cardId :
  0 <= get_card_price_for_player game playerId cardId.
Proof.
  rewrite get_card_price_for_player_need.
  induction (seq 0 NUM_COLOURS) as [|c cs IH]; csimpl; [done|].
  unfold need at 1. lia.
Qed.

(** The state of Shenzi's search after the cards [0 .. n-1]. *)
Lemma shenzi_check_cards_loop game (n : nat) :
  let me := Z.to_nat (myId game) in
  let worth j := value (cards game !!! j) in
  let cost j := get_card_price_for_player game me j in
  let better j k :=
    worth j < worth k \/
    (worth j = worth k /\
     (cost k < cost j \/ (cost j = cost k /\ (j <= k)%nat))) in
  let c := foldl (Shenzi.check_cards_step game)
             (Shenzi.mkChoice (-1) (-1) (-1)) (seq 0 n) in
  (c = Shenzi.mkChoice (-1) (-1) (-1) /\
   forall j, (j < n)%nat -> can_player_afford_card game me j = true ->
     worth j < 0) \/
  (exists k, (k < n)%nat /\
     c = Shenzi.mkChoice (worth k) (cost k) (Z.of_nat k) /\
     can_player_afford_card game me k = true /\ 0 <= worth k /\
     forall j, (j < n)%nat -> can_player_afford_card game me j = true ->
       better j k).
Proof.
  intros me worth cost better.
  induction n as [|n IH]; cbn zeta.
  - left. split; [done|]. intros j Hj. lia.
  - rewrite seq_S, foldl_app. cbn [foldl]. cbn zeta in IH.
    set (c := foldl _ _ (seq 0 n)) in *. change (0 + n)%nat with n.
    unfold Shenzi.check_cards_step. fold me. fold (worth n). fold (cost n).
    pose proof (get_card_price_for_player_nonneg game me n) as Hcost.
    fold (cost n) in Hcost.
    destruct (can_player_afford_card game me n) eqn:Haff.
    + destruct IH as [[-> Hnone]|(k & Hk & -> & Hak & Hwk & Hbest)];
        cbn [Shenzi.highestValue Shenzi.lowestPrice Shenzi.cardToBuy].
      * destruct (Z.eqb_spec (-1) (worth n)) as [He|He].
        -- destruct (Z.eqb_spec (cost n) (-1)); [lia|].
           destruct (Z.ltb_spec (cost n) (-1)); [lia|].
           left. split; [done|]. intros j Hj Hja.
           destruct (decide (j = n)) as [->|]; [lia|]. apply Hnone; [lia|done].
        -- destruct (Z.ltb_spec (-1) (worth n)) as [Hl|Hl].
           ++ right. exists n. split; [lia|]. split; [done|]. split; [done|].
              split; [lia|]. intros j Hj Hja. unfold better.
              destruct (decide (j = n)) as [->|]; [lia|].
              specialize (Hnone j ltac:(lia) Hja). lia.
           ++ left. split; [done|]. intros j Hj Hja.
              destruct (decide (j = n)) as [->|]; [lia|].
              apply Hnone; [lia|done].
      * pose proof (get_card_price_for_player_nonneg game me k) as Hck.
        fold (cost k) in Hck.
        destruct (Z.eqb_spec (worth k) (worth n)) as [He|He].
        -- destruct (Z.eqb_spec (cost n) (cost k)) as [Hc|Hc];
             [|destruct (Z.ltb_spec (cost n) (cost k)) as [Hl|Hl]].
           ++ right. exists n. split; [lia|]. rewrite He, <- Hc.
              split; [done|]. split; [done|]. split; [lia|].
              intros j Hj Hja. unfold better.
              destruct (decide (j = n)) as [->|]; [lia|].
              specialize (Hbest j ltac:(lia) Hja). unfold better in Hbest. lia.
           ++ right. exists n. split; [lia|]. rewrite He.
              split; [done|]. split; [done|]. split; [lia|].
              intros j Hj Hja. unfold better.
              destruct (decide (j = n)) as [->|]; [lia|].
              specialize (Hbest j ltac:(lia) Hja). unfold better in Hbest. lia.
           ++ right. exists k. split; [lia|].
              split; [done|]. split; [done|]. split; [lia|].
              intros j Hj Hja. unfold better.
              destruct (decide (j = n)) as [->|]; [lia|].
              specialize (Hbest j ltac:(lia) Hja). unfold better in Hbest. lia.
        -- destruct (Z.ltb_spec (worth k) (worth n)) as [Hl|Hl].
           ++ right. exists n. split; [lia|].
              split; [done|]. split; [done|]. split; [lia|].
              intros j Hj Hja. unfold better.
              destruct (decide (j = n)) as [->|]; [lia|].
              specialize (Hbest j ltac:(lia) Hja). unfold better in Hbest. lia.
           ++ right. exists k. split; [lia|].
              split; [done|]. split; [done|]. split; [lia|].
              intros j Hj Hja. unfold better.
              destruct (decide (j = n)) as [->|]; [lia|].
              specialize (Hbest j ltac:(lia) Hja). unfold better in Hbest. lia.
    + destruct IH as [[Hc Hnone]|(k & Hk & Hc & Hak & Hwk & Hbest)].
      * left. split; [done|]. intros j Hj Hja.
        destruct (decide (j = n)) as [->|]; [congruence|].
        apply Hnone; [lia|done].
      * right. exists k. split; [lia|]. split; [done|]. split; [done|].
        split; [done|]. intros j Hj Hja.
        destruct (decide (j = n)) as [->|]; [congruence|].
        apply Hbest; [lia|done].
Qed.

(** The card Shenzi buys: among the face-up cards it can afford that are
    worth at least zero points, one worth the most points; among those,
    one of the lowest price after discounts; among those, the newest.
    It buys nothing exactly when no such card lies face up.  The tokens
    it offers are the ones [choose_tokens_to_buy_card] sets aside. *)
Theorem shenzi_buys_best_card (game : Game) :
  let me := Z.to_nat (myId game) in
  let worth j := value (cards game !!! j) in
  let cost j := get_card_price_for_player game me j in
  let candidate j :=
    (j < Z.to_nat (cardsFacedUp game))%nat /\
    can_player_afford_card game me j = true /\ 0 <= worth j in
  match Shenzi.check_cards game with
  | Some (cardId, toks) =>
      exists k, cardId = Z.of_nat k /\ candidate k /\
        toks = choose_tokens_to_buy_card game me k (replicate TOKEN_SLOTS 0) /\
        forall j, candidate j ->
          worth j < worth k \/
          (worth j = worth k /\
           (cost k < cost j \/ (cost j = cost k /\ (j <= k)%nat)))
  | None => forall j, ~ candidate j
  end.
Proof.
  intros me worth cost candidate. unfold Shenzi.check_cards.
  destruct (shenzi_check_cards_loop game (Z.to_nat (cardsFacedUp game)))
    as [[-> Hnone]|(k & Hk & -> & Hak & Hwk & Hbest)];
    cbn [Shenzi.cardToBuy].
  - change (-1 >? -1) with false. cbn iota.
    intros j (Hj & Hja & Hw). specialize (Hnone j Hj Hja). unfold worth in Hw.
    lia.
  - destruct (Z.gtb_spec (Z.of_nat k) (-1)) as [_|?]; [|lia].
    exists k. split; [done|]. split; [done|].
    rewrite Nat2Z.id. split; [done|].
    intros j (Hj & Hja & _). by apply Hbest.
Qed.

Lemma can_tokens_buy_card_chosen game me k :
  can_player_afford_card game me k = true ->
  can_tokens_buy_card game me k
    (choose_tokens_to_buy_card game me k (replicate TOKEN_SLOTS 0)) = true.
Proof.
  intros Haff. unfold can_tokens_buy_card. rewrite Haff. cbn [negb].
  apply forallb_forall. intros i _. apply Z.eqb_refl.
Qed.

Lemma purchase_accepted game me k :
  (k < Z.to_nat (cardsFacedUp game))%nat ->
  can_player_afford_card game me k = true ->
  is_Some (handle_input game me
             (MsgPurchase (Z.of_nat k)
                (choose_tokens_to_buy_card game me k
                   (replicate TOKEN_SLOTS 0)))).
Proof.
  intros Hk Haff. cbn [handle_input].
  destruct (Z.ltb_spec (Z.of_nat k) 0); [lia|].
  destruct (Z.geb_spec (Z.of_nat k) (cardsFacedUp game)); [lia|].
  rewrite Nat2Z.id, can_tokens_buy_card_chosen by done. done.
Qed.

(** Shenzi's move is valid in the state it was chosen in: the card it
    asks for lies face up and is paid for with exactly the tokens the hub
    expects, and the tokens it asks for are three tokens of piles that
    are not empty. *)
Lemma shenzi_choose_move_valid (game : Game) :
  is_Some (handle_input game (Z.to_nat (myId game))
             (Shenzi.choose_move game)).
Proof.
  unfold Shenzi.choose_move, Shenzi.check_cards.
  destruct (shenzi_check_cards_loop game (Z.to_nat (cardsFacedUp game)))
    as [[-> _]|(k & Hk & -> & Hak & _)]; cbn [Shenzi.cardToBuy].
  - change (-1 >? -1) with false. cbn iota.
    destruct (Shenzi.check_tokens game) as [taking|] eqn:Htake; [|done].
    cbn [handle_input]. by rewrite (shenzi_check_tokens_valid game taking).
  - destruct (Z.gtb_spec (Z.of_nat k) (-1)) as [_|?]; [|lia].
    rewrite Nat2Z.id. by apply purchase_accepted.
Qed.

Lemma banzai_check_tokens_valid game taking :
  Banzai.check_tokens game = Some taking ->
  is_valid_token_take game taking = true.
Proof.
  unfold Banzai.check_tokens, can_tokens_be_taken, is_valid_token_take,
    Banzai.check_tokens_step, NUM_COLOURS.
  cbn [seq foldl take_loop].
  destruct (negb _) eqn:Hcan; [done|].
  destruct (_ >=? 3); cbn [orb]; [done|]. intros [= <-]. revert Hcan.
  change (Banzai.order !!! 0%nat) with 2%nat.
  change (Banzai.order !!! 1%nat) with 1%nat.
  change (Banzai.order !!! 2%nat) with 0%nat.
  change (Banzai.order !!! 3%nat) with 3%nat.
  by_piles game.
Qed.

Lemma get_wilds_needed_for_card_neg game playerId cardId :
  get_wilds_needed_for_card game playerId cardId
  = - wilds_required (cards game !!! cardId) (players game !!! playerId).
Proof.
  unfold get_wilds_needed_for_card, wilds_required.
  rewrite get_wilds_needed_loop. lia.
Qed.

(** The state of Banzai's search after the cards [a + m - 1] down to [a]. *)
Lemma banzai_check_cards_loop game (m : nat) : forall a : nat,
  let me := Z.to_nat (myId game) in
  let cost j := get_card_price_for_player game me j in
  let wilds j := get_wilds_needed_for_card game me j in
  let candidate j :=
    can_player_afford_card game me j = true /\
    0 < value (cards game !!! j) in
  let better j k :=
    cost j < cost k \/
    (cost j = cost k /\
     (wilds j < wilds k \/ (wilds j = wilds k /\ (k <= j)%nat))) in
  let c := foldl (Banzai.check_cards_step game)
             (Banzai.mkChoice (-1) (-1) (-1)) (reverse (seq a m)) in
  (c = Banzai.mkChoice (-1) (-1) (-1) /\
   forall j, (a <= j < a + m)%nat -> ~ candidate j) \/
  (exists k, (a <= k < a + m)%nat /\
     c = Banzai.mkChoice (wilds k) (cost k) (Z.of_nat k) /\ candidate k /\
     forall j, (a <= j < a + m)%nat -> candidate j -> better j k).
Proof.
  intros a me cost wilds candidate better. revert a.
  induction m as [|m IH]; intros a; cbn zeta.
  - left. split; [done|]. intros j Hj. lia.
  - cbn [seq]. rewrite reverse_cons, foldl_app. cbn [foldl].
    specialize (IH (S a)). cbn zeta in IH.
    set (c := foldl _ _ (reverse (seq (S a) m))) in *.
    unfold Banzai.check_cards_step. fold me. fold (cost a). fold (wilds a).
    pose proof (get_card_price_for_player_nonneg game me a) as Hcost.
    fold (cost a) in Hcost.
    assert (Hcand : candidate a <->
              can_player_afford_card game me a
              && (value (cards game !!! a) >? 0) = true).
    { unfold candidate. rewrite andb_true_iff, Z.gtb_lt. done. }
    destruct (can_player_afford_card game me a
              && (value (cards game !!! a) >? 0)).
    + assert (Ha : candidate a) by by apply Hcand.
      destruct IH as [[-> Hnone]|(k & Hk & -> & Hck & Hbest)];
        cbn [Banzai.mostWilds Banzai.highestPrice Banzai.cardToBuy].
      * destruct (Z.eqb_spec (-1) (cost a)); [lia|].
        destruct (Z.gtb_spec (cost a) (-1)); [|lia].
        right. exists a. split; [lia|]. split; [done|]. split; [done|].
        intros j Hj Hcj. unfold better.
        destruct (decide (j = a)) as [->|]; [lia|].
        destruct (Hnone j); [lia|done].
      * destruct (Z.eqb_spec (cost k) (cost a)) as [He|He].
        -- destruct (Z.eqb_spec (wilds a) (wilds k)) as [Hw|Hw];
             [|destruct (Z.gtb_spec (wilds a) (wilds k)) as [Hl|Hl]].
           ++ right. exists a. split; [lia|]. rewrite He, <- Hw.
              split; [done|]. split; [done|].
              intros j Hj Hcj. unfold better.
              destruct (decide (j = a)) as [->|]; [lia|].
              specialize (Hbest j ltac:(lia) Hcj). unfold better in Hbest.
              lia.
           ++ right. exists a. split; [lia|]. rewrite He.
              split; [done|]. split; [done|].
              intros j Hj Hcj. unfold better.
              destruct (decide (j = a)) as [->|]; [lia|].
              specialize (Hbest j ltac:(lia) Hcj). unfold better in Hbest.
              lia.
           ++ right. exists k. split; [lia|]. split; [done|]. split; [done|].
              intros j Hj Hcj. unfold better.
              destruct (decide (j = a)) as [->|]; [lia|].
              specialize (Hbest j ltac:(lia) Hcj). unfold better in Hbest.
              lia.
        -- destruct (Z.gtb_spec (cost a) (cost k)) as [Hl|Hl].
           ++ right. exists a. split; [lia|]. split; [done|]. split; [done|].
              intros j Hj Hcj. unfold better.
              destruct (decide (j = a)) as [->|]; [lia|].
              specialize (Hbest j ltac:(lia) Hcj). unfold better in Hbest.
              lia.
           ++ right. exists k. split; [lia|]. split; [done|]. split; [done|].
              intros j Hj Hcj. unfold better.
              destruct (decide (j = a)) as [->|]; [lia|].
              specialize (Hbest j ltac:(lia) Hcj). unfold better in Hbest.
              lia.
    + assert (Ha : ~ candidate a) by (rewrite Hcand; done).
      destruct IH as [[Hc Hnone]|(k & Hk & Hc & Hck & Hbest)].
      * left. split; [done|]. intros j Hj.
        destruct (decide (j = a)) as [->|]; [done|]. apply Hnone. lia.
      * right. exists k. split; [lia|]. split; [done|]. split; [done|].
        intros j Hj Hcj. destruct (decide (j = a)) as [->|]; [done|].
        apply Hbest; [lia|done].
Qed.

(** The card Banzai buys: among the face-up cards it can afford that are
    worth more than zero points, one of the highest price after
    discounts; among those, one for which [get_wilds_needed_for_card] is
    greatest, which is one that needs the fewest wild tokens since that
    function counts them below zero; among those, the oldest.  It buys
    nothing exactly when no such card lies face up. *)
Theorem banzai_card_choice (game : Game) :
  let me := Z.to_nat (myId game) in
  let cost j := get_card_price_for_player game me j in
  let wilds j := wilds_required (cards game !!! j) (players game !!! me) in
  let candidate j :=
    (j < Z.to_nat (cardsFacedUp game))%nat /\
    can_player_afford_card game me j = true /\
    0 < value (cards game !!! j) in
  match Banzai.check_cards game with
  | Some (cardId, toks) =>
      exists k, cardId = Z.of_nat k /\ candidate k /\
        toks = choose_tokens_to_buy_card game me k (replicate TOKEN_SLOTS 0) /\
        forall j, candidate j ->
          cost j < cost k \/
          (cost j = cost k /\
           (wilds k < wilds j \/ (wilds j = wilds k /\ (k <= j)%nat)))
  | None => forall j, ~ candidate j
  end.
Proof.
  intros me cost wilds candidate. unfold Banzai.check_cards.
  destruct (banzai_check_cards_loop game (Z.to_nat (cardsFacedUp game)) 0)
    as [[-> Hnone]|(k & Hk & -> & Hck & Hbest)];
    cbn [Banzai.cardToBuy].
  - change (-1 >? -1) with false. cbn iota.
    intros j (Hj & Hcj). apply (Hnone j); [lia|done].
  - destruct (Z.gtb_spec (Z.of_nat k) (-1)) as [_|?]; [|lia].
    exists k. split; [done|]. split; [split; [lia|done]|].
    rewrite Nat2Z.id. split; [done|].
    intros j (Hj & Hcj). specialize (Hbest j ltac:(lia) Hcj).
    rewrite !get_wilds_needed_for_card_neg in Hbest.
    unfold wilds, cost, me. lia.
Qed.

(** Banzai's move is valid in the state it was chosen in. *)
Lemma banzai_choose_move_valid (game : Game) :
  is_Some (handle_input game (Z.to_nat (myId game))
             (Banzai.choose_move game)).
Proof.
  unfold Banzai.choose_move.
  destruct (Banzai.check_tokens game) as [taking|] eqn:Htake.
  { cbn [handle_input]. by rewrite (banzai_check_tokens_valid game taking). }
  unfold Banzai.check_cards.
  destruct (banzai_check_cards_loop game (Z.to_nat (cardsFacedUp game)) 0)
    as [[-> _]|(k & Hk & -> & [Hak _] & _)]; cbn [Banzai.cardToBuy].
  - change (-1 >? -1) with false. by cbn iota.
  - destruct (Z.gtb_spec (Z.of_nat k) (-1)) as [_|?]; [|lia].
    rewrite Nat2Z.id. apply purchase_accepted; [lia|done].
Qed.

Lemma ed_check_tokens_valid game cardToBuy taking :
  Ed.check_tokens game cardToBuy = Some taking ->
  is_valid_token_take game taking = true.
Proof.
  unfold Ed.check_tokens, can_tokens_be_taken, is_valid_token_take,
    Ed.needed_step, Ed.normal_step, NUM_COLOURS.
  cbn [seq foldl take_loop].
  destruct (negb _) eqn:Hcan; [done|]. intros [= <-]. revert Hcan.
  change (Ed.order !!! 0%nat) with 2%nat.
  change (Ed.order !!! 1%nat) with 3%nat.
  change (Ed.order !!! 2%nat) with 1%nat.
  change (Ed.order !!! 3%nat) with 0%nat.
  set (card := cards game !!! Z.to_nat cardToBuy).
  set (me := players game !!! Z.to_nat (myId game)).
  generalize
    (price card !!! 0%nat - (discounts me !!! 0%nat + tokens me !!! 0%nat)
     >? 0),
    (price card !!! 1%nat - (discounts me !!! 1%nat + tokens me !!! 1%nat)
     >? 0),
    (price card !!! 2%nat - (discounts me !!! 2%nat + tokens me !!! 2%nat)
     >? 0),
    (price card !!! 3%nat - (discounts me !!! 3%nat + tokens me !!! 3%nat)
     >? 0), (cardToBuy >? -1).
  intros [] [] [] [] []; by_piles game.
Qed.

Lemma identified_ext game (V V' : Z -> nat -> Prop) c :
  (forall p j, V p j <-> V' p j) -> identified game V c ->
  identified game V' c.
Proof.
  intros Hext [[-> Hnone]|(k & Hk & -> & Hv & (p & Hp & Ha) & Hbest)].
  - left. split; [done|]. intros p j Hpj. apply (Hnone p j). by apply Hext.
  - right. exists k. split; [done|]. split; [done|]. split; [done|]. split.
    + exists p. split; [by apply Hext|done].
    + intros q j Hqj. apply (Hbest q j). by apply Hext.
Qed.

Lemma identify_step_identified game (V : Z -> nat -> Prop) p c j :
  (j < Z.to_nat (cardsFacedUp game))%nat -> identified game V c ->
  identified game (fun q i => V q i \/ (q = p /\ i = j))
    (Ed.identify_step game p c j).
Proof.
  intros Hj Hc. unfold Ed.identify_step.
  destruct (can_player_afford_card game (Z.to_nat p) j) eqn:Haff.
  - destruct Hc as [[-> Hnone]|(k & Hk & -> & Hv & (q & Hq & Ha) & Hbest)];
      cbn [Ed.highestValue].
    + destruct (Z.geb_spec (value (cards game !!! j)) (-1)) as [Hge|Hlt].
      * right. exists j. split; [done|]. split; [done|]. split; [lia|]. split.
        -- exists p. split; [by right|done].
        -- intros q i [Hqi|[-> ->]] Hai; [|lia].
           specialize (Hnone q i Hqi Hai). lia.
      * left. split; [done|]. intros q i [Hqi|[-> ->]] Hai; [|lia].
        by apply (Hnone q i).
    + destruct (Z.geb_spec (value (cards game !!! j))
                  (value (cards game !!! k))) as [Hge|Hlt].
      * right. exists j. split; [done|]. split; [done|]. split; [lia|]. split.
        -- exists p. split; [by right|done].
        -- intros r i [Hri|[-> ->]] Hai; [|lia].
           specialize (Hbest r i Hri Hai). lia.
      * right. exists k. split; [done|]. split; [done|]. split; [done|].
        split.
        -- exists q. split; [by left|done].
        -- intros r i [Hri|[-> ->]] Hai; [|lia]. by apply (Hbest r i).
  - revert Hc. destruct 1
      as [[-> Hnone]|(k & Hk & -> & Hv & (q & Hq & Ha) & Hbest)].
    + left. split; [done|]. intros q i [Hqi|[-> ->]] Hai; [|congruence].
      by apply (Hnone q i).
    + right. exists k. split; [done|]. split; [done|]. split; [done|]. split.
      * exists q. split; [by left|done].
      * intros r i [Hri|[-> ->]] Hai; [|congruence]. by apply (Hbest r i).
Qed.

Lemma identify_cards_identified game p (l : list nat) :
  forall (V : Z -> nat -> Prop) c,
  (forall j, j ∈ l -> (j < Z.to_nat (cardsFacedUp game))%nat) ->
  identified game V c ->
  identified game (fun q i => V q i \/ (q = p /\ i ∈ l))
    (foldl (Ed.identify_step game p) c l).
Proof.
  induction l as [|j l IH]; intros V c Hl Hc; cbn [foldl].
  - revert Hc. apply identified_ext. intros q i. split; [by left|].
    intros [?|[_ H]]; [done|]. by apply elem_of_nil in H.
  - apply (identify_step_identified game V p c j) in Hc;
      [|apply Hl; by left].
    apply IH in Hc; [|intros i Hi; apply Hl; by right].
    revert Hc. apply identified_ext. intros q i.
    rewrite elem_of_cons. tauto.
Qed.

(** One opponent: every face-up card, newest first. *)
Lemma identify_player_identified game p (V : Z -> nat -> Prop) c :
  identified game V c ->
  identified game
    (fun q i => V q i \/ (q = p /\ (i < Z.to_nat (cardsFacedUp game))%nat))
    (foldl (Ed.identify_step game p) c
       (reverse (seq 0 (Z.to_nat (cardsFacedUp game))))).
Proof.
  intros Hc.
  apply (identify_cards_identified game p
           (reverse (seq 0 (Z.to_nat (cardsFacedUp game))))) in Hc.
  - revert Hc. apply identified_ext. intros q i.
    rewrite elem_of_reverse, elem_of_seq.
    split; (intros [?|[? ?]]; [by left|right; split; [done|lia]]).
  - intros j. rewrite elem_of_reverse, elem_of_seq. lia.
Qed.

(** The opponents after this player, from [p] down. *)
Lemma identify_loop_after game (fuel : nat) :
  forall p c (V : Z -> nat -> Prop),
  0 <= myId game <= p -> (Z.to_nat (p - myId game) < fuel)%nat ->
  identified game V c ->
  exists c', Ed.identify_loop fuel game p c = Some c' /\
    identified game
      (fun q i => V q i \/ (myId game < q <= p /\
                            (i < Z.to_nat (cardsFacedUp game))%nat)) c'.
Proof.
  induction fuel as [|fuel IH]; intros p c V Hp Hfuel Hc; [lia|].
  cbn [Ed.identify_loop].
  destruct (Z.eqb_spec p (myId game)) as [->|Hne].
  - exists c. split; [done|]. revert Hc. apply identified_ext.
    intros q i. split; [by left|]. intros [?|[? _]]; [done|lia].
  - destruct (Z.ltb_spec p 0) as [?|_]; [lia|]. cbn [andb].
    apply (identify_player_identified game p) in Hc.
    destruct (IH (p - 1) _ _ ltac:(lia) ltac:(lia) Hc) as (c' & -> & Hc').
    exists c'. split; [done|]. revert Hc'. apply identified_ext.
    intros q i. split.
    + intros [[?|[-> ?]]|[? ?]]; [by left|right; split; [lia|done]..].
    + intros [?|[? ?]]; [by left; left|].
      destruct (decide (q = p)) as [->|]; [left; by right|].
      right. split; [lia|done].
Qed.

(** The opponents before this player, from [p] down, then the rest. *)
Lemma identify_loop_before game (fuel : nat) :
  forall p c (V : Z -> nat -> Prop),
  -1 <= p < myId game -> myId game < numPlayers game ->
  (Z.to_nat (p + 1 + (numPlayers game - myId game)) < fuel)%nat ->
  identified game V c ->
  exists c', Ed.identify_loop fuel game p c = Some c' /\
    identified game
      (fun q i => V q i \/
         ((0 <= q <= p \/ myId game < q < numPlayers game) /\
          (i < Z.to_nat (cardsFacedUp game))%nat)) c'.
Proof.
  induction fuel as [|fuel IH]; intros p c V Hp Hme Hfuel Hc; [lia|].
  cbn [Ed.identify_loop].
  destruct (Z.eqb_spec p (myId game)) as [?|_]; [lia|].
  destruct (Z.ltb_spec p 0) as [Hneg|Hpos]; cbn [andb].
  - destruct (Z.eqb_spec (myId game) (numPlayers game - 1)) as [Hlast|Hlast].
    + exists c. split; [done|]. revert Hc. apply identified_ext.
      intros q i. split; [by left|]. intros [?|[? _]]; [done|lia].
    + apply (identify_player_identified game (numPlayers game - 1)) in Hc.
      destruct (identify_loop_after game fuel (numPlayers game - 1 - 1) _ _
                  ltac:(lia) ltac:(lia) Hc) as (c' & -> & Hc').
      exists c'. split; [done|]. revert Hc'. apply identified_ext.
      intros q i. split.
      * intros [[?|[-> ?]]|[? ?]]; [by left|right; split; [lia|done]..].
      * intros [?|[? ?]]; [by left; left|].
        destruct (decide (q = numPlayers game - 1)) as [->|];
          [left; by right|].
        right. split; [lia|done].
  - apply (identify_player_identified game p) in Hc.
    destruct (IH (p - 1) _ _ ltac:(lia) Hme ltac:(lia) Hc) as (c' & -> & Hc').
    exists c'. split; [done|]. revert Hc'. apply identified_ext.
    intros q i. split.
    + intros [[?|[-> ?]]|[? ?]]; [by left|right; split; [lia|done]..].
    + intros [?|[? ?]]; [by left; left|].
      destruct (decide (q = p)) as [->|]; [left; by right|].
      right. split; [lia|done].
Qed.

Lemma identify_card_identified game (fuel : nat) :
  0 <= myId game < numPlayers game ->
  (Z.to_nat (numPlayers game) < fuel)%nat ->
  exists c, Ed.identify_loop fuel game (myId game - 1)
              (Ed.mkChoice (-1) (-1)) = Some c /\
    identified game
      (fun q i => (0 <= q < numPlayers game /\ q <> myId game) /\
                  (i < Z.to_nat (cardsFacedUp game))%nat) c.
Proof.
  intros Hme Hfuel.
  destruct (identify_loop_before game fuel (myId game - 1)
              (Ed.mkChoice (-1) (-1)) (fun _ _ => False))
    as (c & Hrun & Hc); [lia|lia|lia| |].
  - left. split; [done|]. intros p j [].
  - exists c. split; [done|]. revert Hc. apply identified_ext.
    intros q i. split.
    + intros [[]|[? ?]]. split; [lia|done].
    + intros [? ?]. right. split; [lia|done].
Qed.

(** With one unit of fuel for each player and one more, the search of
    [identify_card] ends, and it returns a face-up card that some
    opponent can afford and that is worth at least as many points as
    every face-up card any opponent can afford; it returns -1 exactly
    when no opponent can afford a face-up card worth -1 or more. *)
Theorem ed_identifies_best_card (game : Game) (fuel : nat) :
  0 <= myId game < numPlayers game ->
  (Z.to_nat (numPlayers game) < fuel)%nat ->
  let target p j :=
    (0 <= p < numPlayers game /\ p <> myId game) /\
    (j < Z.to_nat (cardsFacedUp game))%nat /\
    can_player_afford_card game (Z.to_nat p) j = true /\
    -1 <= value (cards game !!! j) in
  exists cardToBuy, Ed.identify_card fuel game = Some cardToBuy /\
    ((cardToBuy = -1 /\ forall p j, ~ target p j) \/
     (exists k, cardToBuy = Z.of_nat k /\ (exists p, target p k) /\
        forall p j, target p j ->
          value (cards game !!! j) <= value (cards game !!! k))).
Proof.
  intros Hme Hfuel target. unfold Ed.identify_card.
  destruct (identify_card_identified game fuel Hme Hfuel)
    as (c & -> & [[-> Hnone]|(k & Hk & -> & Hv & (p & [Hp _] & Ha) & Hbest)]);
    cbn [fmap option_fmap option_map Ed.cardToBuy].
  - exists (-1). split; [done|]. left. split; [done|].
    intros p j (Hp & Hj & Ha & Hv). specialize (Hnone p j (conj Hp Hj) Ha).
    lia.
  - exists (Z.of_nat k). split; [done|]. right. exists k. split; [done|].
    split.
    + exists p. done.
    + intros q j (Hq & Hj & Haj & _). by apply (Hbest q j).
Qed.

(** Ed's move is valid in the state it was chosen in. *)
Lemma ed_choose_move_valid (game : Game) (fuel : nat) :
  0 <= myId game < numPlayers game ->
  (Z.to_nat (numPlayers game) < fuel)%nat ->
  exists m, Ed.choose_move fuel game = Some m /\
    is_Some (handle_input game (Z.to_nat (myId game)) m).
Proof.
  intros Hme Hfuel. unfold Ed.choose_move, Ed.identify_card.
  destruct (identify_card_identified game fuel Hme Hfuel) as (c & -> & Hc).
  cbn [fmap option_fmap option_map]. eexists. split; [done|].
  unfold Ed.choose_move_for.
  assert (Htake : is_Some (handle_input game (Z.to_nat (myId game))
            match Ed.check_tokens game (Ed.cardToBuy c) with
            | Some taking => MsgTake taking
            | None => MsgWild
            end)).
  { destruct (Ed.check_tokens game (Ed.cardToBuy c)) as [taking|] eqn:Htake;
      [|done].
    cbn [handle_input].
    by rewrite (ed_check_tokens_valid game (Ed.cardToBuy c) taking). }
  destruct Hc as [[-> _]|(k & Hk & -> & _)]; cbn [Ed.cardToBuy] in *.
  - change (-1 >? -1) with false. by cbn [andb].
  - destruct (Z.gtb_spec (Z.of_nat k) (-1)) as [_|?]; [|lia]. cbn [andb].
    rewrite Nat2Z.id.
    destruct (can_player_afford_card game (Z.to_nat (myId game)) k) eqn:Ha;
      [by apply purchase_accepted|done].
Qed.

End Strategies.

(** * The players' copies of the game *)

Section Messages.
Import Game Hub Rules GameLib MoreRules HubSends.

Lemma player_letter_back (playerId numPlayers : Z) :
  0 <= playerId < numPlayers -> numPlayers <= MAX_PLAYERS ->
  is_valid_player_char (player_int_to_char playerId) numPlayers = true /\
  player_char_to_int (player_int_to_char playerId) = playerId.
Proof.
  unfold MAX_PLAYERS, is_valid_player_char, player_char_to_int,
    player_int_to_char, to_char. intros Hp Hn.
  rewrite Z.mod_small by lia. split; [|lia].
  apply andb_true_iff. split; [apply Z.geb_le|apply Z.ltb_lt]; lia.
Qed.

Lemma printed_all (n : nat) (array : list Z) :
  length array = n -> printed n array = array.
Proof.
  intros <-. unfold printed. apply list_eq. intros i.
  rewrite list_lookup_fmap.
  destruct (decide (i < length array)%nat) as [Hi|Hi].
  - rewrite lookup_seq_lt by done. cbn.
    symmetry. by apply list_lookup_lookup_total_lt.
  - rewrite lookup_seq_ge by lia. symmetry. apply lookup_ge_None. lia.
Qed.

Lemma create_card_back (card : Card) :
  card_ok card ->
  PlayerProcess.create_card (get_card_char (discount card)) (value card)
    (printed NUM_COLOURS (price card)) = Some card.
Proof.
  intros [Hlen Hcol]. rewrite printed_all by done.
  unfold PlayerProcess.create_card.
  destruct card as [[] v p]; cbn in *; done.
Qed.

Lemma face_up_add_card_to_board game card :
  board_ok game -> cardsFacedUp game < Z.of_nat MAX_CARDS_ON_BOARD ->
  board_ok (add_card_to_board game card) /\
  face_up (add_card_to_board game card) = face_up game ++ [card].
Proof.
  intros [Hlen Hn] Hfull. unfold board_ok, face_up, add_card_to_board.
  unfold MAX_CARDS_ON_BOARD in *.
  cbn [cards cardsFacedUp set_cards set_cardsFacedUp].
  rewrite length_insert.
  replace (Z.to_nat (cardsFacedUp game + 1))
    with (S (Z.to_nat (cardsFacedUp game))) by lia.
  rewrite (take_S_r _ _ card) by (apply list_lookup_insert_eq; lia).
  rewrite take_insert_ge by lia. split; [split; [done|lia]|done].
Qed.

Lemma same_table_add_card hub view card :
  same_table hub view -> board_ok hub -> board_ok view ->
  cardsFacedUp hub < Z.of_nat MAX_CARDS_ON_BOARD ->
  same_table (add_card_to_board hub card) (add_card_to_board view card) /\
  board_ok (add_card_to_board view card).
Proof.
  intros (Hn & Hp & Hpl & Hc & Hf) Hbh Hbv Hfull.
  destruct (face_up_add_card_to_board hub card Hbh Hfull) as [_ Fh].
  destruct (face_up_add_card_to_board view card Hbv) as [Bv Fv]; [lia|].
  split; [|done]. unfold same_table. rewrite Fh, Fv, Hf.
  unfold add_card_to_board.
  cbn [numPlayers pile players cardsFacedUp set_cards set_cardsFacedUp].
  rewrite Hc. done.
Qed.

Lemma same_table_took_wild hub view playerId :
  same_table hub view ->
  same_table (player_took_wild hub playerId)
    (player_took_wild view playerId).
Proof.
  intros (Hn & Hp & Hpl & Hc & Hf). unfold same_table, player_took_wild.
  unfold face_up in *.
  cbn [numPlayers pile players cardsFacedUp cards set_players].
  rewrite Hpl. done.
Qed.

Lemma same_table_took_tokens hub view playerId toks :
  same_table hub view ->
  same_table (player_took_tokens hub playerId toks)
    (player_took_tokens view playerId toks).
Proof.
  unfold player_took_tokens. generalize (seq 0 NUM_COLOURS). intros cs.
  revert hub view. induction cs as [|c cs IH]; intros hub view H;
    cbn [foldl]; [done|].
  apply IH. destruct H as (Hn & Hp & Hpl & Hc & Hf).
  unfold same_table, took_step. unfold face_up in *.
  cbn [numPlayers pile players cardsFacedUp cards set_players set_pile].
  rewrite Hp, Hpl. done.
Qed.

Lemma player_purchased_card_numPlayers game buyer cardId toks :
  numPlayers (player_purchased_card game buyer cardId toks)
  = numPlayers game.
Proof.
  assert (H : forall cs g, numPlayers (foldl (purchase_step buyer toks) g cs)
                           = numPlayers g).
  { induction cs as [|c cs IH]; intros g; cbn [foldl]; [done|].
    rewrite IH. unfold purchase_step. by case_decide. }
  specialize (H (seq 0 TOKEN_SLOTS) (take_card_from_board game cardId)).
  unfold player_purchased_card.
  generalize dependent (foldl (purchase_step buyer toks)
                          (take_card_from_board game cardId)
                          (seq 0 TOKEN_SLOTS)).
  intros g2 H. cbn [numPlayers set_players]. by rewrite H.
Qed.

Lemma face_up_lookup game cardId :
  Z.of_nat cardId < cardsFacedUp game ->
  face_up game !!! cardId = cards game !!! cardId.
Proof.
  intros Hc. unfold face_up. rewrite !list_lookup_total_alt.
  rewrite lookup_take_lt by lia. done.
Qed.

Lemma same_table_purchased hub view buyer cardId toks :
  same_table hub view -> board_ok hub -> board_ok view ->
  Z.of_nat cardId < cardsFacedUp hub ->
  let hub' := player_purchased_card hub buyer cardId toks in
  let view' := player_purchased_card view buyer cardId toks in
  same_table hub' view' /\ board_ok hub' /\ board_ok view' /\
  topOfDeck hub' = topOfDeck hub.
Proof.
  intros (Hn & Hp & Hpl & Hc & Hf) Hbh Hbv Hcard hub' view'.
  destruct (face_up_take_card_from_board hub cardId Hbh Hcard) as [Bh Fh].
  destruct (face_up_take_card_from_board view cardId Hbv) as [Bv Fv]; [lia|].
  destruct (player_purchased_card_fields hub buyer cardId toks)
    as (F1 & C1 & L1 & P1).
  destruct (player_purchased_card_fields view buyer cardId toks)
    as (F2 & C2 & L2 & P2).
  pose proof (player_purchased_card_numPlayers hub buyer cardId toks) as N1.
  pose proof (player_purchased_card_numPlayers view buyer cardId toks) as N2.
  pose proof (player_purchased_card_deck hub buyer cardId toks) as D1.
  assert (Hcard' : cards hub !!! cardId = cards view !!! cardId).
  { rewrite <- !face_up_lookup by lia. by rewrite Hf. }
  fold hub' in F1, C1, L1, P1, N1, D1. fold view' in F2, C2, L2, P2, N2.
  clearbody hub' view'.
  assert (Fh' : face_up hub' = delete cardId (face_up hub)).
  { rewrite <- Fh. unfold face_up. by rewrite C1, F1. }
  assert (Fv' : face_up view' = delete cardId (face_up view)).
  { rewrite <- Fv. unfold face_up. by rewrite C2, F2. }
  split; [|split; [|split; [|done]]].
  - unfold same_table.
    rewrite N1, N2, L1, L2, P1, P2, F1, F2, Fh', Fv', Hcard', Hp, Hpl, Hc, Hf.
    done.
  - destruct Bh. unfold board_ok. by rewrite C1, F1.
  - destruct Bv. unfold board_ok. by rewrite C2, F2.
Qed.

Lemma take_card_from_deck_followed hub view :
  same_table hub view -> board_ok hub -> board_ok view ->
  Forall card_ok (topOfDeck hub) ->
  exists view',
    PlayerProcess.run_game_loop view (take_card_from_deck_sends hub)
    = Some view' /\
    same_table (take_card_from_deck hub) view' /\
    board_ok (take_card_from_deck hub) /\ board_ok view' /\
    Forall card_ok (topOfDeck (take_card_from_deck hub)).
Proof.
  intros Hsame Hbh Hbv Hdeck.
  unfold take_card_from_deck, take_card_from_deck_sends.
  case_decide as Hfull; [by exists view|].
  destruct (topOfDeck hub) as [|card next] eqn:Hd;
    [exists view; by rewrite Hd|].
  apply Forall_cons in Hdeck as [Hcard Hnext].
  assert (Hlt : cardsFacedUp hub < Z.of_nat MAX_CARDS_ON_BOARD)
    by (destruct Hbh as [_ ?]; lia).
  destruct (same_table_add_card hub view card Hsame Hbh Hbv Hlt) as [Hs Bv].
  destruct (face_up_add_card_to_board hub card Hbh Hlt) as [Bh _].
  exists (add_card_to_board view card).
  cbn [PlayerProcess.run_game_loop PlayerProcess.handle_input].
  unfold PlayerProcess.handle_newcard. rewrite create_card_back by done.
  destruct Hsame as (_ & _ & _ & Hc & _).
  destruct (Z.eqb_spec (cardsFacedUp view) (Z.of_nat MAX_CARDS_ON_BOARD));
    [lia|].
  split; [done|]. split; [|split; [|split; [done|done]]].
  - destruct Hs as (? & ? & ? & ? & ?). unfold same_table, face_up in *.
    by cbn [numPlayers pile players cardsFacedUp cards].
  - destruct Bh. by split.
Qed.

Lemma run_game_loop_app view inputs inputs' :
  PlayerProcess.run_game_loop view (inputs ++ inputs')
  = PlayerProcess.run_game_loop view inputs
    ≫= fun view' => PlayerProcess.run_game_loop view' inputs'.
Proof.
  revert view. induction inputs as [|m inputs IH]; intros view; [done|].
  cbn [app PlayerProcess.run_game_loop].
  destruct (PlayerProcess.handle_input view m); [apply IH|done].
Qed.

(** A player that has the same table as the hub still has it after the
    lines the hub sends for an accepted move: it takes every one of
    them as well-formed, and applies the same change.  The cards of the
    deck are cards as the deck file gives them, and no game has more
    than 26 players. *)
Theorem player_follows_move
    (hub view hub' : Game) (playerId : nat) (m : Move) :
  same_table hub view -> board_ok hub -> board_ok view ->
  Forall card_ok (topOfDeck hub) -> move_sized m ->
  Z.of_nat playerId < numPlayers hub -> numPlayers hub <= MAX_PLAYERS ->
  Hub.handle_input hub playerId m = Some hub' ->
  exists view',
    PlayerProcess.run_game_loop view (handle_input_sends hub playerId m)
    = Some view' /\
    same_table hub' view' /\ board_ok hub' /\ board_ok view' /\
    Forall card_ok (topOfDeck hub').
Proof.
  intros Hsame Hbh Hbv Hdeck Hsize Hpid Hmax.
  destruct (player_letter_back (Z.of_nat playerId) (numPlayers hub))
    as [Hvalid Hback]; [lia|done|].
  pose proof Hsame as (Hn & _ & _ & Hc & _).
  destruct m as [|toks|cardId toks];
    cbn [Hub.handle_input handle_input_sends move_sized] in *.
  - intros [= <-]. exists (player_took_wild view playerId).
    cbn [PlayerProcess.run_game_loop PlayerProcess.handle_input].
    unfold PlayerProcess.handle_wild_take.
    rewrite <- Hn, Hvalid, Hback, Nat2Z.id. cbn [negb].
    split; [done|]. split; [by apply same_table_took_wild|]. done.
  - destruct (is_valid_token_take hub toks); cbn [negb]; [|done].
    intros [= <-]. exists (player_took_tokens view playerId toks).
    cbn [PlayerProcess.run_game_loop PlayerProcess.handle_input].
    unfold PlayerProcess.handle_token_take.
    rewrite <- Hn, Hvalid, Hback, Nat2Z.id, printed_all by done. cbn [negb].
    pose proof (same_table_took_tokens hub view playerId toks Hsame)
      as Hs.
    split; [done|]. split; [done|].
    assert (Hkeep : forall g,
              cards (player_took_tokens g playerId toks) = cards g /\
              cardsFacedUp (player_took_tokens g playerId toks)
              = cardsFacedUp g /\
              topOfDeck (player_took_tokens g playerId toks) = topOfDeck g).
    { intros g. unfold player_took_tokens.
      generalize (seq 0 NUM_COLOURS). intros cs. revert g.
      induction cs as [|c cs IH]; intros g; cbn [foldl]; [done|].
      destruct (IH (took_step playerId toks g c)) as (-> & -> & ->). done. }
    destruct (Hkeep hub) as (C1 & F1 & D1).
    destruct (Hkeep view) as (C2 & F2 & _).
    unfold board_ok. rewrite C1, F1, C2, F2, D1. done.
  - destruct (Z.ltb_spec cardId 0) as [?|Hc0]; [done|].
    destruct (Z.geb_spec cardId (cardsFacedUp hub)) as [?|Hc1]; [done|].
    cbn [orb].
    destruct (can_tokens_buy_card hub playerId (Z.to_nat cardId) toks);
      cbn [negb]; [|done].
    intros [= <-].
    destruct (same_table_purchased hub view playerId (Z.to_nat cardId) toks)
      as (Hs & Bh & Bv & Hd); [done|done|done|lia|].
    set (hub1 := player_purchased_card hub playerId (Z.to_nat cardId) toks)
      in *.
    set (view1 := player_purchased_card view playerId (Z.to_nat cardId) toks)
      in *.
    clearbody hub1.
    destruct (take_card_from_deck_followed hub1 view1 Hs Bh Bv)
      as (view' & Hrun & Hfinal); [by rewrite Hd|].
    exists view'. split; [|done].
    cbn [PlayerProcess.run_game_loop PlayerProcess.handle_input].
    unfold PlayerProcess.handle_card_purchased.
    rewrite <- Hn, <- Hc, Hvalid, Hback, Nat2Z.id, printed_all by done.
    destruct (Z.ltb_spec cardId 0); [lia|].
    destruct (Z.geb_spec cardId (cardsFacedUp hub)); [lia|].
    cbn [orb negb]. exact Hrun.
Qed.

Lemma same_table_initial_tokens hub view initialTokens :
  same_table hub view ->
  same_table (set_initial_game_tokens hub initialTokens)
    (set_initial_game_tokens view initialTokens) /\
  (board_ok hub -> board_ok (set_initial_game_tokens hub initialTokens)) /\
  (board_ok view -> board_ok (set_initial_game_tokens view initialTokens)) /\
  topOfDeck (set_initial_game_tokens hub initialTokens) = topOfDeck hub.
Proof.
  unfold set_initial_game_tokens. generalize (seq 0 NUM_COLOURS). intros cs.
  revert hub view. induction cs as [|c cs IH]; intros hub view H;
    cbn [foldl]; [done|].
  destruct (IH (set_pile hub (<[c:=initialTokens]> (pile hub)))
              (set_pile view (<[c:=initialTokens]> (pile view))))
    as (Hs & Hh & Hv & Hd).
  - destruct H as (Hn & Hp & Hpl & Hc & Hf).
    unfold same_table, face_up in *.
    cbn [numPlayers pile players cardsFacedUp cards set_pile].
    by rewrite Hp.
  - done.
Qed.

Lemma deal_followed (k : nat) : forall hub view,
  same_table hub view -> board_ok hub -> board_ok view ->
  Forall card_ok (topOfDeck hub) ->
  exists view',
    PlayerProcess.run_game_loop view (deal_sends k hub) = Some view' /\
    same_table (Nat.iter k take_card_from_deck hub) view' /\
    board_ok (Nat.iter k take_card_from_deck hub) /\ board_ok view' /\
    Forall card_ok (topOfDeck (Nat.iter k take_card_from_deck hub)).
Proof.
  induction k as [|k IH]; intros hub view Hs Hbh Hbv Hd;
    cbn [deal_sends Nat.iter nat_rect]; [by exists view|].
  destruct (IH hub view Hs Hbh Hbv Hd) as (view1 & Hrun & Hs1 & Bh & Bv & D).
  destruct (take_card_from_deck_followed _ view1 Hs1 Bh Bv D)
    as (view' & Hrun' & Hfinal).
  exists view'. split; [|done].
  rewrite run_game_loop_app, Hrun. exact Hrun'.
Qed.

(** A player set up for [n] players has the hub's table after the lines
    the hub sends at the start of a game: the initial tokens and the
    cards dealt to the board. *)
Theorem player_follows_start
    (n me initialTokens maxPoints : Z) (deck : list Card) :
  0 <= initialTokens -> Forall card_ok deck ->
  let g := setup_game n in
  let hub :=
    mkGame (myId g) (Game.maxPoints g) (numPlayers g) (pile g)
      (cardsFacedUp g) (cards g) deck (players g) in
  let view :=
    mkGame me (Game.maxPoints g) (numPlayers g) (pile g)
      (cardsFacedUp g) (cards g) (topOfDeck g) (players g) in
  let hub' := start_new_game hub initialTokens maxPoints in
  exists view',
    PlayerProcess.run_game_loop view
      (start_new_game_sends hub initialTokens maxPoints) = Some view' /\
    same_table hub' view' /\ board_ok hub' /\ board_ok view' /\
    Forall card_ok (topOfDeck hub').
Proof.
  intros Hinit Hdeck g hub view hub'.
  unfold hub', start_new_game, start_new_game_sends.
  cbn [PlayerProcess.run_game_loop PlayerProcess.handle_input].
  unfold PlayerProcess.handle_initial_tokens.
  destruct (Z.ltb_spec initialTokens 0); [lia|].
  assert (Hb : forall a b d, board_ok
            (mkGame a b (numPlayers g) (pile g) (cardsFacedUp g) (cards g) d
               (players g))).
  { intros a b d. split; [done|]. cbn. unfold MAX_CARDS_ON_BOARD. lia. }
  match goal with
  | |- context [deal_sends _ (set_initial_game_tokens ?h _)] =>
      destruct (same_table_initial_tokens h view initialTokens)
        as (Hs & Hh & Hv & Hd); [done|];
      apply deal_followed; [done|by apply Hh|by apply Hv|by rewrite Hd]
  end.
Qed.

End Messages.

(** * Further properties of the server *)

Section ServerBehaviour.
Import Rafiki ServerRules Connections MoreServerRules Limits.






Lemma strikes_cons r replies :
  strikes (r :: replies)
  = ((if decide (err r = PROTOCOL_ERROR) then 1 else 0) + strikes replies)%nat.
Proof.
  unfold strikes. rewrite filter_cons. by case_decide.
Qed.

Lemma turn_loop_outcome timeout player (replies : list Reply) :
  forall hadAttempt data dowhats,
  match turn_loop timeout player hadAttempt data dowhats replies with
  | Left gameStopped e _ n =>
      exists m r, n = (dowhats + m + 1)%nat /\ replies !! m = Some r /\
        err r = e /\
        Forall (fun r => err r <> NOTHING_WRONG) (take m replies) /\
        match e with
        | NOTHING_WRONG =>
            gameStopped = false /\
            (strikes (take m replies) + held_strike hadAttempt <= 1)%nat
        | PROTOCOL_ERROR =>
            gameStopped = true /\
            (strikes (take m replies) + held_strike hadAttempt = 1)%nat
        | PLAYER_CLOSED =>
            gameStopped = true /\
            (strikes (take m replies) + held_strike hadAttempt <= 1)%nat
        | OTHER_ERROR => False
        end
  | Blocked hadAttempt' _ n =>
      n = (dowhats + length replies + 1)%nat /\
      Forall (fun r => err r <> NOTHING_WRONG) replies /\
      (strikes replies + held_strike hadAttempt)%nat
      = held_strike hadAttempt'
  end.
Proof.
  induction replies as [|r replies IH]; intros h data k; cbn [turn_loop].
  - split; [cbn; lia|]. split; [done|]. done.
  - assert (Hnext : forall h' data',
      (strikes [r] + held_strike h = held_strike h')%nat ->
      err r <> NOTHING_WRONG ->
      match turn_loop timeout player h' data' (S k) replies with
      | Left gameStopped e _ n =>
          exists m r0, n = (k + m + 1)%nat /\
            (r :: replies) !! m = Some r0 /\ err r0 = e /\
            Forall (fun r => err r <> NOTHING_WRONG)
              (take m (r :: replies)) /\
            match e with
            | NOTHING_WRONG =>
                gameStopped = false /\
                (strikes (take m (r :: replies)) + held_strike h <= 1)%nat
            | PROTOCOL_ERROR =>
                gameStopped = true /\
                (strikes (take m (r :: replies)) + held_strike h = 1)%nat
            | PLAYER_CLOSED =>
                gameStopped = true /\
                (strikes (take m (r :: replies)) + held_strike h <= 1)%nat
            | OTHER_ERROR => False
            end
      | Blocked hadAttempt' _ n =>
          n = (k + length (r :: replies) + 1)%nat /\
          Forall (fun r => err r <> NOTHING_WRONG) (r :: replies) /\
          (strikes (r :: replies) + held_strike h)%nat
          = held_strike hadAttempt'
      end).
    { intros h' data' Hs Hr. specialize (IH h' data' (S k)).
      rewrite strikes_cons in Hs. change (strikes []) with 0%nat in Hs.
      destruct (turn_loop timeout player h' data' (S k) replies)
        as [s e d n|h'' d n].
      - destruct IH as (m & r0 & -> & Hm & He & Hall & Hcase).
        exists (S m), r0. split; [lia|]. split; [done|]. split; [done|].
        cbn [take]. split; [by apply Forall_cons|].
        rewrite strikes_cons.
        destruct (decide (err r = PROTOCOL_ERROR)); destruct e; try done;
          (destruct Hcase; split; [done|lia]).
      - destruct IH as (-> & Hall & Hcount).
        split; [cbn [length]; lia|]. split; [by apply Forall_cons|].
        rewrite strikes_cons.
        destruct (decide (err r = PROTOCOL_ERROR)); lia. }
    assert (Hfirst : forall e, err r = e ->
      exists m r0, S k = (k + m + 1)%nat /\ (r :: replies) !! m = Some r0 /\
        err r0 = e /\
        Forall (fun r => err r <> NOTHING_WRONG) (take m (r :: replies)) /\
        strikes (take m (r :: replies)) = 0%nat).
    { intros e He. exists 0%nat, r. split; [lia|]. by cbn. }
    destruct (err r) eqn:Hr.
    + destruct (Hfirst _ eq_refl) as (m & r0 & ? & ? & ? & ? & Hz).
      exists m, r0. rewrite Hz. destruct h; cbn; split_and!; try done; lia.
    + destruct h.
      * destruct (Hfirst _ eq_refl) as (m & r0 & ? & ? & ? & ? & Hz).
        exists m, r0. rewrite Hz. cbn. split_and!; done.
      * apply Hnext; [|congruence]. rewrite strikes_cons, Hr.
        rewrite decide_True by done. done.
    + destruct (wait_for_reconnect timeout data player (wait r))
        as [[] data'].
      * apply Hnext; [|congruence]. rewrite strikes_cons, Hr.
        rewrite decide_False by done. done.
      * destruct (Hfirst _ eq_refl) as (m & r0 & ? & ? & ? & ? & Hz).
        exists m, r0. rewrite Hz. destruct h; cbn; split_and!; try done; lia.
    + apply Hnext; [|congruence]. rewrite strikes_cons, Hr.
      rewrite decide_False by done. done.
Qed.

(** How the turn of a player ends.  One "dowhat" goes out for each reply
    that is read.  The turn is left at the first valid move; or, with
    the game stopped, at the second invalid message of the turn or at a
    disconnection that no reconnection repairs; and no valid move was
    read before.  While none of these has come, the driver waits for
    the next reply, holding a strike exactly when one invalid message
    was read. *)
Theorem turn_ends_at_move_second_strike_or_disconnect
    (timeout player : Z) (data : GameData) (replies : list Reply) :
  match player_turn timeout player data replies with
  | Left gameStopped e _ n =>
      (1 <= n <= length replies)%nat /\
      exists r, replies !! (n - 1)%nat = Some r /\ err r = e /\
        let before := take (n - 1) replies in
        Forall (fun r => err r <> NOTHING_WRONG) before /\
        match e with
        | NOTHING_WRONG => gameStopped = false /\ (strikes before <= 1)%nat
        | PROTOCOL_ERROR => gameStopped = true /\ strikes before = 1%nat
        | PLAYER_CLOSED => gameStopped = true /\ (strikes before <= 1)%nat
        | OTHER_ERROR => False
        end
  | Blocked hadAttempt _ n =>
      n = S (length replies) /\
      Forall (fun r => err r <> NOTHING_WRONG) replies /\
      strikes replies = held_strike hadAttempt
  end.
Proof.
  unfold player_turn.
  pose proof (turn_loop_outcome timeout player replies false data 0) as H.
  destruct (turn_loop timeout player false data 0 replies)
    as [s e d n|h d n].
  - destruct H as (m & r & -> & Hm & He & Hall & Hcase).
    apply lookup_lt_Some in Hm as Hlt.
    replace (0 + m + 1 - 1)%nat with m by lia.
    split; [lia|]. exists r. split; [done|]. split; [done|]. cbn zeta.
    split; [done|]. cbn [held_strike] in Hcase.
    destruct e; [| |  |done]; (split; [tauto|lia]).
  - destruct H as (-> & Hall & Hcount). cbn [held_strike] in Hcount.
    split; [lia|]. split; [done|lia].
Qed.

(** What a disconnection during a turn leads to.  The driver goes on to
    ask the player again exactly when the server has a timeout, the game
    is not finished before or during the wait, and the wait is answered
    in time.  Otherwise the game is stopped, and the other players are
    told of the disconnection unless the game has been marked
    finished. *)
Theorem disconnection_outcome
    (timeout player : Z) (hadAttempt : bool) (data : GameData)
    (dowhats : nat) (closed : Reply) (replies : list Reply) :
  err closed = PLAYER_CLOSED ->
  let reconnected :=
    negb (timeout =? 0) && negb (finished data)
    && negb (finishedMeanwhile (wait closed))
    && (waitStatus (wait closed) =? 0) in
  let data' := (wait_for_reconnect timeout data player (wait closed)).2 in
  let turn :=
    turn_loop timeout player hadAttempt data dowhats (closed :: replies) in
  (wait_for_reconnect timeout data player (wait closed)).1 = reconnected /\
  (reconnected = true ->
   turn = turn_loop timeout player hadAttempt data' (S dowhats) replies /\
   reconnectingPlayer data' = player) /\
  (reconnected = false ->
   turn = Left true PLAYER_CLOSED data' (S dowhats) /\
   turn_broadcast player turn
   = if finished data' then None
     else Some ("disco"
                +:+ String (ascii_of_nat (Z.to_nat (65 + player))) EmptyString
                +:+ String newline EmptyString)).
Proof.
  intros Hclosed reconnected data' turn.
  unfold turn, data', reconnected. cbn [turn_loop]. rewrite Hclosed.
  unfold wait_for_reconnect.
  destruct (timeout =? 0); cbn [negb andb fst snd].
  { split; [done|]. split; [done|]. intros _. split; [done|].
    cbn [turn_broadcast]. unfold final_broadcast.
    replace (player + 1 - 1) with player by lia. done. }
  destruct (finished data) eqn:Hfin; cbn [negb andb fst snd orb].
  { split; [done|]. split; [done|]. intros _. split; [done|].
    cbn [turn_broadcast]. unfold final_broadcast. by rewrite Hfin. }
  destruct (finishedMeanwhile (wait closed)); cbn [negb andb fst snd finished].
  { split; [done|]. split; [done|]. intros _. split; [done|].
    cbn [turn_broadcast]. unfold final_broadcast. done. }
  destruct (waitStatus (wait closed) =? 0); cbn [fst snd].
  - split; [done|]. split; [done|]. done.
  - split; [done|]. split; [done|]. intros _. split; [done|].
    cbn [turn_broadcast]. unfold final_broadcast. cbn [finished].
    replace (player + 1 - 1) with player by lia. done.
Qed.

End ServerBehaviour.

(** * Games, reconnection and authentication *)

Section Reconnection.
Import Rafiki ServerRules Connections MoreServerRules.




Lemma numbered_later_counts_more (gs : list Game.t) :
  numbered gs -> Forall (fun g => c_string (Game.name g) = true) gs ->
  forall j k gj gk, (j < k)%nat -> gs !! j = Some gj -> gs !! k = Some gk ->
    strcmp (Game.name gj) (Game.name gk) = 0 ->
    counter (Game.data gj) < counter (Game.data gk).
Proof.
  intros Hnum Hnames j k gj gk Hjk Hj Hk Hsame.
  rewrite Forall_lookup in Hnames.
  apply strcmp_eq in Hsame; [|by apply (Hnames j)|by apply (Hnames k)].
  rewrite (Hnum j gj Hj), (Hnum k gk Hk), Hsame.
  assert (Hjk' : take k gs !! j = Some gj) by (by rewrite lookup_take_lt).
  rewrite <- (take_drop_middle (take k gs) j gj Hjk').
  rewrite take_take, Nat.min_l by lia.
  rewrite filter_app, length_app, filter_cons.
  rewrite decide_True by (rewrite <- Hsame; apply strcmp_refl).
  cbn [length]. lia.
Qed.

Lemma find_open_loop_first (gs : list Game.t) gameName gc : forall base k g,
  gs !! k = Some g ->
  strcmp (Game.name g) gameName = 0 -> counter (Game.data g) = gc ->
  finished (Game.data g) = false ->
  (forall j gj, (j < k)%nat -> gs !! j = Some gj ->
     strcmp (Game.name gj) gameName = 0 -> counter (Game.data gj) <> gc) ->
  find_open_loop gs gameName gc base = base + Z.of_nat k.
Proof.
  induction gs as [|g0 gs IH]; intros base k g Hk Hname Hgc Hfin Hfirst;
    [done|].
  cbn [find_open_loop]. destruct k as [|k].
  - injection Hk as ->. rewrite Hname, Hgc, Hfin, !Z.eqb_refl.
    cbn [andb negb]. lia.
  - destruct (Z.eqb_spec (strcmp (Game.name g0) gameName) 0) as [H0|H0];
      cbn [andb].
    + destruct (Z.eqb_spec (counter (Game.data g0)) gc) as [Hc|Hc];
        cbn [andb].
      * destruct (Hfirst 0%nat g0); [lia|done|done|done].
      * rewrite (IH (base + 1) k g); [lia|done..|].
        intros j gj Hj. apply (Hfirst (S j)). lia.
    + rewrite (IH (base + 1) k g); [lia|done..|].
      intros j gj Hj. apply (Hfirst (S j)). lia.
Qed.

Lemma find_open_game_numbered server gameId game :
  numbered (games server) ->
  Forall (fun g => c_string (Game.name g) = true) (games server) ->
  games server !! gameId = Some game ->
  finished (Game.data game) = false ->
  find_open_game server (Game.name game) (counter (Game.data game))
  = Z.of_nat gameId.
Proof.
  intros Hnum Hnames Hg Hfin. unfold find_open_game.
  rewrite (find_open_loop_first (games server) _ _ 0 gameId game);
    [lia|done|apply strcmp_refl|done|done|].
  intros j gj Hj Hgj Hsame Hc.
  pose proof (numbered_later_counts_more _ Hnum Hnames j gameId gj game
                Hj Hgj Hg Hsame). lia.
Qed.

(** Among numbered games a name and a counter name one game: a running
    game is found by its own name and counter, whatever games of the
    same name were started before or after it, and no other game of
    that name carries its counter. *)
Theorem find_open_game_finds_the_game
    (server : Server) (gameId : nat) (game : Game.t) :
  numbered (games server) ->
  Forall (fun g => c_string (Game.name g) = true) (games server) ->
  games server !! gameId = Some game ->
  finished (Game.data game) = false ->
  find_open_game server (Game.name game) (counter (Game.data game))
  = Z.of_nat gameId /\
  forall j other, j <> gameId -> games server !! j = Some other ->
    strcmp (Game.name other) (Game.name game) = 0 ->
    counter (Game.data other) <> counter (Game.data game).
Proof.
  intros Hnum Hnames Hg Hfin.
  split; [by apply find_open_game_numbered|].
  intros j other Hj Hother Hsame.
  destruct (decide (j < gameId)%nat) as [Hlt|Hge].
  - pose proof (numbered_later_counts_more _ Hnum Hnames j gameId other game
                  Hlt Hother Hg Hsame). lia.
  - assert (Hflip : strcmp (Game.name game) (Game.name other) = 0)
      by (rewrite strcmp_flip, Hsame; done).
    pose proof (numbered_later_counts_more _ Hnum Hnames gameId j game other
                  ltac:(lia) Hg Hother Hflip). lia.
Qed.

Lemma read_chars_line (line after : list ascii) :
  newline ∉ line ->
  read_chars (line ++ newline :: after) = (line, S (length line)).
Proof.
  induction line as [|c line IH]; intros Hn; cbn [app read_chars length].
  - by rewrite Ascii.eqb_refl.
  - apply not_elem_of_cons in Hn as [Hc Hn].
    destruct (Ascii.eqb_spec c newline); [done|]. by rewrite IH.
Qed.

Lemma read_line_first (line after : list ascii) :
  newline ∉ line ->
  read_line (mkFILE (line ++ newline :: after) 0)
  = (Z.of_nat (length line), line,
     mkFILE (line ++ newline :: after) (S (length line))).
Proof.
  intros Hn. rewrite read_line_start by (by destruct line).
  by rewrite read_chars_line.
Qed.

Lemma name_loop_comma (name after : list ascii) :
  ","%char ∉ name -> name_loop (name ++ ","%char :: after) = name.
Proof.
  induction name as [|c name IH]; intros Hn; cbn [app name_loop].
  - done.
  - apply not_elem_of_cons in Hn as [Hc Hn].
    destruct (Ascii.eqb_spec c ","); [done|]. by rewrite IH.
Qed.

Lemma is_valid_game_name_chars (name : string) :
  is_valid_game_name name = true ->
  (","%char ∉ list_ascii_of_string name) /\
  (newline ∉ list_ascii_of_string name).
Proof.
  unfold is_valid_game_name. rewrite forallb_forall. intros H.
  split; intros Hin%list_elem_of_In; apply H in Hin; by vm_compute in Hin.
Qed.

(** The reconnect id that [game_thread] hands to the player in seat [i]
    leads back to that game and seat: when the line comes back,
    [get_and_parse_rid] reads the name, the counter and the seat it was
    written from, and [find_open_game] finds the game itself, as long
    as the game runs, the games are numbered and the names hold no
    byte 0. *)
Theorem rid_leads_back_to_seat
    (server : Server) (gameId i : nat) (game : Game.t)
    (rest beyond : list ascii) :
  numbered (games server) ->
  Forall (fun g => c_string (Game.name g) = true) (games server) ->
  games server !! gameId = Some game ->
  finished (Game.data game) = false ->
  is_valid_game_name (Game.name game) = true ->
  (i < length (Game.players game))%nat ->
  Z.of_nat (length (Game.players game)) <= MAX_PLAYERS ->
  reconnect_game server (mkFILE (bytes (rid_message game i) ++ rest) 0)
    beyond
  = Some (gameId, Z.of_nat i).
Proof.
  intros Hnum Hnames Hg Hfin Hvalid Hi Hmax.
  destruct (is_valid_game_name_chars _ Hvalid) as [Hcomma Hnl].
  set (name := list_ascii_of_string (Game.name game)) in *.
  set (gc := counter (Game.data game)).
  set (numbers := pretty gc +:+ "," +:+ pretty (Z.of_nat i)).
  set (line := list_ascii_of_string "rid" ++ name
               ++ ","%char :: list_ascii_of_string numbers).
  assert (Hbytes : bytes (rid_message game i) ++ rest
                   = line ++ newline :: rest).
  { unfold bytes, rid_message, line, numbers. fold gc.
    rewrite !list_ascii_of_string_app. fold name.
    change (list_ascii_of_string ",") with [","%char].
    change (list_ascii_of_string (String newline "")) with [newline].
    rewrite <- !(assoc_L (++)). cbn [app]. rewrite <- !(assoc_L (++)).
    done. }
  assert (Hdigits : forall z : Z, Forall (fun c => c <> newline)
                                    (list_ascii_of_string (pretty z))).
  { intros z. apply pretty_Z_chars; [|done].
    intros d Hd. by apply pretty_N_char_digit. }
  assert (Hline : newline ∉ line).
  { assert (Hall : Forall (fun c => c <> newline) line).
    { unfold line, numbers. rewrite !list_ascii_of_string_app.
      change (list_ascii_of_string ",") with [","%char].
      assert (Forall (fun c => c <> newline) name).
      { apply Forall_forall. by intros c Hc ->. }
      assert (Forall (fun c => c <> newline) [","%char])
        by (by apply Forall_singleton).
      assert (Forall (fun c => c <> newline) (list_ascii_of_string "rid"))
        by (by repeat constructor).
      repeat first [apply Forall_app; split | apply Forall_cons; split];
        try done; apply Hdigits. }
    intros Hin. rewrite Forall_forall in Hall. by apply (Hall _ Hin). }
  unfold reconnect_game, get_and_parse_rid.
  rewrite Hbytes, read_line_first by done.
  assert (Hlen : length line = (4 + length name
                                + length (list_ascii_of_string numbers))%nat).
  { unfold line. rewrite !length_app. cbn [length list_ascii_of_string].
    lia. }
  destruct (Z.leb_spec (Z.of_nat (length line)) 0) as [?|_]; [lia|].
  change (starts_with (list_ascii_of_string "rid") line) with true.
  destruct (Nat.eqb_spec (length line) 3) as [?|_]; [lia|].
  cbn [negb orb].
  change (drop 3 line)
    with (name ++ ","%char :: list_ascii_of_string numbers).
  rewrite name_loop_comma by done. rewrite drop_app_length.
  assert (Hscan : scan_ints 2 (list_ascii_of_string numbers)
                  = [gc; Z.of_nat i]).
  { unfold numbers. cbn [scan_ints].
    rewrite scan_int_pretty by done.
    change (list_ascii_of_string ("," +:+ pretty (Z.of_nat i)))
      with (","%char :: list_ascii_of_string (pretty (Z.of_nat i))).
    rewrite <- (append_empty_r (pretty (Z.of_nat i))).
    rewrite scan_int_pretty by done. done. }
  rewrite Hscan. cbn [sscanf_result length lookup_total list_lookup_total].
  change (Z.of_nat 2 =? 2) with true.
  unfold Rafiki.MAX_PLAYERS in *.
  destruct (Z.geb_spec (Z.of_nat i) 26) as [?|_]; [lia|].
  destruct (Z.ltb_spec (Z.of_nat i) 0) as [?|_]; [lia|].
  cbn [negb orb name gameCounter playerId Connections.name].
  unfold str, name. rewrite string_of_list_ascii_of_string.
  unfold gc.
  rewrite (find_open_game_numbered server gameId game) by done.
  destruct (Z.eqb_spec (Z.of_nat gameId) (-1)) as [?|_]; [lia|].
  rewrite Nat2Z.id, (list_lookup_total_correct _ _ _ Hg).
  destruct (Z.geb_spec (Z.of_nat i) (Z.of_nat (length (Game.players game))))
    as [?|_]; [lia|].
  done.
Qed.

End Reconnection.

Section Authentication.
Import Rafiki ServerRules Connections MoreServerRules.

Lemma starts_with_app (prefix t : list ascii) :
  starts_with prefix (prefix ++ t) = true.
Proof.
  induction prefix as [|p prefix IH]; cbn [app starts_with]; [done|].
  by rewrite Ascii.eqb_refl.
Qed.

Lemma starts_with_drop (prefix line : list ascii) :
  starts_with prefix line = true ->
  line = prefix ++ drop (length prefix) line.
Proof.
  revert line. induction prefix as [|p prefix IH]; intros line; [done|].
  destruct line as [|c line]; cbn [starts_with]; [done|].
  intros [Hp Hrest]%andb_true_iff. apply Ascii.eqb_eq in Hp as ->.
  cbn [length drop app]. f_equal. by apply IH.
Qed.

Lemma c_string_str (a : list ascii) :
  "000"%char ∉ a -> c_string (str a) = true.
Proof.
  intros Ha. unfold c_string, str.
  rewrite list_ascii_of_string_of_list_ascii.
  apply forallb_forall. intros c Hc%list_elem_of_In.
  destruct (Ascii.eqb_spec c "000"); [by subst|done].
Qed.

Lemma strcmp_str (a b : list ascii) :
  "000"%char ∉ a -> "000"%char ∉ b ->
  strcmp (str a) (str b) = 0 <-> a = b.
Proof.
  intros Ha Hb.
  rewrite strcmp_eq by (by apply c_string_str). unfold str. split.
  - intros H. apply (f_equal list_ascii_of_string) in H.
    by rewrite !list_ascii_of_string_of_list_ascii in H.
  - by intros ->.
Qed.

(** Whom [authenticate_connection] lets in.  For a first line without
    a byte 0: the client may join a game exactly when the line is
    "play" followed by the key, may reconnect exactly when it is
    "reconnect" followed by the key, and is sent the scores exactly when
    it is "scores", for which no key is asked; any other first line is
    refused. *)
Theorem authenticate_connection_exact_key
    (server : Server) (k line rest : list ascii) :
  key server = Some k ->
  "000"%char ∉ k -> "000"%char ∉ line -> newline ∉ line ->
  (authenticate_connection server (mkFILE (line ++ newline :: rest) 0)).1
  = if decide (line = list_ascii_of_string "play" ++ k) then NEW
    else if decide (line = list_ascii_of_string "reconnect" ++ k)
    then RECONNECT
    else if decide (line = list_ascii_of_string "scores") then SCORES
    else INVALID_AUTH.
Proof.
  intros Hkey Hk Hline Hnl. unfold authenticate_connection.
  rewrite read_line_first, Hkey by done.
  change (default [] (Some k)) with k.
  destruct (Z.leb_spec (Z.of_nat (length line)) 0) as [Hlen|Hlen].
  { destruct line; [|cbn in Hlen; lia]. cbn [fst].
    rewrite !decide_False by done. done. }
  cbn [fst].
  assert (Hdrop : forall n, "000"%char ∉ drop n line).
  { intros n Hin. apply Hline. by apply (subseteq_drop n line). }
  destruct (starts_with (list_ascii_of_string "play") line) eqn:Hplay.
  { apply starts_with_drop in Hplay.
    change (length (list_ascii_of_string "play")) with 4%nat in Hplay.
    destruct (Z.eqb_spec (strcmp (str (drop 4 line)) (str k)) 0) as [He|He].
    - apply strcmp_str in He; [|done..].
      rewrite decide_True by (by rewrite <- He). done.
    - rewrite strcmp_str in He by done.
      rewrite decide_False by (intros H; apply He; rewrite H; done).
      rewrite Hplay, !decide_False by done. done. }
  rewrite decide_False
    by (intros H; rewrite H, starts_with_app in Hplay; done).
  destruct (starts_with (list_ascii_of_string "reconnect") line) eqn:Hrec.
  { apply starts_with_drop in Hrec.
    change (length (list_ascii_of_string "reconnect")) with 9%nat in Hrec.
    destruct (Z.eqb_spec (strcmp (str (drop 9 line)) (str k)) 0) as [He|He].
    - apply strcmp_str in He; [|done..].
      rewrite decide_True by (by rewrite <- He). done.
    - rewrite strcmp_str in He by done.
      rewrite decide_False by (intros H; apply He; rewrite H; done).
      rewrite Hrec, !decide_False by done. done. }
  rewrite decide_False
    by (intros H; rewrite H, starts_with_app in Hrec; done).
  change "scores"%string with (str (list_ascii_of_string "scores")).
  destruct (Z.eqb_spec
              (strcmp (str line) (str (list_ascii_of_string "scores"))) 0)
    as [He|He].
  - apply strcmp_str in He; [|done|].
    + by rewrite decide_True.
    + cbn. rewrite !not_elem_of_cons. split_and!; try done.
      apply not_elem_of_nil.
  - rewrite strcmp_str in He; [|done|].
    + by rewrite decide_False.
    + cbn. rewrite !not_elem_of_cons. split_and!; try done.
      apply not_elem_of_nil.
Qed.

End Authentication.

Section Lobbies.
Import Rafiki ServerRules Connections MoreServerRules.







End Lobbies.

(** * The strategies at the hub *)

Section StrategiesAtTheHub.
Import Game Hub Rules GameLib MoreRules.

Lemma take_loop_same_pile hub view toks cs : forall numTaken,
  pile hub = pile view ->
  take_loop hub toks numTaken cs = take_loop view toks numTaken cs.
Proof.
  induction cs as [|c cs IH]; intros numTaken Hp; cbn [take_loop]; [done|].
  rewrite Hp, !IH by done. done.
Qed.

Lemma can_tokens_buy_card_same_table hub view playerId cardId toks :
  same_table hub view -> Z.of_nat cardId < cardsFacedUp hub ->
  can_tokens_buy_card hub playerId cardId toks
  = can_tokens_buy_card view playerId cardId toks.
Proof.
  intros (_ & _ & Hpl & Hc & Hf) Hcard.
  assert (Hcards : cards hub !!! cardId = cards view !!! cardId).
  { rewrite <- !face_up_lookup by lia. by rewrite Hf. }
  unfold can_tokens_buy_card, can_player_afford_card,
    choose_tokens_to_buy_card.
  by rewrite Hcards, Hpl.
Qed.

(** What a player's copy takes for a valid move, the hub takes too. *)
Lemma handle_input_same_table hub view playerId m :
  same_table hub view ->
  is_Some (handle_input view playerId m) ->
  is_Some (handle_input hub playerId m).
Proof.
  intros Hs. pose proof Hs as (_ & Hp & _ & Hc & _).
  destruct m as [|toks|cardId toks]; cbn [handle_input]; [done| |].
  - unfold is_valid_token_take.
    rewrite (take_loop_same_pile hub view) by done.
    by destruct (take_loop view toks 0 (seq 0 NUM_COLOURS)).
  - rewrite Hc.
    destruct (Z.ltb_spec cardId 0) as [?|Hc0]; [done|].
    destruct (Z.geb_spec cardId (cardsFacedUp view)) as [?|Hc1]; [done|].
    cbn [orb].
    rewrite (can_tokens_buy_card_same_table hub view) by (done || lia).
    by destruct (can_tokens_buy_card view playerId (Z.to_nat cardId) toks).
Qed.

(** Whatever Shenzi decides on a turn from its copy of the game, the hub
    accepts as a valid move, as long as the copy shows the hub's table:
    the card asked for lies face up and is paid for with exactly the
    tokens the hub expects, and the tokens asked for are three tokens of
    piles that are not empty. *)
Theorem shenzi_move_accepted (hub view : Game) :
  same_table hub view ->
  is_Some (handle_input hub (Z.to_nat (myId view))
             (Shenzi.choose_move view)).
Proof.
  intros Hs. apply (handle_input_same_table hub view); [done|].
  apply shenzi_choose_move_valid.
Qed.

(** Whatever Banzai decides on a turn from its copy of the game, the hub
    accepts as a valid move, as long as the copy shows the hub's
    table. *)
Theorem banzai_move_accepted (hub view : Game) :
  same_table hub view ->
  is_Some (handle_input hub (Z.to_nat (myId view))
             (Banzai.choose_move view)).
Proof.
  intros Hs. apply (handle_input_same_table hub view); [done|].
  apply banzai_choose_move_valid.
Qed.

(** Ed, with a player id within the game, decides on a move, and
    whatever it decides from its copy of the game the hub accepts as a
    valid move, as long as the copy shows the hub's table. *)
Theorem ed_move_accepted (hub view : Game) (fuel : nat) :
  same_table hub view ->
  0 <= myId view < numPlayers view ->
  (Z.to_nat (numPlayers view) < fuel)%nat ->
  exists m, Ed.choose_move fuel view = Some m /\
    is_Some (handle_input hub (Z.to_nat (myId view)) m).
Proof.
  intros Hs Hme Hfuel.
  destruct (ed_choose_move_valid view fuel Hme Hfuel) as (m & Hm & Hok).
  exists m. split; [done|]. by apply (handle_input_same_table hub view).
Qed.

End StrategiesAtTheHub.

(** * Statfiles that are accepted *)

Section StatfileAccepted.
Import Rafiki ServerRules Connections MoreServerRules Limits.









End StatfileAccepted.

(** * The further properties at concrete states *)

Section MoreWitnesses.
Import Examples MoreExamples.

Lemma hub_game_sized : Rules.well_sized 2 hub_game.
Proof. repeat split; repeat constructor. Defined.

Lemma hub_game_board : MoreRules.board_ok hub_game.
Proof. split; [reflexivity|by vm_compute]. Defined.

Lemma dealt_game_board : MoreRules.board_ok dealt_game.
Proof. split; [reflexivity|by vm_compute]. Defined.

Lemma dealt_game_reachable : Hub.reachable 2 2 dealt_game.
Proof. exact (Hub.reach_start 2 2 hub_deck 1). Defined.

Lemma running_server_numbered :
  MoreServerRules.numbered (Rafiki.games running_server).
Proof. intros [|i] game; cbn; intros [= <-]; reflexivity. Defined.

Lemma running_server_names :
  Forall (fun g => ServerRules.c_string (Rafiki.Game.name g) = true)
    (Rafiki.games running_server).
Proof. repeat constructor. Defined.


Lemma chosen_tokens_add_up_to_price_witness :
  length (replicate 5 0) = Game.TOKEN_SLOTS /\
  (let chosen :=
     Game.choose_tokens_to_buy_card hub_game 0 0 (replicate 5 0) in
   chosen !!! 0%nat + chosen !!! 1%nat + chosen !!! 2%nat + chosen !!! 3%nat
   + chosen !!! Game.WILD
   = GameLib.get_card_price_for_player hub_game 0 0).
Proof.
  split; [reflexivity|].
  exact (chosen_tokens_add_up_to_price hub_game 0 0 (replicate 5 0) eq_refl).
Defined.

Lemma affordable_card_costs_no_more_than_held_witness :
  Game.can_player_afford_card hub_game 0 0 = true /\
  GameLib.get_card_price_for_player hub_game 0 0
  <= GameLib.get_player_token_count hub_game 0.
Proof.
  split; [reflexivity|].
  apply (affordable_card_costs_no_more_than_held hub_game 0 0).
  - intros i Hi. do 5 (destruct i as [|i]; [by vm_compute|]).
    unfold Game.TOKEN_SLOTS in Hi. lia.
  - by vm_compute.
  - intros i Hi. do 4 (destruct i as [|i]; [by vm_compute|]).
    unfold Game.NUM_COLOURS in Hi. lia.
  - reflexivity.
Defined.

Lemma valid_take_needs_three_piles_witness :
  Game.is_valid_token_take hub_game [1; 1; 1; 0] = true /\
  Game.can_tokens_be_taken hub_game = true.
Proof.
  split; [reflexivity|].
  exact (valid_take_needs_three_piles hub_game [1; 1; 1; 0] eq_refl).
Defined.

Lemma player_took_tokens_effect_witness :
  Rules.well_sized 2 hub_game /\
  Game.cardsFacedUp (Game.player_took_tokens hub_game 0 [1; 1; 1; 0])
  = Game.cardsFacedUp hub_game.
Proof.
  split; [exact hub_game_sized|].
  refine (proj1 (proj2 (proj2 (proj2 (proj2
    (player_took_tokens_effect 2 hub_game 0 [1; 1; 1; 0] hub_game_sized
       _)))))).
  lia.
Defined.


Lemma board_after_purchase_and_draw_witness :
  MoreRules.board_ok dealt_game /\
  MoreRules.face_up
    (Hub.take_card_from_deck
       (Game.player_purchased_card dealt_game 0 0 [0; 0; 0; 0; 0]))
  = delete 0%nat (MoreRules.face_up dealt_game)
    ++ take 1 (Game.topOfDeck dealt_game).
Proof.
  split; [exact dealt_game_board|].
  refine (proj1 (proj2
    (board_after_purchase_and_draw dealt_game 0 0 [0; 0; 0; 0; 0]
       dealt_game_board _))).
  by vm_compute.
Defined.

Lemma reachable_tokens_never_negative_witness :
  Hub.reachable 2 2 dealt_game /\
  (forall c, (c < Game.NUM_COLOURS)%nat -> 0 <= Game.pile dealt_game !!! c).
Proof.
  split; [exact dealt_game_reachable|].
  refine (proj1 (reachable_tokens_never_negative 2 2 dealt_game _
                   dealt_game_reachable)).
  lia.
Defined.

Lemma reachable_board_within_bounds_witness :
  Hub.reachable 2 2 dealt_game /\
  length (Game.cards dealt_game) = Game.MAX_CARDS_ON_BOARD.
Proof.
  split; [exact dealt_game_reachable|].
  exact (proj1 (reachable_board_within_bounds 2 2 dealt_game
                  dealt_game_reachable)).
Defined.

Lemma ed_identifies_best_card_witness :
  0 <= Game.myId hub_game < Game.numPlayers hub_game /\
  exists cardToBuy, Ed.identify_card 3 hub_game = Some cardToBuy.
Proof.
  assert (Hme : 0 <= Game.myId hub_game < Game.numPlayers hub_game)
    by (by vm_compute).
  split; [exact Hme|].
  destruct (ed_identifies_best_card hub_game 3 Hme) as (c & Hc & _);
    [cbn; lia|].
  exists c. exact Hc.
Defined.

Lemma player_follows_move_witness :
  Hub.handle_input dealt_game 0 (Hub.MsgTake [1; 1; 1; 0])
  = Some (Game.player_took_tokens dealt_game 0 [1; 1; 1; 0]) /\
  exists view',
    PlayerProcess.run_game_loop dealt_game
      (HubSends.handle_input_sends dealt_game 0 (Hub.MsgTake [1; 1; 1; 0]))
    = Some view' /\
    MoreRules.same_table
      (Game.player_took_tokens dealt_game 0 [1; 1; 1; 0]) view'.
Proof.
  split; [reflexivity|].
  destruct (player_follows_move dealt_game dealt_game
              (Game.player_took_tokens dealt_game 0 [1; 1; 1; 0]) 0
              (Hub.MsgTake [1; 1; 1; 0]))
    as (view' & Hrun & Hsame & _).
  - repeat split.
  - exact dealt_game_board.
  - exact dealt_game_board.
  - by vm_compute.
  - reflexivity.
  - by vm_compute.
  - by vm_compute.
  - reflexivity.
  - exists view'. split; [exact Hrun|exact Hsame].
Defined.

Lemma player_follows_start_witness :
  Forall MoreRules.card_ok hub_deck /\
  exists view',
    PlayerProcess.run_game_loop
      (let g := Game.setup_game 2 in
       Game.mkGame 1 (Game.maxPoints g) (Game.numPlayers g) (Game.pile g)
         (Game.cardsFacedUp g) (Game.cards g) (Game.topOfDeck g)
         (Game.players g))
      (HubSends.start_new_game_sends
         (let g := Game.setup_game 2 in
          Game.mkGame (Game.myId g) (Game.maxPoints g) (Game.numPlayers g)
            (Game.pile g) (Game.cardsFacedUp g) (Game.cards g) hub_deck
            (Game.players g))
         2 1)
    = Some view' /\
    MoreRules.same_table dealt_game view'.
Proof.
  assert (Hdeck : Forall MoreRules.card_ok hub_deck)
    by (repeat constructor; done).
  split; [exact Hdeck|].
  destruct (player_follows_start 2 1 2 1 hub_deck) as (view' & Hrun & Hs & _).
  - lia.
  - exact Hdeck.
  - exists view'. split; [exact Hrun|exact Hs].
Defined.

Lemma disconnection_outcome_witness :
  Rafiki.err (Rafiki.mkReply Rafiki.PLAYER_CLOSED (Rafiki.mkWait 1 false))
  = Rafiki.PLAYER_CLOSED /\
  Rafiki.turn_loop 0 1 false (Rafiki.mkGameData false 1 2 0) 0
    [Rafiki.mkReply Rafiki.PLAYER_CLOSED (Rafiki.mkWait 1 false)]
  = Rafiki.Left true Rafiki.PLAYER_CLOSED (Rafiki.mkGameData false 1 2 0) 1.
Proof.
  split; [reflexivity|].
  exact (proj1 (proj2 (proj2
    (disconnection_outcome 0 1 false (Rafiki.mkGameData false 1 2 0) 0
       (Rafiki.mkReply Rafiki.PLAYER_CLOSED (Rafiki.mkWait 1 false)) []
       eq_refl)) eq_refl)).
Defined.


Lemma find_open_game_finds_the_game_witness :
  Rafiki.games running_server !! 0%nat = Some running_game /\
  Connections.find_open_game running_server
    (Rafiki.Game.name running_game)
    (Rafiki.counter (Rafiki.Game.data running_game))
  = Z.of_nat 0.
Proof.
  split; [reflexivity|].
  exact (proj1 (find_open_game_finds_the_game running_server 0 running_game
                  running_server_numbered running_server_names eq_refl
                  eq_refl)).
Defined.

Lemma rid_leads_back_to_seat_witness :
  Rafiki.games running_server !! 0%nat = Some running_game /\
  Connections.reconnect_game running_server
    (Rafiki.mkFILE
       (ServerRules.bytes (Connections.rid_message running_game 1) ++ []) 0)
    []
  = Some (0%nat, Z.of_nat 1).
Proof.
  split; [reflexivity|].
  apply (rid_leads_back_to_seat running_server 0 1 running_game [] []
           running_server_numbered running_server_names eq_refl eq_refl
           eq_refl).
  - cbn. lia.
  - by vm_compute.
Defined.

Lemma authenticate_connection_exact_key_witness :
  Rafiki.key keyed_server = Some (ServerRules.bytes "secret") /\
  (Connections.authenticate_connection keyed_server
     (Rafiki.mkFILE (ServerRules.bytes "playsecret" ++ [Rafiki.newline]) 0)).1
  = Connections.NEW.
Proof.
  split; [reflexivity|].
  refine (eq_trans
    (authenticate_connection_exact_key keyed_server
       (ServerRules.bytes "secret") (ServerRules.bytes "playsecret") []
       eq_refl _ _ _) eq_refl);
    apply (bool_decide_unpack _); by vm_compute.
Defined.


Lemma dealt_game_same : MoreRules.same_table dealt_game dealt_game.
Proof. repeat split. Defined.

Lemma shenzi_move_accepted_witness :
  MoreRules.same_table dealt_game dealt_game /\
  is_Some (Hub.handle_input dealt_game (Z.to_nat (Game.myId dealt_game))
             (Shenzi.choose_move dealt_game)).
Proof.
  split; [exact dealt_game_same|].
  exact (shenzi_move_accepted dealt_game dealt_game dealt_game_same).
Defined.

Lemma banzai_move_accepted_witness :
  MoreRules.same_table dealt_game dealt_game /\
  is_Some (Hub.handle_input dealt_game (Z.to_nat (Game.myId dealt_game))
             (Banzai.choose_move dealt_game)).
Proof.
  split; [exact dealt_game_same|].
  exact (banzai_move_accepted dealt_game dealt_game dealt_game_same).
Defined.

Lemma ed_move_accepted_witness :
  0 <= Game.myId dealt_game < Game.numPlayers dealt_game /\
  exists m, Ed.choose_move 3 dealt_game = Some m /\
    is_Some (Hub.handle_input dealt_game (Z.to_nat (Game.myId dealt_game))
               m).
Proof.
  assert (Hme : 0 <= Game.myId dealt_game < Game.numPlayers dealt_game)
    by (by vm_compute).
  split; [exact Hme|].
  apply (ed_move_accepted dealt_game dealt_game 3 dealt_game_same Hme).
  apply Nat.ltb_lt. by vm_compute.
Defined.



End MoreWitnesses.
